(** * Peerio icebear: kegs, the file store, migration, folders, chat lists

    A shallow embedding of the synchronisation core of the client library:
    - [Keg]       models/kegs/keg.js           (save, hydrate, anti-tamper)
    - [FileStore] models/files/file-store-base.js (paged load, update cycles)
    - [Migration] models/files/file-store.ts  (onFileAdded, legacy format)
    - [Folders]   models/files/file-store.folders.js (createFolder)
    - [MyChats]   models/chats/my-chats.ts     (favorites / hidden lists)

    JavaScript objects are records, mutation is explicit state passing,
    exceptions and rejected promises are the [Throw] outcome of a small
    state-and-exception monad, and everything the network answers is an
    input of the function that awaits it. The built-ins of the engine
    that work on text ([toLowerCase], a regular expression with the [i]
    flag) and the cipher are parameters, given as type classes. *)

From Stdlib Require Import ZArith Lia Bool List String Ascii.
From Stdlib Require Import OrderedTypeEx Sorted.
From stdpp Require Import base option list strings gmap.

Local Open Scope string_scope.
Local Open Scope Z_scope.

(** ** JavaScript values *)

Module JS.

(** [!!v] for a value that is a string, [null] or [undefined]:
    only a non-empty string is truthy. *)
Definition truthy (v : option string) : bool :=
  match v with
  | Some s => negb (String.eqb s "")
  | None => false
  end.

(** [a === b] on such values. *)
Definition strict_eq (a b : option string) : bool :=
  match a, b with
  | Some x, Some y => String.eqb x y
  | None, None => true
  | _, _ => false
  end.

(** [a < b] and [a > b] on two strings: code units are compared
    lexicographically, a proper prefix is smaller. *)
Definition lt (a b : string) : bool := String.ltb a b.
Definition gt (a b : string) : bool := String.ltb b a.

(** The letters A to Z made small, every other character kept: what
    [toLowerCase] and the [i] flag of a regular expression make of ASCII
    text. *)
Definition lower_ascii (c : ascii) : ascii :=
  let n := nat_of_ascii c in
  if (Nat.leb 65 n && Nat.leb n 90)%bool then ascii_of_nat (n + 32) else c.

Fixpoint lower_ascii_text (s : string) : string :=
  match s with
  | EmptyString => EmptyString
  | String c r => String (lower_ascii c) (lower_ascii_text r)
  end.

(** The text holds ASCII characters only. *)
Fixpoint ascii_only (s : string) : bool :=
  match s with
  | EmptyString => true
  | String c r => (Nat.ltb (nat_of_ascii c) 128 && ascii_only r)%bool
  end.

(** [String.prototype.toLowerCase], a built-in of the engine. On ASCII
    text it makes the letters A to Z small and keeps the rest; what it
    does to other letters follows the Unicode tables of the engine and
    is left to the instance. *)
Class Lowering := {
  toLowerCase : string -> string;
  toLowerCase_ascii :
    forall s, ascii_only s = true -> toLowerCase s = lower_ascii_text s
}.

End JS.

(** ** Errors thrown by the modelled code *)

Inductive TamperField := TamperKegId | TamperType.

Inductive Error :=
| RehydrateError (localId remoteId : string)   (* new Error('Attempt to rehydrate...') *)
| AntiTamperError (what : TamperField) (inner outer : string)
| TypeError                                    (* property read on undefined *)
| SyntaxError                                  (* JSON.parse *)
| DecryptError                                 (* secret.decryptString *)
| EncryptError                                 (* secret.encryptString *)
| SerializeError (msg : string)                (* thrown by an overridden serializer *)
| SocketError (msg : string)                   (* rejected socket.send *)
| ServerError (code : Z)                       (* server answered with an error code *)
| FolderExists.                                (* new Error('error_folderAlreadyExists') *)

Inductive result (A : Type) :=
| Ok (a : A)
| Throw (e : Error).
Arguments Ok {A} a.
Arguments Throw {A} e.

(** State with exceptions: a throw keeps the state reached so far, as a
    JavaScript exception keeps the assignments made before it. *)
Definition M (S A : Type) : Type := S -> S * result A.

Definition ret {S A} (a : A) : M S A := fun s => (s, Ok a).
Definition throw {S A} (e : Error) : M S A := fun s => (s, Throw e).
Definition bind {S A B} (m : M S A) (k : A -> M S B) : M S B :=
  fun s => match m s with
           | (s', Ok a) => k a s'
           | (s', Throw e) => (s', Throw e)
           end.
Definition get {S} : M S S := fun s => (s, Ok s).
Definition modify {S} (f : S -> S) : M S unit := fun s => (f s, Ok tt).
Definition lift {S A} (r : result A) : M S A := fun s => (s, r).

Declare Scope js_scope.
Delimit Scope js_scope with js.
Notation "'let*' x ':=' m 'in' k" := (bind m (fun x => k))
  (at level 10, x name, m at level 100, k at level 200) : js_scope.
Notation "m ;;; k" := (bind m (fun _ => k))
  (at level 100, k at level 200, right associativity) : js_scope.

Definition is_ok {A} (r : result A) : bool :=
  match r with Ok _ => true | Throw _ => false end.

(** ** Kegs (models/kegs/keg.js) *)

Module Keg.

Definition Key := string.
Definition Props := gmap string string.

Record KegDb := { db_id : string; db_key : Key }.

(** The anti-tamper header [_sys] inside an encrypted payload. *)
Record Sys := { sys_kegId : option string; sys_type : string }.

(** A parsed payload object: the optional [_sys] header and the fields
    of the concrete keg class. *)
Record Payload (P : Type) := { sys : option Sys; fields : P }.
Arguments sys {P} _.
Arguments fields {P} _.
Arguments Build_Payload {P} _ _.

(** Payload of a raw record on the wire: a string for plaintext kegs,
    a binary buffer for encrypted ones. *)
Inductive Wire :=
| WString (s : string)
| WBinary (b : string).

(** [!keg.payload]: a missing payload and the empty string are falsy,
    a buffer object never is. *)
Definition wire_truthy (w : option Wire) : bool :=
  match w with
  | None => false
  | Some (WString s) => negb (String.eqb s "")
  | Some (WBinary _) => true
  end.

(** A raw record as the server returns it. *)
Record Raw := {
  kegId : string;
  r_version : Z;
  r_owner : string;
  r_collectionVersion : string;
  r_payload : option Wire;
  r_props : Props;
  r_deleted : bool;
  r_hidden : bool;
  r_type : string;
  r_format : Z;
  r_decryptionError : bool
}.

(** The instance fields of [Keg]; [data] holds the fields a subclass adds. *)
Record t (D : Type) := {
  id : option string;
  type : string;
  db : KegDb;
  plaintext : bool;
  keyId : Z;
  overrideKey : option Key;
  version : Z;
  collectionVersion : string;
  owner : option string;
  props : Props;
  data : D
}.
Arguments id {D} _.
Arguments type {D} _.
Arguments db {D} _.
Arguments plaintext {D} _.
Arguments keyId {D} _.
Arguments overrideKey {D} _.
Arguments version {D} _.
Arguments collectionVersion {D} _.
Arguments owner {D} _.
Arguments props {D} _.
Arguments data {D} _.
Arguments Build_t {D}.

Definition set_id {D} (v : option string) (k : t D) : t D :=
  Build_t v (type k) (db k) (plaintext k) (keyId k) (overrideKey k)
          (version k) (collectionVersion k) (owner k) (props k) (data k).
Definition set_version {D} (v : Z) (k : t D) : t D :=
  Build_t (id k) (type k) (db k) (plaintext k) (keyId k) (overrideKey k)
          v (collectionVersion k) (owner k) (props k) (data k).
Definition set_collectionVersion {D} (v : string) (k : t D) : t D :=
  Build_t (id k) (type k) (db k) (plaintext k) (keyId k) (overrideKey k)
          (version k) v (owner k) (props k) (data k).
Definition set_owner {D} (v : option string) (k : t D) : t D :=
  Build_t (id k) (type k) (db k) (plaintext k) (keyId k) (overrideKey k)
          (version k) (collectionVersion k) v (props k) (data k).
Definition set_props {D} (v : Props) (k : t D) : t D :=
  Build_t (id k) (type k) (db k) (plaintext k) (keyId k) (overrideKey k)
          (version k) (collectionVersion k) (owner k) v (data k).
Definition set_data {D} (v : D) (k : t D) : t D :=
  Build_t (id k) (type k) (db k) (plaintext k) (keyId k) (overrideKey k)
          (version k) (collectionVersion k) (owner k) (props k) v.

(** [new Keg(id, type, db, plaintext)]. The constructor's numeric
    placeholder [collectionVersion = 0] is written as the string the
    server would send for it. *)
Definition new {D} (i : option string) (ty : string) (d : KegDb)
           (plain : bool) (d0 : D) : t D :=
  Build_t i ty d plain 0 None 0 "0" None ∅ d0.

(** [get isEmpty()] *)
Definition isEmpty {D} (k : t D) : bool := version k =? 1.

(** The methods a keg class overrides. A method that throws returns
    [Throw]; what it had assigned before throwing is not kept. *)
Class Methods (D P : Type) := {
  serializeKegPayload : t D -> result P;
  deserializeKegPayload : P -> t D -> result (t D);
  serializeProps : t D -> result Props;
  deserializeProps : Props -> t D -> t D
}.

(** The base class: empty payload, props kept as they are. *)
Definition base_methods {D} : Methods D unit := {|
  serializeKegPayload := fun _ => Ok tt;
  deserializeKegPayload := fun _ k => Ok k;
  serializeProps := fun k => Ok (props k);
  deserializeProps := fun p k => set_props p k
|}.

(** [crypto/secret] and [JSON], which the module only calls. *)
Class Codec (P : Type) := {
  encryptString : string -> Key -> result string;
  decryptString : Wire -> Key -> result string;
  JSON_stringify : Payload P -> result string;
  JSON_parse : Wire -> result (Payload P)
}.

(** [this.overrideKey || this.db.key] *)
Definition keyOf {D} (k : t D) : Key :=
  match overrideKey k with
  | Some key => key
  | None => db_key (db k)
  end.

Section Hydrate.
Context {D P : Type} `{Methods D P} `{Codec P}.
Local Open Scope js_scope.

(** [detectTampering(payload)] *)
Definition detectTampering (payload : Payload P) : M (t D) unit :=
  let* this := get in
  match sys payload with
  | None => throw TypeError
  | Some h =>
      if negb (JS.strict_eq (sys_kegId h) (id this)) then
        throw (AntiTamperError TamperKegId (default "" (sys_kegId h))
                               (default "" (id this)))
      else if negb (String.eqb (sys_type h) (type this)) then
        throw (AntiTamperError TamperType (sys_type h) (type this))
      else ret tt
  end.

(** [loadFromKeg(keg)] *)
Definition loadFromKeg (keg : Raw) : M (t D) unit :=
  let* this := get in
  if (JS.truthy (id this) && negb (JS.strict_eq (id this) (Some (kegId keg))))%bool
  then throw (RehydrateError (default "" (id this)) (kegId keg))
  else
    modify (set_id (Some (kegId keg))) ;;;
    modify (set_version (r_version keg)) ;;;
    modify (set_owner (Some (r_owner keg))) ;;;
    modify (set_collectionVersion (r_collectionVersion keg)) ;;;
    if negb (wire_truthy (r_payload keg)) then ret tt
    else
      let wire := default (WString "") (r_payload keg) in
      let* this := get in
      let* text := (if negb (plaintext this)
                    then let* s := lift (decryptString wire (keyOf this)) in
                         ret (WString s)
                    else ret wire) in
      let* payload := lift (JSON_parse text) in
      (if negb (plaintext this) then detectTampering payload else ret tt) ;;;
      let* this := get in
      let* this' := lift (deserializeKegPayload (fields payload) this) in
      modify (fun _ => deserializeProps (r_props keg) this').
End Hydrate.

(** What [socket.send] answers to the two requests a save makes. A
    rejected promise is [Throw]. *)
Record CreateResp := {
  c_kegId : string;
  c_version : Z;
  c_collectionVersion : string
}.

Record UpdateResp := { u_collectionVersion : string }.

Record UpdateReq := {
  q_collectionId : string;
  q_kegId : option string;
  q_keyId : string;
  q_type : string;
  q_payload : Wire;
  q_props : Props;
  q_version : Z
}.

Record Socket := {
  send_create : string -> string -> result CreateResp;   (* /auth/kegs/create *)
  send_update : UpdateReq -> result UpdateResp           (* /auth/kegs/update *)
}.

Section Save.
Context {D P : Type} `{Methods D P} `{Codec P}.
Local Open Scope js_scope.

(** The [try] block of [_internalSave]: payload and props ready to
    send, or the error caught. It assigns no field of the keg. *)
Definition prepare (this : t D) : result (Wire * Props) :=
  match serializeKegPayload this with
  | Throw e => Throw e
  | Ok p =>
      let payload :=
        if negb (plaintext this)
        then Build_Payload (Some (Build_Sys (id this) (type this))) p
        else Build_Payload None p in
      match JSON_stringify payload with
      | Throw e => Throw e
      | Ok text =>
          let wire :=
            if negb (plaintext this)
            then match encryptString text (keyOf this) with
                 | Ok b => Ok (WBinary b)
                 | Throw e => Throw e
                 end
            else Ok (WString text) in
          match wire with
          | Throw e => Throw e
          | Ok w =>
              match serializeProps this with
              | Throw e => Throw e
              | Ok props => Ok (w, props)
              end
          end
      end
  end.

(** [_internalSave()] *)
Definition _internalSave (socket : Socket) : M (t D) unit :=
  let* this := get in
  match prepare this with
  | Throw err => throw err
  | Ok (payload, props) =>
      modify (set_version (version this + 1)) ;;;
      let* this := get in
      let* resp := lift (send_update socket
                           {| q_collectionId := db_id (db this);
                              q_kegId := id this;
                              q_keyId := "0";
                              q_type := type this;
                              q_payload := payload;
                              q_props := props;
                              q_version := version this |}) in
      modify (set_collectionVersion (u_collectionVersion resp))
  end.

(** [saveToServer()] *)
Definition saveToServer (socket : Socket) : M (t D) unit :=
  let* this := get in
  if JS.truthy (id this) then _internalSave socket
  else
    let* resp := lift (send_create socket (db_id (db this)) (type this)) in
    modify (set_id (Some (c_kegId resp))) ;;;
    modify (set_version (c_version resp)) ;;;
    modify (set_collectionVersion (c_collectionVersion resp)) ;;;
    _internalSave socket.

(** One save after the other on the same keg, each with the answers
    the network gives to it. The trace records, per call, the keg
    before, the socket, the keg after and the outcome. *)
Record Call := {
  before : t D;
  net : Socket;
  after : t D;
  outcome : result unit
}.

Fixpoint saves (sockets : list Socket) (k : t D) : list Call :=
  match sockets with
  | [] => []
  | s :: rest =>
      let '(k', r) := saveToServer s k in
      {| before := k; net := s; after := k'; outcome := r |} :: saves rest k'
  end.

(** Versions the keg holds right after its successful saves. *)
Definition saved_versions (tr : list Call) : list Z :=
  map (fun c => version (after c)) (filter (fun c => is_ok (outcome c) = true) tr).

End Save.

End Keg.

(** ** Files and the file store (models/files/file-store-base.js) *)

Module FileStore.
Import Keg.

(** Fields [File] adds to [Keg]. *)
Record FileData := {
  fileId : option string;
  name : string;
  format : Z;
  migrating : bool;
  blobKey : string;
  descriptorKey : option string;
  fileOwner : string;
  selected : bool;
  show : bool
}.

Definition File := Keg.t FileData.

Definition set_fileId (v : option string) (d : FileData) : FileData :=
  {| fileId := v; name := name d; format := format d; migrating := migrating d;
     blobKey := blobKey d; descriptorKey := descriptorKey d;
     fileOwner := fileOwner d; selected := selected d; show := show d |}.
Definition set_name (v : string) (d : FileData) : FileData :=
  {| fileId := fileId d; name := v; format := format d; migrating := migrating d;
     blobKey := blobKey d; descriptorKey := descriptorKey d;
     fileOwner := fileOwner d; selected := selected d; show := show d |}.
Definition set_format (v : Z) (d : FileData) : FileData :=
  {| fileId := fileId d; name := name d; format := v; migrating := migrating d;
     blobKey := blobKey d; descriptorKey := descriptorKey d;
     fileOwner := fileOwner d; selected := selected d; show := show d |}.
Definition set_migrating (v : bool) (d : FileData) : FileData :=
  {| fileId := fileId d; name := name d; format := format d; migrating := v;
     blobKey := blobKey d; descriptorKey := descriptorKey d;
     fileOwner := fileOwner d; selected := selected d; show := show d |}.
Definition set_descriptorKey (v : option string) (d : FileData) : FileData :=
  {| fileId := fileId d; name := name d; format := format d; migrating := migrating d;
     blobKey := blobKey d; descriptorKey := v;
     fileOwner := fileOwner d; selected := selected d; show := show d |}.

Definition fid (f : File) : option string := fileId (data f).

(** The payload fields of a file keg that the store looks at. *)
Record FilePayload := { p_name : string; p_key : string }.

(** Modelled from the spec: models/files/file.js is not among the
    sources. A File is a Keg plus the derived fields; its logical
    [fileId] is read from the unencrypted props of the record, its name
    and blob key from the payload. *)
#[export] Instance file_methods : Methods FileData FilePayload := {|
  serializeKegPayload := fun k =>
    Ok {| p_name := name (data k); p_key := blobKey (data k) |};
  deserializeKegPayload := fun p k =>
    Ok (set_data {| fileId := fileId (data k); name := p_name p;
                    format := format (data k); migrating := migrating (data k);
                    blobKey := p_key p; descriptorKey := descriptorKey (data k);
                    fileOwner := fileOwner (data k); selected := selected (data k);
                    show := show (data k) |} k);
  serializeProps := fun k =>
    Ok (match fileId (data k) with
        | Some i => <["fileId" := i]> (props k)
        | None => props k
        end);
  deserializeProps := fun p k =>
    set_data (set_fileId (p !! "fileId") (data k)) (set_props p k)
|}.

(** Modelled from the spec: [new File(db, store)], an encrypted keg of
    type 'file' without id. *)
Definition newFile (d : KegDb) : File :=
  Keg.new None "file" d false
    {| fileId := None; name := ""; format := 0; migrating := false;
       blobKey := ""; descriptorKey := None; fileOwner := "";
       selected := false; show := true |}.

Section Store.
Context `{Codec FilePayload}.

(** Modelled from the spec: [File.loadFromKeg] hydrates as
    [Keg.loadFromKeg] does and answers a falsy value where that one
    throws ("skip (log, do not throw) records that fail hydration");
    the file keeps what the hydration had assigned before failing. *)
Definition File_loadFromKeg (keg : Raw) (f : File) : File * bool :=
  match Keg.loadFromKeg keg f with
  | (f', Ok _) => (f', true)
  | (f', Throw _) => (f', false)
  end.

(** Filter of a list request. *)
Inductive Filter :=
| FilterNone
| FilterFlags (deleted hidden : bool)
| FilterMinCollectionVersion (v : string).

(** Arguments of '/auth/kegs/db/list-ext'. *)
Record ListReq := {
  lr_kegDbId : string;
  lr_type : string;
  lr_reverse : bool;
  lr_fromKegId : option string;
  lr_count : Z;
  lr_filter : Filter
}.

(** What a store does to the outside, oldest first. *)
Inductive Effect :=
| SendList (rq : ListReq)               (* sent for the first time *)
| ResendList (rq : ListReq)             (* sent again by retryUntilSuccess *)
| SendDelete (kegId : option string)
| InitialFileAdded (kegId : string)
| OnDisconnectHook
| SubscribeDigest                       (* tracker.onUpdated(onFileDigestUpdate) *)
| ScheduleDigestCheck                   (* setTimeout(onFileDigestUpdate) *)
| SeenThis (updateId : string)          (* tracker.seenThis *)
| AfterUpdate (dirty : bool).

Record t := {
  kegDb : KegDb;
  files : list File;
  loading : bool;
  loaded : bool;
  paused : bool;
  updating : bool;
  updatedAfterReconnect : bool;
  maxUpdateId : string;
  knownUpdateId : string;
  awaitingPage : bool;     (* loadAllFiles is suspended on _loadPage *)
  pageFrom : option string; (* [fromKegId] of the page request in flight *)
  cycleMaxId : string;     (* [maxId] captured by the update cycle in flight *)
  effects : list Effect
}.

Definition with_files (v : list File) (s : t) : t :=
  {| kegDb := kegDb s; files := v; loading := loading s; loaded := loaded s;
     paused := paused s; updating := updating s;
     updatedAfterReconnect := updatedAfterReconnect s;
     maxUpdateId := maxUpdateId s; knownUpdateId := knownUpdateId s;
     awaitingPage := awaitingPage s; pageFrom := pageFrom s;
     cycleMaxId := cycleMaxId s; effects := effects s |}.
Definition with_flags (ld lded ps up uar aw : bool) (s : t) : t :=
  {| kegDb := kegDb s; files := files s; loading := ld; loaded := lded;
     paused := ps; updating := up; updatedAfterReconnect := uar;
     maxUpdateId := maxUpdateId s; knownUpdateId := knownUpdateId s;
     awaitingPage := aw; pageFrom := pageFrom s;
     cycleMaxId := cycleMaxId s; effects := effects s |}.
Definition with_loading (v : bool) (s : t) : t :=
  with_flags v (loaded s) (paused s) (updating s) (updatedAfterReconnect s)
             (awaitingPage s) s.
Definition with_loaded (v : bool) (s : t) : t :=
  with_flags (loading s) v (paused s) (updating s) (updatedAfterReconnect s)
             (awaitingPage s) s.
Definition with_paused (v : bool) (s : t) : t :=
  with_flags (loading s) (loaded s) v (updating s) (updatedAfterReconnect s)
             (awaitingPage s) s.
Definition with_updating (v : bool) (s : t) : t :=
  with_flags (loading s) (loaded s) (paused s) v (updatedAfterReconnect s)
             (awaitingPage s) s.
Definition with_updatedAfterReconnect (v : bool) (s : t) : t :=
  with_flags (loading s) (loaded s) (paused s) (updating s) v
             (awaitingPage s) s.
Definition with_awaitingPage (v : bool) (s : t) : t :=
  with_flags (loading s) (loaded s) (paused s) (updating s)
             (updatedAfterReconnect s) v s.
Definition with_maxUpdateId (v : string) (s : t) : t :=
  {| kegDb := kegDb s; files := files s; loading := loading s; loaded := loaded s;
     paused := paused s; updating := updating s;
     updatedAfterReconnect := updatedAfterReconnect s;
     maxUpdateId := v; knownUpdateId := knownUpdateId s;
     awaitingPage := awaitingPage s; pageFrom := pageFrom s;
     cycleMaxId := cycleMaxId s; effects := effects s |}.
Definition with_knownUpdateId (v : string) (s : t) : t :=
  {| kegDb := kegDb s; files := files s; loading := loading s; loaded := loaded s;
     paused := paused s; updating := updating s;
     updatedAfterReconnect := updatedAfterReconnect s;
     maxUpdateId := maxUpdateId s; knownUpdateId := v;
     awaitingPage := awaitingPage s; pageFrom := pageFrom s;
     cycleMaxId := cycleMaxId s; effects := effects s |}.
Definition with_cycleMaxId (v : string) (s : t) : t :=
  {| kegDb := kegDb s; files := files s; loading := loading s; loaded := loaded s;
     paused := paused s; updating := updating s;
     updatedAfterReconnect := updatedAfterReconnect s;
     maxUpdateId := maxUpdateId s; knownUpdateId := knownUpdateId s;
     awaitingPage := awaitingPage s; pageFrom := pageFrom s;
     cycleMaxId := v; effects := effects s |}.
Definition emit (e : Effect) (s : t) : t :=
  {| kegDb := kegDb s; files := files s; loading := loading s; loaded := loaded s;
     paused := paused s; updating := updating s;
     updatedAfterReconnect := updatedAfterReconnect s;
     maxUpdateId := maxUpdateId s; knownUpdateId := knownUpdateId s;
     awaitingPage := awaitingPage s; pageFrom := pageFrom s;
     cycleMaxId := cycleMaxId s;
     effects := effects s ++ [e] |}.

Definition with_pageFrom (v : option string) (s : t) : t :=
  {| kegDb := kegDb s; files := files s; loading := loading s; loaded := loaded s;
     paused := paused s; updating := updating s;
     updatedAfterReconnect := updatedAfterReconnect s;
     maxUpdateId := maxUpdateId s; knownUpdateId := knownUpdateId s;
     awaitingPage := awaitingPage s; pageFrom := v;
     cycleMaxId := cycleMaxId s; effects := effects s |}.

(** A store right after its constructor. *)
Definition create (d : KegDb) : t :=
  {| kegDb := d; files := []; loading := false; loaded := false;
     paused := false; updating := false; updatedAfterReconnect := true;
     maxUpdateId := ""; knownUpdateId := "";
     awaitingPage := false; pageFrom := None;
     cycleMaxId := ""; effects := [] |}.

(** Position of the first element that satisfies [p]
    ([Array.prototype.find], with the position standing for the
    object found). *)
Fixpoint find_index {A} (p : A -> bool) (l : list A) : option nat :=
  match l with
  | [] => None
  | x :: r => if p x then Some 0%nat else S <$> find_index p r
  end.

(** Modelled from the spec: helpers/dynamic-array-map.js is not among
    the sources; [getById] looks the fileId up among the files in
    memory ("restricted to the in-memory set"). *)
Definition getById (i : option string) (s : t) : option nat :=
  match i with
  | None => None
  | Some x => find_index (fun f => JS.strict_eq (fid f) (Some x)) (files s)
  end.

(** [getByKegId(kegId)] *)
Definition getByKegId (k : string) (s : t) : option nat :=
  find_index (fun f => JS.strict_eq (Keg.id f) (Some k)) (files s).

(** The request [_loadPage(fromKegId)] sends. *)
Definition pageRequest (fromKegId : option string) (s : t) : ListReq :=
  {| lr_kegDbId := db_id (kegDb s);
     lr_type := "file";
     lr_reverse := false;
     lr_fromKegId := fromKegId;
     lr_count := 50;
     lr_filter := FilterFlags false false |}.

(** The request [_getFiles()] sends. *)
Definition updateRequest (s : t) : ListReq :=
  {| lr_kegDbId := db_id (kegDb s);
     lr_type := "file";
     lr_reverse := false;
     lr_fromKegId := None;
     lr_count := 50;
     lr_filter := if negb (String.eqb (knownUpdateId s) "")
                  then FilterMinCollectionVersion (knownUpdateId s)
                  else FilterNone |}.

(** Body of the [for] loop of [_loadPage], for one record. *)
Definition loadPage_record (keg : Raw) (s : t) : t :=
  if (r_deleted keg || r_hidden keg)%bool then s
  else
    let file := newFile (kegDb s) in
    let s := if JS.gt (r_collectionVersion keg) (maxUpdateId s)
             then with_maxUpdateId (r_collectionVersion keg) s else s in
    let s := if JS.gt (r_collectionVersion keg) (knownUpdateId s)
             then with_knownUpdateId (r_collectionVersion keg) s else s in
    let '(file, ok) := File_loadFromKeg keg file in
    if ok then
      if negb (JS.truthy (fid file)) then s
      else if bool_decide (is_Some (getById (fid file) s)) then s
      else
        let s := with_files (file :: files s) s in
        if negb (loaded s) then emit (InitialFileAdded (kegId keg)) s else s
    else
      if (r_decryptionError keg && String.eqb (r_type keg) "file"
          && (r_format keg =? 0))%bool
      then emit (SendDelete (Keg.id file)) s
      else s.

(** What the promise of [_loadPage] resolves to. *)
Record PageInfo := { size : nat; maxId : option string }.

(** The [then] callback of [_loadPage]. *)
Definition loadPage_then (kegs : list Raw) (s : t) : t * PageInfo :=
  let s := fold_left (fun s keg => loadPage_record keg s) kegs s in
  (s, {| size := length kegs;
         maxId := match kegs with
                  | k0 :: _ => Some (kegId k0)
                  | [] => None
                  end |}).

(** [_finishLoading()] *)
Definition _finishLoading (s : t) : t :=
  let s := with_loading false s in
  let s := with_loaded true s in
  let s := emit OnDisconnectHook s in
  let s := emit SubscribeDigest s in
  let s := emit ScheduleDigestCheck s in
  emit (SeenThis (knownUpdateId s)) s.

(** [loadAllFiles()] up to its first [await]. *)
Definition loadAllFiles (s : t) : t :=
  if (loading s || loaded s)%bool then s
  else
    let s := with_loading true s in
    with_awaitingPage true
      (with_pageFrom (Some "999") (emit (SendList (pageRequest (Some "999") s)) s)).

(** [loadAllFiles()] resumed by the answer to its page request: the
    rest of the [do ... while (lastPage.size > 0)] loop. *)
Definition loadAllFiles_resume (kegs : list Raw) (s : t) : t :=
  if negb (awaitingPage s) then s
  else
    let '(s, lastPage) := loadPage_then kegs s in
    if (0 <? size lastPage)%nat
    then with_pageFrom (maxId lastPage)
           (emit (SendList (pageRequest (maxId lastPage) s)) s)
    else _finishLoading (with_awaitingPage false s).

(** Modelled from the spec: helpers/retry.js is not among the sources.
    When the page request in flight is rejected, [retryUntilSuccess] runs
    its function again ("retried"), which sends the same request. *)
Definition loadPage_retry (s : t) : t :=
  if negb (awaitingPage s) then s
  else emit (ResendList (pageRequest (pageFrom s) s)) s.

(** Body of the [for] loop of [updateFiles], for one record; [dirty]
    is threaded through. *)
Definition updateFiles_record (keg : Raw) (sd : t * bool) : t * bool :=
  let '(s, dirty) := sd in
  let s := if JS.gt (r_collectionVersion keg) (knownUpdateId s)
           then with_knownUpdateId (r_collectionVersion keg) s else s in
  if (negb (JS.truthy (r_props keg !! "fileId")) && negb (r_deleted keg))%bool
  then (s, dirty)
  else
    let existing :=
      match getById (r_props keg !! "fileId") s with
      | Some i => Some i
      | None => getByKegId (kegId keg) s
      end in
    if (r_deleted keg || r_hidden keg)%bool then
      match existing with
      | Some i => (with_files (delete i (files s)) s, dirty)
      | None => (s, dirty)
      end
    else
      match existing with
      | Some i =>
          match files s !! i with
          | Some file =>
              let '(file, _) := File_loadFromKeg keg file in
              (with_files (<[i := file]> (files s)) s, dirty)
          | None => (s, dirty)
          end
      | None =>
          let '(file, ok) := File_loadFromKeg keg (newFile (kegDb s)) in
          if (negb ok || Keg.isEmpty file)%bool then (s, dirty)
          else (with_files (file :: files s) s, true)
      end.

(** [updateFiles()] up to the request. *)
Definition updateFiles (s : t) : t :=
  if (negb (loaded s) || updating s
      || String.eqb (knownUpdateId s) (maxUpdateId s))%bool
  then s
  else
    let s := with_cycleMaxId (maxUpdateId s) s in
    let s := with_updating true s in
    emit (SendList (updateRequest s)) s.

(** The [then] callback of [updateFiles]. *)
Definition updateFiles_then (kegs : list Raw) (s : t) : t :=
  if negb (updating s) then s
  else
    let '(s, dirty) := fold_left (fun sd keg => updateFiles_record keg sd)
                                 kegs (s, false) in
    let s := with_updating false s in
    let s := if JS.lt (knownUpdateId s) (cycleMaxId s)
             then with_knownUpdateId (cycleMaxId s) s else s in
    let s := emit ScheduleDigestCheck s in
    let s := with_updatedAfterReconnect true s in
    let s := emit (SeenThis (knownUpdateId s)) s in
    emit (AfterUpdate dirty) s.

(** Modelled from the spec: helpers/retry.js is not among the sources.
    When the request of the update cycle in flight is rejected,
    [retryUntilSuccess] runs its function again, which calls [_getFiles()]
    again. *)
Definition updateFiles_retry (s : t) : t :=
  if negb (updating s) then s
  else emit (ResendList (updateRequest s)) s.

(** [onFileDigestUpdate], with the [maxUpdateId] the tracker's digest
    holds when it runs. *)
Definition onFileDigestUpdate (digestMax : string) (s : t) : t :=
  if paused s then s
  else if (loaded s && String.eqb digestMax (maxUpdateId s))%bool
  then with_updatedAfterReconnect true s
  else updateFiles (with_maxUpdateId digestMax s).

(** [pause()] and [resume()] *)
Definition pause (s : t) : t := with_paused true s.
Definition resume (s : t) : t :=
  if negb (paused s) then s
  else emit ScheduleDigestCheck (with_paused false s).

(** What happens to a store: calls from the application, runs of the
    digest reaction, answers of the server to the request in flight and
    rejections of it that [retryUntilSuccess] answers by sending again.
    (When [retryUntilSuccess] gives up depends on retry.js; a request it
    gives up is never answered, and nothing more happens to it here.) *)
Inductive Event :=
| CallLoadAllFiles
| PageResponse (kegs : list Raw)
| DigestUpdate (digestMax : string)
| UpdateResponse (kegs : list Raw)
| CallPause
| CallResume
| PageRejected
| UpdateRejected.

Definition step (s : t) (e : Event) : t :=
  match e with
  | CallLoadAllFiles => loadAllFiles s
  | PageResponse kegs => loadAllFiles_resume kegs s
  | DigestUpdate m => onFileDigestUpdate m s
  | UpdateResponse kegs => updateFiles_then kegs s
  | CallPause => pause s
  | CallResume => resume s
  | PageRejected => loadPage_retry s
  | UpdateRejected => updateFiles_retry s
  end.

Definition run (s : t) (es : list Event) : t := fold_left step es s.

End Store.
End FileStore.

(** ** Descriptor migration (FileStore.onFileAdded) *)

Module Migration.
Import Keg FileStore.

(** Modelled from the spec: helpers/retry.js is not among the sources.
    [retryUntilSuccess(fn, {maxRetries})] runs [fn]; when it rejects it
    runs it again, at most [maxRetries] more times ("retried up to a
    bounded count"), and rejects with the last error once the bound is
    used up. [n] numbers the attempt. *)
Fixpoint retryUntilSuccess {St} (fn : nat -> M St unit) (maxRetries : nat)
         (n : nat) : M St unit :=
  fun s =>
    match fn n s with
    | (s', Ok a) => (s', Ok a)
    | (s', Throw e) =>
        match maxRetries with
        | O => (s', Throw e)
        | S r => retryUntilSuccess fn r (S n) s'
        end
    end.

(** [promise.catch(handler)] *)
Definition catch {St A} (m : M St A) (handler : Error -> M St A) : M St A :=
  fun s =>
    match m s with
    | (s', Ok a) => (s', Ok a)
    | (s', Throw e) => handler e s'
    end.

(** What [onFileAdded] reads from outside the store:
    [User.current.username], [file.latestFormat],
    [serverErrorCodes.malformedRequest], and the answers to the requests
    of the file.

    Modelled from the spec: models/files/file.js is not among the
    sources. [file.createDescriptor()] and [file.saveToServer()] are
    requests; what the n-th attempt of each answers is given, and
    neither assigns [format] or [migrating] or another field of the
    file's own. What a save does to the keg's id, version and
    collectionVersion ([Keg.saveToServer]) is not followed here: of a
    file after [onFileAdded] only its own fields are meant. *)
Record Env := {
  username : string;
  latestFormat : Z;
  malformedRequest : Z;
  createDescriptor : nat -> result unit;
  saveToServer : nat -> result unit
}.

Section OnFileAdded.
Variable env : Env.

Local Open Scope js_scope.

Definition on_data (f : FileData -> FileData) : M File unit :=
  modify (fun file => set_data (f (data file)) file).

(** One run of the function handed to [retryUntilSuccess] in the
    owner's branch. *)
Definition migrateAttempt (keg : Raw) (n : nat) : M File unit :=
  catch
    ((if JS.truthy (r_props keg !! "descriptor")
      then ret tt
      else lift (createDescriptor env n)) ;;;
     lift (saveToServer env n) ;;;
     on_data (set_migrating false))
    (fun err =>
       match err with
       | ServerError code =>
           if code =? malformedRequest env
           then on_data (set_migrating false) ;;; ret tt
           else throw err
       | _ => throw err
       end).

(** The task the owner's branch queues on [migrationQueue]. *)
Definition migrationTask (keg : Raw) : M File unit :=
  catch
    (retryUntilSuccess (migrateAttempt keg) 10 0)
    (fun err =>
       on_data (set_format 0) ;;;
       on_data (set_migrating false)).

(** [onFileAdded(keg, file)], with the queued task run to its end. *)
Definition onFileAdded (keg : Raw) : M File unit :=
  let* file := get in
  if format (data file) =? 0 then
    if String.eqb (fileOwner (data file)) (username env) then
      on_data (set_migrating true) ;;;
      on_data (set_format (latestFormat env)) ;;;
      on_data (fun d => set_descriptorKey (Some (blobKey d)) d) ;;;
      migrationTask keg
    else if JS.truthy (r_props keg !! "descriptor") then
      on_data (set_format (latestFormat env)) ;;;
      on_data (fun d => set_descriptorKey (Some (blobKey d)) d) ;;;
      retryUntilSuccess (fun n => lift (saveToServer env n)) 2 0
    else ret tt
  else ret tt.

(** How one attempt of the owner's migration ends, read off the
    answers of its requests. *)
Inductive Outcome := Saved | Conflict | Failed.

Definition classify (r : result unit) : Outcome :=
  match r with
  | Ok _ => Saved
  | Throw (ServerError code) =>
      if code =? malformedRequest env then Conflict else Failed
  | Throw _ => Failed
  end.

Definition attemptOutcome (keg : Raw) (n : nat) : Outcome :=
  if JS.truthy (r_props keg !! "descriptor") then classify (saveToServer env n)
  else match createDescriptor env n with
       | Ok _ => classify (saveToServer env n)
       | r => classify r
       end.

End OnFileAdded.
End Migration.

(** ** Folders (models/files/file-store.folders.js, abstract-folder.js) *)

Module Folders.

(** Folder objects live in a heap and are named by reference, so that
    the tree and the id map share them as the JavaScript objects do. *)
Definition Ref := nat.

Record Folder := {
  folderId : option string;
  name : option string;
  createdAt : Z;
  isDeleted : bool;
  files : list string;        (* fileIds attached *)
  folders : list Ref
}.

Record t := {
  heap : gmap Ref Folder;
  root : Ref;                              (* ROOT_FOLDER *)
  folderResolveMap : gmap string Ref;
  warnings : list string                   (* the warnings module *)
}.

Section WithLowering.
Context `{JS.Lowering}.

(** [get normalizedName()] *)
Definition normalizedName (f : Folder) : string :=
  if JS.truthy (name f) then JS.toLowerCase (default "" (name f)) else "".

(** [findFolderByName(name)] on the folder [target]. *)
Definition findFolderByName (h : gmap Ref Folder) (target : Folder)
           (nm : string) : option Ref :=
  let normalized := JS.toLowerCase nm in
  List.find (fun r => match h !! r with
                      | Some f => String.eqb (normalizedName f) normalized
                      | None => false
                      end)
            (folders target).

(** A reference not yet in the heap, for [new FileFolder(name)]. *)
Definition fresh (h : gmap Ref Folder) : Ref :=
  S (map_fold (fun r _ acc => Nat.max r acc) 0%nat h).

(** Modelled from the spec: file-folder.js and root-folder.js are not
    among the sources; [addFolder] appends the folder to the children
    of the target. *)
Definition addFolder (target child : Ref) (h : gmap Ref Folder) : gmap Ref Folder :=
  match h !! target with
  | Some f => <[target := {| folderId := folderId f; name := name f;
                              createdAt := createdAt f; isDeleted := isDeleted f;
                              files := files f;
                              folders := folders f ++ [child] |}]> h
  | None => h
  end.

(** [createFolder(name, parent)]; [randomId] is what
    [getRandomShortIdHex()] returns and [now] what [Date.now()] does. *)
Definition createFolder (nm : string) (parent : option Ref)
           (randomId : string) (now : Z) : M t Ref :=
  fun s =>
    let target := default (root s) parent in
    match heap s !! target with
    | None => (s, Throw TypeError)
    | Some tf =>
        match findFolderByName (heap s) tf nm with
        | Some _ =>
            ({| heap := heap s; root := root s;
                folderResolveMap := folderResolveMap s;
                warnings := warnings s ++ ["error_folderAlreadyExists"] |},
             Throw FolderExists)
        | None =>
            let r := fresh (heap s) in
            let folder := {| folderId := Some randomId; name := Some nm;
                             createdAt := now; isDeleted := false;
                             files := []; folders := [] |} in
            ({| heap := addFolder target r (<[r := folder]> (heap s));
                root := root s;
                folderResolveMap := <[randomId := r]> (folderResolveMap s);
                warnings := warnings s |},
             Ok r)
        end
    end.

(** The children of [target] carry a folder named like [nm], letter
    case apart: [toLowerCase] makes the same text of both names. *)
Definition hasSibling (s : t) (target : Ref) (nm : string) : Prop :=
  exists tf c f,
    heap s !! target = Some tf /\ c ∈ folders tf /\ heap s !! c = Some f /\
    normalizedName f = JS.toLowerCase nm.

End WithLowering.
End Folders.

(** ** Favorite and hidden chats (models/chats/my-chats.ts) *)

Module MyChats.

Record t := {
  favorites : list string;
  hiddenChats : list string
}.

(** [array.indexOf(value)], [None] for -1. *)
Fixpoint indexOf (array : list string) (value : string) : option nat :=
  match array with
  | [] => None
  | x :: r => if String.eqb x value then Some 0%nat else S <$> indexOf r value
  end.

(** [_add(array, value)]: the array after the call and the answer. *)
Definition _add (array : list string) (value : string) : list string * bool :=
  match indexOf array value with
  | Some _ => (array, false)
  | None => ((array ++ [value])%list, true)
  end.

(** [_remove(array, value)] *)
Definition _remove (array : list string) (value : string) : list string * bool :=
  match indexOf array value with
  | Some ind => (delete ind array, true)
  | None => (array, false)
  end.

Definition removeFavorite (chatId : string) (s : t) : t * bool :=
  let '(a, r) := _remove (favorites s) chatId in
  ({| favorites := a; hiddenChats := hiddenChats s |}, r).

Definition removeHidden (chatId : string) (s : t) : t * bool :=
  let '(a, r) := _remove (hiddenChats s) chatId in
  ({| favorites := favorites s; hiddenChats := a |}, r).

Definition addFavorite (chatId : string) (s : t) : t * bool :=
  let '(a, r) := _add (favorites s) chatId in
  let s := {| favorites := a; hiddenChats := hiddenChats s |} in
  if r then (fst (removeHidden chatId s), r) else (s, r).

Definition addHidden (chatId : string) (s : t) : t * bool :=
  let '(a, r) := _add (hiddenChats s) chatId in
  let s := {| favorites := favorites s; hiddenChats := a |} in
  if r then (fst (removeFavorite chatId s), r) else (s, r).

(** A fresh keg: both lists empty. *)
Definition empty : t := {| favorites := []; hiddenChats := [] |}.

Inductive Call :=
| AddFavorite (chatId : string)
| RemoveFavorite (chatId : string)
| AddHidden (chatId : string)
| RemoveHidden (chatId : string).

Definition call (s : t) (c : Call) : t :=
  match c with
  | AddFavorite i => fst (addFavorite i s)
  | RemoveFavorite i => fst (removeFavorite i s)
  | AddHidden i => fst (addHidden i s)
  | RemoveHidden i => fst (removeHidden i s)
  end.

Definition calls (cs : list Call) : t := fold_left call cs empty.

End MyChats.

(** ** Filter and selection of a store (file-store-base.js) *)

Module FileStoreView.
Import Keg FileStore.

(** The text [q] read literally, the case of the letters A to Z apart,
    at the start of [s] and anywhere in [s]. *)
Fixpoint prefix_ci (q s : string) : bool :=
  match q, s with
  | EmptyString, _ => true
  | String a q', String b s' =>
      (Ascii.eqb (JS.lower_ascii a) (JS.lower_ascii b) && prefix_ci q' s')%bool
  | String _ _, EmptyString => false
  end.

Fixpoint match_ascii (q s : string) : bool :=
  (prefix_ci q s
   || match s with
      | String _ s' => match_ascii q s'
      | EmptyString => false
      end)%bool.

(** [regex.test(name)] for the regular expression
    [new RegExp(_.escapeRegExp(query), 'i')], a built-in of the engine:
    the escaped query is matched literally at any position, letter case
    apart. For a query of ASCII characters that is [match_ascii], since
    the [i] flag never takes a character outside ASCII for one inside;
    which letters outside ASCII it takes for each other follows the
    Unicode tables of the engine and is left to the instance. *)
Class Matcher := {
  regex_test : string -> string -> bool;
  regex_test_ascii :
    forall q s, JS.ascii_only q = true -> regex_test q s = match_ascii q s
}.

Definition set_show (v : bool) (d : FileData) : FileData :=
  {| fileId := fileId d; name := name d; format := format d; migrating := migrating d;
     blobKey := blobKey d; descriptorKey := descriptorKey d;
     fileOwner := fileOwner d; selected := selected d; show := v |}.
Definition set_selected (v : bool) (d : FileData) : FileData :=
  {| fileId := fileId d; name := name d; format := format d; migrating := migrating d;
     blobKey := blobKey d; descriptorKey := descriptorKey d;
     fileOwner := fileOwner d; selected := v; show := show d |}.

Definition on_file (g : FileData -> FileData) (f : File) : File :=
  set_data (g (data f)) f.

(** A store that is not the main one ([isMainStore] unset, so that
    [allFiles] is [files]) together with its [currentFilter]. *)
Record t := {
  store : FileStore.t;
  currentFilter : string
}.

Section WithMatcher.
Context `{Matcher}.

(** Body of the loop of [filterByName], for one file. *)
Definition filter_file (query : string) (f : File) : File :=
  let f := on_file (set_show (regex_test query (name (data f)))) f in
  if negb (show (data f)) then on_file (set_selected false) f else f.

(** [filterByName(query)] *)
Definition filterByName (query : string) (v : t) : t :=
  {| store := with_files (List.map (filter_file query) (files (store v))) (store v);
     currentFilter := query |}.

End WithMatcher.

(** [clearFilter()] *)
Definition clearFilter (v : t) : t :=
  {| store := with_files (List.map (on_file (set_show true)) (files (store v)))
                         (store v);
     currentFilter := "" |}.

(** [get visibleFiles()] and [get selectedFiles()] *)
Definition visibleFiles (v : t) : list File :=
  List.filter (fun f => show (data f)) (files (store v)).
Definition selectedFiles (v : t) : list File :=
  List.filter (fun f => selected (data f)) (files (store v)).

(** [get hasSelectedFiles()], [get selectedCount()] *)
Definition hasSelectedFiles (v : t) : bool :=
  existsb (fun f => selected (data f)) (files (store v)).
Definition selectedCount (v : t) : nat := length (selectedFiles v).

(** [get allVisibleSelected()] *)
Fixpoint allVisibleSelected_from (l : list File) : bool :=
  match l with
  | [] => true
  | f :: r =>
      if negb (show (data f)) then allVisibleSelected_from r
      else if Bool.eqb (selected (data f)) false then false
           else allVisibleSelected_from r
  end.
Definition allVisibleSelected (v : t) : bool :=
  allVisibleSelected_from (files (store v)).

End FileStoreView.

(** ** Files cached per chat (file-store.ts, setChatFile) *)

Module ChatFiles.
Import Keg FileStore.

(** [chatFileMap]: per chat, the files by fileId (which may be
    undefined). *)
Definition t := gmap string (gmap (option string) File).

(** [setChatFile(kegDbId, file)] *)
Definition setChatFile (kegDbId : string) (file : File) (m : t) : t :=
  match m !! kegDbId with
  | None => <[kegDbId := {[ fid file := file ]}]> m
  | Some fileMap =>
      match fileMap !! fid file with
      | Some existing =>
          if Keg.version existing <? Keg.version file then m
          else <[kegDbId := <[fid file := file]> fileMap]> m
      | None => <[kegDbId := <[fid file := file]> fileMap]> m
      end
  end.

(** [updateCachedChatKeg(chatId, keg)] *)
Definition updateCachedChatKeg (chatId : string) (keg : File) (m : t) : t :=
  match m !! chatId with
  | None => m
  | Some _ => setChatFile chatId keg m
  end.

(** The file cached for a chat under a fileId, if any. *)
Definition cached (kegDbId : string) (i : option string) (m : t) : option File :=
  match m !! kegDbId with
  | Some fileMap => fileMap !! i
  | None => None
  end.

End ChatFiles.

(** ** Read receipts (models/chats/read-receipt) *)

Module ReadReceipt.

(** [String.prototype.endsWith] *)
Fixpoint endsWith (s suffix : string) : bool :=
  (String.eqb s suffix
   || match s with
      | String _ r => endsWith r suffix
      | EmptyString => false
      end)%bool.

(** The keg id the constructor gives a receipt: [read_receipt-<username>],
    or none without a username. *)
Definition receiptId (username : option string) : option string :=
  match username with
  | Some u => if negb (String.eqb u "") then Some ("read_receipt-" ++ u) else None
  | None => None
  end.

(** [new ReadReceipt(username, db)]; [receiptError] is the field the
    class adds. *)
Definition new (username : option string) (d : Keg.KegDb) : Keg.t bool :=
  Keg.new (receiptId username) "read_receipt" d false false.

(** [afterLoad()]: a keg without id has no [endsWith]; an owner that is
    undefined prints as 'undefined'. *)
Definition afterLoad (k : Keg.t bool) : result (Keg.t bool) :=
  match Keg.id k with
  | None => Throw TypeError
  | Some i =>
      Ok (Keg.set_data (negb (endsWith i ("-" ++ default "undefined" (Keg.owner k)))) k)
  end.

End ReadReceipt.

(** ** Random user names of the tests (helpers/random-data) *)

Module RandomData.

Definition usernameChars : string := "0123456789abcdefghijklmnopqrstuvwxyz".

(** [usernameChars[i]] as [+=] appends it: one character, or the text
    of [undefined] out of range (never reached below 36). *)
Definition charAt (i : nat) : string :=
  match String.get i usernameChars with
  | Some c => String c EmptyString
  | None => "undefined"
  end.

(** The loop of [getRandomUsername()]: [n] more characters; [rnd i] is
    [Math.floor(Math.random() * usernameChars.length)] at the i-th draw. *)
Fixpoint draw (rnd : nat -> nat) (i n : nat) (username : string) : string :=
  match n with
  | O => username
  | S n' => draw rnd (S i) n' (username ++ charAt (rnd i))
  end.

(** [getRandomUsername()] *)
Definition getRandomUsername (rnd : nat -> nat) : string := draw rnd 0 30 "".

End RandomData.

(** * What the properties speak of *)

(** ** Kegs *)

Section KegVocabulary.
Import Keg.
Context {D P : Type} `{Methods D P} `{Codec P}.

(** The record carries a payload that decrypts and parses to an object
    whose anti-tamper header names another keg id than the record's or
    another type than the keg's. *)
Definition tampered (k : Keg.t D) (r : Raw) : Prop :=
  plaintext k = false /\ wire_truthy (r_payload r) = true /\
  exists w text payload h,
    r_payload r = Some w /\
    decryptString w (keyOf k) = Ok text /\
    JSON_parse (WString text) = Ok payload /\
    sys payload = Some h /\
    (sys_kegId h <> Some (kegId r) \/ sys_type h <> type k).

(** Hydration throws the anti-tamper error and the keg is as before. *)
Definition rejected_untouched (k : Keg.t D) (r : Raw) : Prop :=
  exists what inner outer,
    loadFromKeg r k = (k, Throw (AntiTamperError what inner outer)).

(** The metadata [loadFromKeg] copies from the record before it looks
    at the payload. *)
Definition stamped (r : Raw) (k : Keg.t D) : Keg.t D :=
  set_collectionVersion (r_collectionVersion r)
    (set_owner (Some (r_owner r))
       (set_version (r_version r)
          (set_id (Some (kegId r)) k))).

(** The request [_internalSave] submits for the keg [k], given the
    prepared payload and props: it carries the keg's version plus one. *)
Definition updateOf (k : Keg.t D) (payload : Wire) (props : Props) : UpdateReq :=
  {| q_collectionId := db_id (db k);
     q_kegId := id k;
     q_keyId := "0";
     q_type := type k;
     q_payload := payload;
     q_props := props;
     q_version := version k + 1 |}.

(** The keg as the answer to the create request leaves it. *)
Definition created (r : CreateResp) (k : Keg.t D) : Keg.t D :=
  set_collectionVersion (c_collectionVersion r)
    (set_version (c_version r) (set_id (Some (c_kegId r)) k)).

(** The server answers a create request with a usable (non-empty) id. *)
Definition allocates (s : Socket) : Prop :=
  forall c ty r, send_create s c ty = Ok r -> JS.truthy (Some (c_kegId r)) = true.

(** What one successful call does to the version. *)
Definition bumps (c : @Call D) : Prop :=
  outcome c = Ok tt ->
  if JS.truthy (id (before c))
  then version (after c) = version (before c) + 1
  else exists r,
      send_create (net c) (db_id (db (before c))) (type (before c)) = Ok r /\
      version (after c) = c_version r + 1.

(** Every successful call raises the version by exactly 1 over what it
    was before the call. *)
Definition bumps_by_one (c : @Call D) : Prop :=
  outcome c = Ok tt -> version (after c) = version (before c) + 1.

End KegVocabulary.

(** ** The order of update ids *)

(** [a <= b] for update ids: JavaScript does not find [b < a]. *)
Definition jle (a b : string) : Prop := JS.lt b a = false.

(** The greater of two ids, as [if (c > a) a = c] leaves it in [a]. *)
Definition raise (a c : string) : string := if JS.gt c a then c else a.

(** The greatest of [a] and the ids [cvs], as the loop leaves it. *)
Definition newest (a : string) (cvs : list string) : string := fold_left raise cvs a.

(** ** The file store *)

Section StoreVocabulary.
Import Keg FileStore.
Context `{Codec FilePayload}.
Local Open Scope list_scope.

(** The list requests a store has sent so far, oldest first, each as
    it was sent for the first time (what [retryUntilSuccess] sent again
    after a rejection is logged apart). *)
Definition requests (s : FileStore.t) : list ListReq :=
  omap (fun e => match e with SendList rq => Some rq | _ => None end) (effects s).

(** What processing the records of a page leaves alone. *)
Definition same_control (s s' : FileStore.t) : Prop :=
  kegDb s' = kegDb s /\ loading s' = loading s /\ loaded s' = loaded s /\
  paused s' = paused s /\ updating s' = updating s /\
  awaitingPage s' = awaitingPage s /\ cycleMaxId s' = cycleMaxId s /\
  requests s' = requests s.

(** The keg id of the first record of a page, which the code hands to
    the next request under the name [maxId]. *)
Definition firstKegId (page : list Raw) : option string := kegId <$> head page.

(** The page request of a store on [d] that starts from [from]. *)
Definition pageRequestOf (d : KegDb) (from : option string) : ListReq :=
  pageRequest from (create d).

(** The shape every page request has. *)
Definition page_shaped (rq : ListReq) : Prop :=
  lr_type rq = "file" /\ lr_reverse rq = false /\ lr_count rq = 50 /\
  lr_filter rq = FilterFlags false false.

(** Everything but the files and [knownUpdateId] is out of reach of the
    record loop of an update cycle. *)
Definition same_but_files (s s' : FileStore.t) : Prop :=
  kegDb s' = kegDb s /\ loading s' = loading s /\ loaded s' = loaded s /\
  paused s' = paused s /\ updating s' = updating s /\
  awaitingPage s' = awaitingPage s /\ cycleMaxId s' = cycleMaxId s /\
  maxUpdateId s' = maxUpdateId s /\ effects s' = effects s.

(** The digest never reports less than the store has as [maxUpdateId],
    and an update cycle is never answered with a record above it. *)
Definition orderly_event (s : FileStore.t) (e : Event) : Prop :=
  match e with
  | DigestUpdate m => jle (maxUpdateId s) m
  | UpdateResponse kegs =>
      Forall (fun keg => jle (r_collectionVersion keg) (maxUpdateId s)) kegs
  | _ => True
  end.

Fixpoint orderly (s : FileStore.t) (es : list Event) : Prop :=
  match es with
  | [] => True
  | e :: es => orderly_event s e /\ orderly (step s e) es
  end.

Definition caught (s : FileStore.t) : Prop :=
  jle (knownUpdateId s) (maxUpdateId s) /\
  (updating s = true -> jle (cycleMaxId s) (maxUpdateId s)).

(** Every file in memory has a non-empty fileId, and no two share one. *)
Definition wellkeyed (s : FileStore.t) : Prop :=
  Forall (fun f => JS.truthy (fid f) = true) (files s) /\
  NoDup (fid <$> files s).

(** A record without payload is a keg just created, at version 1. *)
Definition populated (keg : Raw) : Prop :=
  wire_truthy (r_payload keg) = false -> r_version keg = 1.

Definition populated_answers (e : Event) : Prop :=
  match e with
  | UpdateResponse kegs => Forall populated kegs
  | _ => True
  end.

(** A page record whose hydration fails, whose file has no fileId, or
    whose fileId is in the store already adds no file. *)
Definition page_skips (keg : Raw) (s : FileStore.t) : Prop :=
  let r := File_loadFromKeg keg (newFile (kegDb s)) in
  snd r = false \/ JS.truthy (fid (fst r)) = false \/
  is_Some (getById (fid (fst r)) s) ->
  files (loadPage_record keg s) = files s.

(** The same for a record of an update cycle: without fileId in its
    props, or failing to hydrate into a new file, it changes no file; with
    a fileId that is in the store it adds none, and unless it removes the
    file the fileIds in memory stay as they are. *)
Definition update_skips (keg : Raw) (s : FileStore.t) (dirty : bool) : Prop :=
  let pf := r_props keg !! "fileId" in
  let s' := fst (updateFiles_record keg (s, dirty)) in
  (r_deleted keg = false -> JS.truthy pf = false -> files s' = files s) /\
  (getById pf s = None -> getByKegId (kegId keg) s = None ->
   snd (File_loadFromKeg keg (newFile (kegDb s))) = false -> files s' = files s) /\
  (is_Some (getById pf s) ->
   (length (files s') <= length (files s))%nat /\
   ((r_deleted keg || r_hidden keg)%bool = false ->
    fid <$> files s' = fid <$> files s)).

(** The greatest keg id of a page, in the order of strings. *)
Definition maxKegId (page : list Raw) : option string :=
  match page with
  | [] => None
  | k :: rest => Some (newest (kegId k) (map kegId rest))
  end.

(** The records of a page come in ascending order of keg id. *)
Definition ascending (page : list Raw) : Prop :=
  StronglySorted (fun a b => JS.lt (kegId a) (kegId b) = true) page.

End StoreVocabulary.

(** ** Migration and chat lists *)

Section OtherVocabulary.
Import Keg FileStore MyChats.

(** The file with [migrating] cleared. *)
Definition settled (file : File) : File :=
  set_data (set_migrating false (data file)) file.

(** The invariant of the two lists. *)
Definition tidy (s : t) : Prop :=
  NoDup (favorites s) /\ NoDup (hiddenChats s) /\
  forall i, i ∈ favorites s -> i ∈ hiddenChats s -> False.

End OtherVocabulary.

(** ** A toy codec and concrete records, for the examples below *)

Module Example.
Import Keg FileStore.

(** Fields separated by a bar. *)
Fixpoint split_bar (s : string) : list string :=
  match s with
  | EmptyString => [EmptyString]
  | String c r =>
      if Ascii.eqb c "|"%char then EmptyString :: split_bar r
      else match split_bar r with
           | x :: xs => String c x :: xs
           | [] => [String c EmptyString]
           end
  end.

(** A cipher that hands the buffer back as text, whatever the key; the
    payload text is [kegId|type|name|key], or [name|key] without header. *)
#[export] Instance codec : Codec FilePayload := {|
  encryptString := fun text _ => Ok text;
  decryptString := fun w _ =>
    match w with
    | WBinary b => Ok b
    | WString _ => Throw DecryptError
    end;
  JSON_stringify := fun p =>
    Ok (match sys p with
        | Some h => default "" (sys_kegId h) ++ "|" ++ sys_type h ++ "|"
        | None => ""
        end ++ p_name (fields p) ++ "|" ++ p_key (fields p));
  JSON_parse := fun w =>
    match w with
    | WString s =>
        match split_bar s with
        | [k; ty; n; key] =>
            Ok {| sys := Some {| sys_kegId := Some k; sys_type := ty |};
                  fields := {| p_name := n; p_key := key |} |}
        | [n; key] => Ok {| sys := None; fields := {| p_name := n; p_key := key |} |}
        | _ => Throw SyntaxError
        end
    | WBinary _ => Throw SyntaxError
    end
|}.

Definition selfDb : KegDb := {| db_id := "SELF"; db_key := "k" |}.

(** A populated file record: keg [kid], logical id [fileid], update id [cv]. *)
Definition record (kid fileid cv : string) (ver : Z) : Raw :=
  {| kegId := kid; r_version := ver; r_owner := "alice";
     r_collectionVersion := cv;
     r_payload := Some (WBinary (kid ++ "|file|" ++ fileid ++ ".txt|blobkey"));
     r_props := {[ "fileId" := fileid ]};
     r_deleted := false; r_hidden := false; r_type := "file";
     r_format := 1; r_decryptionError := false |}.

(** The ciphertext of keg 7 served under keg id 8. *)
Definition swapped : Raw :=
  {| kegId := "8"; r_version := 5; r_owner := "mallory";
     r_collectionVersion := "41";
     r_payload := Some (WBinary "7|file|a.txt|blobkey");
     r_props := {[ "fileId" := "f7" ]};
     r_deleted := false; r_hidden := false; r_type := "file";
     r_format := 1; r_decryptionError := false |}.

(** A file keg already hydrated as keg 8, at version 4. *)
Definition file8 : File :=
  Keg.set_version 4 (Keg.set_id (Some "8") (newFile selfDb)).

(** A store that is loaded, idle and caught up at update id [v]. *)
Definition ready (v : string) : FileStore.t :=
  with_knownUpdateId v (with_maxUpdateId v (with_loaded true (create selfDb))).

(** A record that names a fileId in its props but has no payload,
    although it is at version 2. *)
Definition bare : Raw :=
  {| kegId := "1003"; r_version := 2; r_owner := "alice";
     r_collectionVersion := "5"; r_payload := None;
     r_props := {[ "fileId" := "f3" ]};
     r_deleted := false; r_hidden := false; r_type := "file";
     r_format := 1; r_decryptionError := false |}.

(** A legacy file (format 0) owned by alice. *)
Definition legacy : File :=
  Keg.set_data
    {| fileId := Some "f1"; name := "a.txt"; format := 0; migrating := false;
       blobKey := "blobkey"; descriptorKey := None; fileOwner := "alice";
       selected := false; show := true |}
    (Keg.set_version 3 (Keg.set_id (Some "1001") (newFile selfDb))).

(** Requests that fail twice and succeed from the third attempt on. *)
Definition flaky (n : nat) : result unit :=
  if (n <? 2)%nat then Throw (SocketError "timeout") else Ok tt.

Definition steady (n : nat) : result unit := Ok tt.

(** Alice's client: descriptors are created at once, saves are flaky. *)
Definition alice : Migration.Env :=
  {| Migration.username := "alice"; Migration.latestFormat := 1;
     Migration.malformedRequest := 406;
     Migration.createDescriptor := steady; Migration.saveToServer := flaky |}.

(** The same client while the server cannot be reached. *)
Definition alice_offline : Migration.Env :=
  {| Migration.username := "alice"; Migration.latestFormat := 1;
     Migration.malformedRequest := 406;
     Migration.createDescriptor := steady;
     Migration.saveToServer := fun _ => Throw (SocketError "timeout") |}.

(** An engine for the examples. Texts are in UTF-8; the capital letters
    it knows are A to Z and the Latin-1 letters À to Þ (the sign × apart),
    which UTF-8 writes as the byte 195 and a byte from 128 to 158. *)
Definition latin1_capital (c d : ascii) : bool :=
  (Nat.eqb (nat_of_ascii c) 195 && Nat.leb 128 (nat_of_ascii d)
   && Nat.leb (nat_of_ascii d) 158 && negb (Nat.eqb (nat_of_ascii d) 151))%bool.

Fixpoint lower_utf8 (s : string) : string :=
  match s with
  | EmptyString => EmptyString
  | String c r =>
      match r with
      | String d r' =>
          if latin1_capital c d
          then String c (String (ascii_of_nat (nat_of_ascii d + 32)) (lower_utf8 r'))
          else String (JS.lower_ascii c) (lower_utf8 r)
      | EmptyString => String (JS.lower_ascii c) EmptyString
      end
  end.

#[export, refine] Instance lowering : JS.Lowering :=
  {| JS.toLowerCase := lower_utf8 |}.
Proof.
  intros s. induction s as [|c r IH]; [reflexivity|].
  cbn [JS.ascii_only]. intros [Hc Hr]%andb_true_iff.
  apply Nat.ltb_lt in Hc. specialize (IH Hr).
  cbn [lower_utf8 JS.lower_ascii_text]. destruct r as [|d r'].
  - reflexivity.
  - unfold latin1_capital.
    destruct (Nat.eqb_spec (nat_of_ascii c) 195) as [E|_]; [lia|].
    cbn [andb]. by rewrite IH.
Defined.

(** The text [q] as it stands, at the start of [s] and anywhere in [s]. *)
Fixpoint prefix_exact (q s : string) : bool :=
  match q, s with
  | EmptyString, _ => true
  | String a q', String b s' => (Ascii.eqb a b && prefix_exact q' s')%bool
  | String _ _, EmptyString => false
  end.

Fixpoint match_exact (q s : string) : bool :=
  (prefix_exact q s
   || match s with
      | String _ s' => match_exact q s'
      | EmptyString => false
      end)%bool.

#[export, refine] Instance matcher : FileStoreView.Matcher :=
  {| FileStoreView.regex_test := fun q s =>
       if JS.ascii_only q then FileStoreView.match_ascii q s
       else match_exact (lower_utf8 q) (lower_utf8 s) |}.
Proof. intros q s Hq. by rewrite Hq. Defined.

(** A folder tree: the root with one folder "Docs" in it. *)
Definition docsTree : Folders.t :=
  {| Folders.heap :=
       {[ 0%nat := {| Folders.folderId := None; Folders.name := None;
                      Folders.createdAt := 0; Folders.isDeleted := false;
                      Folders.files := []; Folders.folders := [1%nat] |};
          1%nat := {| Folders.folderId := Some "a1b2"; Folders.name := Some "Docs";
                      Folders.createdAt := 1500000000000;
                      Folders.isDeleted := false;
                      Folders.files := []; Folders.folders := [] |} ]};
     Folders.root := 0%nat;
     Folders.folderResolveMap := {[ "a1b2" := 1%nat ]};
     Folders.warnings := [] |}.

(** The server creates kegs at version 1 and accepts every update. *)
Definition friendly : Socket :=
  {| send_create := fun _ _ =>
       Ok {| c_kegId := "100"; c_version := 1; c_collectionVersion := "17" |};
     send_update := fun _ => Ok {| u_collectionVersion := "18" |} |}.

(** The connection drops on every request. *)
Definition offline : Socket :=
  {| send_create := fun _ _ => Throw (SocketError "disconnected");
     send_update := fun _ => Throw (SocketError "disconnected") |}.

Local Open Scope list_scope.

(** A store is loaded with an empty list, hears of update id "6" and is
    answered with a record already at "7". *)
Definition overtaken : list Event :=
  [CallLoadAllFiles; PageResponse [];
   DigestUpdate "6"; UpdateResponse [record "1001" "f1" "7" 2]].

(** One page with a record at "03", the end of the list, then a digest
    at "07" answered with a record at "07". *)
Definition in_step : list Event :=
  [CallLoadAllFiles; PageResponse [record "1001" "f1" "03" 2]; PageResponse [];
   DigestUpdate "07"; UpdateResponse [record "1002" "f2" "07" 2]].

Definition page12 : list Raw :=
  [record "1001" "f1" "03" 2; record "1002" "f2" "07" 2].

Definition with_bare : list Event :=
  [CallLoadAllFiles; PageResponse []; DigestUpdate "5"; UpdateResponse [bare]].

End Example.

(** * More of what the properties speak of *)

Section MoreKegVocabulary.
Import Keg.
Context {D P : Type} `{Methods D P} `{Codec P}.

(** The keg has an id and the record is of another keg. *)
Definition mismatch (k : Keg.t D) (r : Raw) : bool :=
  (JS.truthy (id k) && negb (JS.strict_eq (id k) (Some (kegId r))))%bool.

(** The payload object an encrypted keg hands to [JSON.stringify]: the
    fields [p] under the header that names the keg. *)
Definition sealed (k : Keg.t D) (p : P) : Payload P :=
  Build_Payload (Some (Build_Sys (id k) (type k))) p.

End MoreKegVocabulary.

(** ** More concrete values *)

Module Sample.
Import Keg FileStore Example.

(** Keg 8 as the server stores it after keg 8 was saved. *)
Definition stored8 : Raw :=
  {| kegId := "8"; r_version := 5; r_owner := "alice";
     r_collectionVersion := "18";
     r_payload := Some (WBinary "8|file||");
     r_props := ∅;
     r_deleted := false; r_hidden := false; r_type := "file";
     r_format := 1; r_decryptionError := false |}.

(** A plaintext keg with id 8. *)
Definition plain8 : File :=
  Keg.new (Some "8") "note" selfDb true (data (newFile selfDb)).

(** A plaintext record of keg 8 whose text carries the header of keg 7. *)
Definition plainRecord : Raw :=
  {| kegId := "8"; r_version := 2; r_owner := "alice";
     r_collectionVersion := "19";
     r_payload := Some (WString "7|file|a.txt|blobkey");
     r_props := ∅;
     r_deleted := false; r_hidden := false; r_type := "note";
     r_format := 1; r_decryptionError := false |}.

End Sample.

Section MoreStoreVocabulary.
Import Keg FileStore.

(** A list request of an update cycle, as against one of the initial
    load: [_getFiles] never sends the deleted/hidden filter. *)
Definition is_update (rq : ListReq) : bool :=
  match lr_filter rq with
  | FilterFlags _ _ => false
  | _ => true
  end.

Definition updateRequests (s : FileStore.t) : list ListReq :=
  List.filter is_update (requests s).

Definition pageRequests (s : FileStore.t) : list ListReq :=
  List.filter (fun rq => negb (is_update rq)) (requests s).

(** The update cycles a store has finished: each ends with the call of
    [onAfterUpdate]. *)
Definition cyclesDone (s : FileStore.t) : nat :=
  length (List.filter (fun e => match e with AfterUpdate _ => true | _ => false end)
                      (effects s)).

(** The list requests [retryUntilSuccess] has sent again after a
    rejection, and those of update cycles among them. *)
Definition resends (s : FileStore.t) : list ListReq :=
  omap (fun e => match e with ResendList rq => Some rq | _ => None end) (effects s).

Definition updateResends (s : FileStore.t) : list ListReq :=
  List.filter is_update (resends s).

(** What holds of a store between events: updates wait for the initial
    load, which is over once the store is loaded; while a cycle is in
    flight its request is the one [_getFiles] would send now; and every
    update request sent again had been sent before. *)
Definition in_cycle (s : FileStore.t) : Prop :=
  (loaded s = false -> updating s = false) /\
  (awaitingPage s = true -> loaded s = false) /\
  (updating s = true -> updateRequest s ∈ updateRequests s) /\
  (forall rq, rq ∈ updateResends s -> rq ∈ updateRequests s).

(** The record is flagged deleted or hidden. *)
Definition flagged (keg : Raw) : bool := (r_deleted keg || r_hidden keg)%bool.

End MoreStoreVocabulary.

Module SampleStore.
Import Keg FileStore Example.
Local Open Scope list_scope.

(** A loaded store at "03" holding the file f1 of keg 1001. *)
Definition one_file : FileStore.t :=
  run (create selfDb)
      [CallLoadAllFiles; PageResponse [record "1001" "f1" "03" 2]; PageResponse []].

(** The record the server sends once f1 has been deleted. *)
Definition removed : Raw :=
  {| kegId := "1001"; r_version := 3; r_owner := "alice";
     r_collectionVersion := "09"; r_payload := None;
     r_props := {[ "fileId" := "f1" ]};
     r_deleted := true; r_hidden := false; r_type := "file";
     r_format := 1; r_decryptionError := false |}.

End SampleStore.

Section ViewVocabulary.
Import Keg FileStore FileStoreView.

(** The text [s] contains the text [q], the case of the letters A to Z
    apart. *)
Definition contains_ci (q s : string) : Prop :=
  exists pre mid post,
    s = (pre ++ mid ++ post)%string /\
    JS.lower_ascii_text mid = JS.lower_ascii_text q.

(** No file that is hidden is selected. *)
Definition hidden_unselected (l : list File) : Prop :=
  Forall (fun f => selected (data f) = true -> show (data f) = true) l.

End ViewVocabulary.

Module SampleMigration.
Import Keg FileStore Example.

(** A file already in the latest format. *)
Definition current : File :=
  Keg.set_data
    {| fileId := Some "f1"; name := "a.txt"; format := 1; migrating := false;
       blobKey := "blobkey"; descriptorKey := Some "blobkey"; fileOwner := "alice";
       selected := false; show := true |}
    (Keg.set_version 3 (Keg.set_id (Some "1001") (newFile selfDb))).

(** A legacy file that bob shared. *)
Definition bobs : File :=
  Keg.set_data
    {| fileId := Some "f5"; name := "b.txt"; format := 0; migrating := false;
       blobKey := "bobkey"; descriptorKey := None; fileOwner := "bob";
       selected := false; show := true |}
    (Keg.set_version 3 (Keg.set_id (Some "1005") (newFile selfDb))).

(** Its record, once bob has migrated the file. *)
Definition described : Raw :=
  {| kegId := "1005"; r_version := 4; r_owner := "bob";
     r_collectionVersion := "12";
     r_payload := Some (WBinary "1005|file|b.txt|bobkey");
     r_props := {[ "fileId" := "f5"; "descriptor" := "d5" ]};
     r_deleted := false; r_hidden := false; r_type := "file";
     r_format := 0; r_decryptionError := false |}.

End SampleMigration.

Section ReceiptVocabulary.

(** A name without the dash that separates it from the prefix of the
    receipt's keg id. *)
Fixpoint dashfree (s : string) : bool :=
  match s with
  | EmptyString => true
  | String c r => (negb (Ascii.eqb c "-") && dashfree r)%bool
  end.

End ReceiptVocabulary.

Module SampleView.
Import Keg FileStore Example SampleStore.
Local Open Scope list_scope.

(** The files of [one_file] as a list on screen, no filter set. *)
Definition listed : FileStoreView.t :=
  {| FileStoreView.store := one_file; FileStoreView.currentFilter := "" |}.

(** A list with one file, named ÉCOLE.txt. *)
Definition accented : FileStoreView.t :=
  {| FileStoreView.store :=
       run (create selfDb)
           [CallLoadAllFiles; PageResponse [record "1004" "ÉCOLE" "03" 2];
            PageResponse []];
     FileStoreView.currentFilter := "" |}.

(** A folder tree: the root with one folder "école" in it. *)
Definition ecoleTree : Folders.t :=
  {| Folders.heap :=
       {[ 0%nat := {| Folders.folderId := None; Folders.name := None;
                      Folders.createdAt := 0; Folders.isDeleted := false;
                      Folders.files := []; Folders.folders := [1%nat] |};
          1%nat := {| Folders.folderId := Some "e5f6"; Folders.name := Some "école";
                      Folders.createdAt := 1500000000000;
                      Folders.isDeleted := false;
                      Folders.files := []; Folders.folders := [] |} ]};
     Folders.root := 0%nat;
     Folders.folderResolveMap := {[ "e5f6" := 1%nat ]};
     Folders.warnings := [] |}.

End SampleView.

(** * Properties *)

(** ** Favorite and hidden chats *)

Section MyChatsFacts.
Import MyChats.

Lemma indexOf_None (a : list string) (v : string) :
  indexOf a v = None <-> v ∉ a.
Proof.
  induction a as [|x a IH]; simpl.
  - split; [intros _; apply not_elem_of_nil | done].
  - destruct (String.eqb_spec x v) as [->|Hne].
    + split; [done | intros Hn; exfalso; apply Hn; left].
    + destruct (indexOf a v) eqn:E; simpl.
      * split; [done|]. intros Hn. exfalso. apply Hn. right.
        destruct (decide (v ∈ a)) as [|Hn']; [done|].
        apply IH in Hn'. discriminate.
      * split; [|done]. intros _ Hin.
        apply elem_of_cons in Hin as [->|Hin]; [done|].
        by apply (proj1 IH).
Qed.

Lemma indexOf_Some (a : list string) (v : string) (i : nat) :
  indexOf a v = Some i -> a !! i = Some v.
Proof.
  revert i. induction a as [|x a IH]; intros i; simpl; [done|].
  destruct (String.eqb_spec x v) as [->|Hne].
  - intros [= <-]. done.
  - destruct (indexOf a v) eqn:E; simpl; [|done].
    intros [= <-]. simpl. by apply IH.
Qed.

Lemma delete_NoDup_gone (a : list string) (v : string) (i : nat) :
  NoDup a -> a !! i = Some v -> v ∉ delete i a.
Proof.
  revert i. induction a as [|x a IH]; intros i Hnd Hi; [done|].
  apply NoDup_cons in Hnd as [Hx Hnd].
  destruct i as [|i]; simpl in *.
  - injection Hi as ->. done.
  - intros Hin. apply elem_of_cons in Hin as [->|Hin].
    + apply Hx. eapply list_elem_of_lookup_2. done.
    + by apply (IH i Hnd Hi).
Qed.

Lemma delete_subseteq (a : list string) (i : nat) (v : string) :
  v ∈ delete i a -> v ∈ a.
Proof.
  apply list_elem_of_delete_inv.
Qed.

Lemma delete_NoDup (a : list string) (i : nat) : NoDup a -> NoDup (delete i a).
Proof. intros Hnd. eapply sublist_NoDup; [|apply sublist_delete]. done. Qed.

Lemma remove_spec (a : list string) (v : string) :
  NoDup a ->
  NoDup (fst (_remove a v)) /\ (v ∉ fst (_remove a v)) /\
  (forall x, x ∈ fst (_remove a v) -> x ∈ a).
Proof.
  intros Hnd. unfold _remove.
  destruct (indexOf a v) as [i|] eqn:E; simpl.
  - split; [by apply delete_NoDup|]. split.
    + apply delete_NoDup_gone; [done | by apply indexOf_Some].
    + intros x. apply delete_subseteq.
  - split; [done|]. split; [by apply indexOf_None | done].
Qed.

Lemma add_spec (a : list string) (v : string) :
  NoDup a ->
  NoDup (fst (_add a v)) /\
  (forall x, x ∈ fst (_add a v) <-> x ∈ a \/ (x = v /\ snd (_add a v) = true)) /\
  (snd (_add a v) = true <-> v ∉ a).
Proof.
  intros Hnd. unfold _add.
  destruct (indexOf a v) as [i|] eqn:E; simpl.
  - split; [done|]. split.
    { intros x. split; [by left | intros [?|[_ ?]]; [done | discriminate]]. }
    split; [done|]. intros Hn. apply indexOf_None in Hn. congruence.
  - apply indexOf_None in E. split.
    + apply NoDup_app. split; [done|]. split.
      * intros x Hx Hx'. apply list_elem_of_singleton in Hx'. by subst.
      * apply NoDup_singleton.
    + split; [|done]. intros x. rewrite elem_of_app, list_elem_of_singleton.
      tauto.
Qed.

Lemma call_tidy (s : t) (c : Call) : tidy s -> tidy (call s c).
Proof.
  intros (Hf & Hh & Hd). destruct s as [fav hid]; simpl in *.
  destruct c as [i|i|i|i]; simpl.
  - unfold addFavorite; simpl.
    destruct (add_spec fav i Hf) as (Hnd & Hin & _).
    destruct (_add fav i) as [a r] eqn:Ea; simpl in *.
    destruct r; simpl.
    + unfold removeHidden; simpl.
      destruct (remove_spec hid i Hh) as (Hnd' & Hgone & Hsub).
      destruct (_remove hid i) as [b r'] eqn:Eb; simpl in *.
      split; [done|]. split; [done|].
      intros x Hx Hx'. apply Hin in Hx as [Hx|[-> _]]; [|done].
      apply (Hd x); [done | by apply Hsub].
    + split; [done|]. split; [done|].
      intros x Hx Hx'. apply Hin in Hx as [Hx|[_ ?]]; [|done].
      by apply (Hd x).
  - unfold removeFavorite; simpl.
    destruct (remove_spec fav i Hf) as (Hnd' & Hgone & Hsub).
    destruct (_remove fav i) as [b r'] eqn:Eb; simpl in *.
    split; [done|]. split; [done|].
    intros x Hx Hx'. apply (Hd x); [by apply Hsub | done].
  - unfold addHidden; simpl.
    destruct (add_spec hid i Hh) as (Hnd & Hin & _).
    destruct (_add hid i) as [a r] eqn:Ea; simpl in *.
    destruct r; simpl.
    + unfold removeFavorite; simpl.
      destruct (remove_spec fav i Hf) as (Hnd' & Hgone & Hsub).
      destruct (_remove fav i) as [b r'] eqn:Eb; simpl in *.
      split; [done|]. split; [done|].
      intros x Hx Hx'. apply Hin in Hx' as [Hx'|[-> _]]; [|done].
      apply (Hd x); [by apply Hsub | done].
    + split; [done|]. split; [done|].
      intros x Hx Hx'. apply Hin in Hx' as [Hx'|[_ ?]]; [|done].
      by apply (Hd x).
  - unfold removeHidden; simpl.
    destruct (remove_spec hid i Hh) as (Hnd' & Hgone & Hsub).
    destruct (_remove hid i) as [b r'] eqn:Eb; simpl in *.
    split; [done|]. split; [done|].
    intros x Hx Hx'. apply (Hd x); [done | by apply Hsub].
Qed.

Lemma fold_call_tidy (cs : list Call) (s : t) :
  tidy s -> tidy (fold_left call cs s).
Proof.
  revert s. induction cs as [|c cs IH]; intros s Hs; simpl; [done|].
  apply IH. by apply call_tidy.
Qed.

Lemma addFavorite_answer (s : t) (i : string) :
  NoDup (favorites s) -> (snd (addFavorite i s) = true <-> i ∉ favorites s).
Proof.
  intros Hnd. unfold addFavorite.
  destruct (add_spec (favorites s) i Hnd) as (_ & _ & Hr).
  destruct (_add (favorites s) i) as [a r]; simpl in *.
  destruct r; simpl; done.
Qed.

Lemma addHidden_answer (s : t) (i : string) :
  NoDup (hiddenChats s) -> (snd (addHidden i s) = true <-> i ∉ hiddenChats s).
Proof.
  intros Hnd. unfold addHidden.
  destruct (add_spec (hiddenChats s) i Hnd) as (_ & _ & Hr).
  destruct (_add (hiddenChats s) i) as [a r]; simpl in *.
  destruct r; simpl; done.
Qed.

(** C10. Starting from empty favorites and hiddenChats, after any
    sequence of addFavorite, removeFavorite, addHidden and removeHidden
    calls the two lists share no chat id and neither holds a duplicate;
    in that state addFavorite answers true exactly when the id is not
    yet a favorite, and addHidden exactly when it is not yet hidden. *)
Theorem MyChats_lists_disjoint_without_duplicates (cs : list Call) :
  NoDup (favorites (calls cs)) /\
  NoDup (hiddenChats (calls cs)) /\
  (forall i, i ∈ favorites (calls cs) -> i ∉ hiddenChats (calls cs)) /\
  (forall i, snd (addFavorite i (calls cs)) = true <-> i ∉ favorites (calls cs)) /\
  (forall i, snd (addHidden i (calls cs)) = true <-> i ∉ hiddenChats (calls cs)).
Proof.
  assert (Ht : tidy (calls cs)).
  { apply fold_call_tidy. repeat split; simpl; try apply NoDup_nil_2.
    intros i Hi. by apply not_elem_of_nil in Hi. }
  destruct Ht as (Hf & Hh & Hd).
  split; [exact Hf|]. split; [exact Hh|]. split.
  - intros i Hi Hi'. exact (Hd i Hi Hi').
  - split; intros i.
    + by apply addFavorite_answer.
    + by apply addHidden_answer.
Qed.

End MyChatsFacts.

(** ** Kegs *)

Section KegFacts.
Import Keg.
Context {D P : Type} `{Methods D P} `{Codec P}.

Lemma strict_eq_true (a b : option string) : JS.strict_eq a b = true <-> a = b.
Proof.
  destruct a as [x|], b as [y|]; simpl; try (split; congruence).
  rewrite String.eqb_eq. split; congruence.
Qed.

Lemma strict_eq_false (a b : option string) : JS.strict_eq a b = false <-> a <> b.
Proof.
  rewrite <- strict_eq_true. destruct (JS.strict_eq a b); split; congruence.
Qed.

(** C1 (amended). For an encrypted keg whose id is unset or is the
    record's, a record whose decrypted payload carries a header with
    another keg id or another type makes loadFromKeg throw
    AntiTamperError; payload fields and props are not applied, every
    other field is as before, but id, version, owner and
    collectionVersion have already been overwritten from the record. *)
Theorem loadFromKeg_tampered (k : Keg.t D) (r : Raw) :
  tampered k r ->
  (JS.truthy (id k) = true -> id k = Some (kegId r)) ->
  exists what inner outer,
    loadFromKeg r k = (stamped r k, Throw (AntiTamperError what inner outer)).
Proof.
  intros (Hplain & Htruthy & w & text & payload & h & Hw & Hdec & Hparse & Hsys & Hdiff) Hid.
  unfold loadFromKeg, bind, get, modify, lift, ret, throw.
  assert (Hguard : (JS.truthy (id k) && negb (JS.strict_eq (id k) (Some (kegId r))))%bool = false).
  { destruct (JS.truthy (id k)) eqn:Et; [|done].
    rewrite (Hid eq_refl). simpl. by rewrite String.eqb_refl. }
  rewrite Hguard, Htruthy, Hw. simpl. rewrite Hplain. simpl.
  unfold keyOf in *. simpl. rewrite Hdec, Hparse. simpl.
  unfold detectTampering, bind, get, throw, ret. rewrite Hsys. simpl.
  destruct (JS.strict_eq (sys_kegId h) (Some (kegId r))) eqn:Ek; simpl.
  - apply strict_eq_true in Ek.
    destruct Hdiff as [Hd|Hd]; [done|].
    destruct (String.eqb_spec (sys_type h) (type k)) as [|_]; [done|]. simpl.
    by eexists _, _, _.
  - by eexists _, _, _.
Qed.

Lemma internalSave_eq (socket : Socket) (k : Keg.t D) :
  _internalSave socket k =
  match prepare k with
  | Throw e => (k, Throw e)
  | Ok (payload, props) =>
      match send_update socket (updateOf k payload props) with
      | Ok resp => (set_collectionVersion (u_collectionVersion resp)
                      (set_version (version k + 1) k), Ok tt)
      | Throw e => (set_version (version k + 1) k, Throw e)
      end
  end.
Proof.
  unfold _internalSave, bind, get, modify, lift, ret, throw.
  destruct (prepare k) as [[payload props]|e]; [|done].
  unfold updateOf. simpl. by destruct (send_update socket _).
Qed.

Lemma saveToServer_with_id (socket : Socket) (k : Keg.t D) :
  JS.truthy (id k) = true -> saveToServer socket k = _internalSave socket k.
Proof.
  intros Hid. unfold saveToServer, bind, get. by rewrite Hid.
Qed.

Lemma saveToServer_without_id (socket : Socket) (k : Keg.t D) :
  JS.truthy (id k) = false ->
  saveToServer socket k =
  match send_create socket (db_id (db k)) (type k) with
  | Throw e => (k, Throw e)
  | Ok r => _internalSave socket (created r k)
  end.
Proof.
  intros Hid. unfold saveToServer, bind, get, modify, lift. rewrite Hid.
  by destruct (send_create socket _ _).
Qed.

(** C9. For a keg that has its id: when preparing the payload and props
    throws (in particular when serializeKegPayload does), the save is
    rejected with that error and the keg is exactly as before; when the
    preparation succeeds and the update request is rejected, the save is
    rejected too but the keg's version is already one higher, every other
    field being as before. *)
Theorem saveToServer_failure_version (socket : Socket) (k : Keg.t D) :
  JS.truthy (id k) = true ->
  (forall e, serializeKegPayload k = Throw e -> prepare k = Throw e) /\
  (forall e, prepare k = Throw e -> saveToServer socket k = (k, Throw e)) /\
  (forall payload props e,
      prepare k = Ok (payload, props) ->
      send_update socket (updateOf k payload props) = Throw e ->
      saveToServer socket k = (set_version (version k + 1) k, Throw e)).
Proof.
  intros Hid. rewrite (saveToServer_with_id _ _ Hid), internalSave_eq.
  split; [|split].
  - intros e He. unfold prepare. by rewrite He.
  - intros e He. by rewrite He.
  - intros payload props e Hp Hs. by rewrite Hp, Hs.
Qed.

Lemma internalSave_version (socket : Socket) (k : Keg.t D) :
  id (fst (_internalSave socket k)) = id k /\
  version k <= version (fst (_internalSave socket k)) /\
  (is_ok (snd (_internalSave socket k)) = true ->
   version (fst (_internalSave socket k)) = version k + 1).
Proof.
  rewrite internalSave_eq.
  destruct (prepare k) as [[payload props]|e]; simpl.
  - destruct (send_update socket _); simpl; repeat split; (lia || done).
  - repeat split; (lia || done).
Qed.

Lemma ok_unit (r : result unit) : r = Ok tt <-> is_ok r = true.
Proof. destruct r as [[]|]; simpl; split; congruence. Qed.

Lemma saveToServer_bumps (socket : Socket) (k : Keg.t D) :
  bumps {| before := k; net := socket;
           after := fst (saveToServer socket k);
           outcome := snd (saveToServer socket k) |}.
Proof.
  unfold bumps; simpl. intros Hok. apply ok_unit in Hok.
  destruct (JS.truthy (id k)) eqn:Hid.
  - rewrite (saveToServer_with_id _ _ Hid) in *.
    by apply internalSave_version.
  - rewrite (saveToServer_without_id _ _ Hid) in *.
    destruct (send_create socket _ _) as [r|e]; [|done].
    exists r. split; [done|].
    destruct (internalSave_version socket (created r k)) as (_ & _ & Hv).
    by rewrite (Hv Hok).
Qed.

Lemma saves_cons (socket : Socket) (rest : list Socket) (k : Keg.t D) :
  saves (socket :: rest) k =
  {| before := k; net := socket;
     after := fst (saveToServer socket k);
     outcome := snd (saveToServer socket k) |}
    :: saves rest (fst (saveToServer socket k)).
Proof. simpl. by destruct (saveToServer socket k). Qed.

Lemma saved_versions_cons (c : @Call D) (tr : list (@Call D)) :
  saved_versions (c :: tr) =
  if is_ok (outcome c) then version (after c) :: saved_versions tr
  else saved_versions tr.
Proof.
  unfold saved_versions. rewrite filter_cons.
  destruct (is_ok (outcome c)); by case_decide.
Qed.

(** Once the keg has its id, later successful saves hold versions above
    the present one, in increasing order. *)
Lemma saves_sorted_with_id (sockets : list Socket) (k : Keg.t D) :
  JS.truthy (id k) = true ->
  Forall (fun v => version k < v) (saved_versions (saves sockets k)) /\
  StronglySorted Z.lt (saved_versions (saves sockets k)).
Proof.
  revert k. induction sockets as [|s rest IH]; intros k Hid.
  - split; constructor.
  - rewrite saves_cons, saved_versions_cons. simpl.
    rewrite (saveToServer_with_id _ _ Hid).
    destruct (internalSave_version s k) as (Hi & Hle & Hv).
    destruct (IH (fst (_internalSave s k))) as (Hall & Hsort).
    { by rewrite Hi. }
    destruct (is_ok (snd (_internalSave s k))) eqn:Hok.
    + specialize (Hv eq_refl). split.
      * constructor; [lia|]. eapply Forall_impl; [exact Hall|]. simpl. lia.
      * constructor; [done|]. by rewrite Hv in *.
    + split; [|done]. eapply Forall_impl; [exact Hall|]. simpl. lia.
Qed.

(** C2 (amended). In any sequence of saves on one keg, against a server
    that answers create requests with a non-empty id: a successful save
    of a keg that has its id raises the version by exactly 1; a
    successful save of a keg without id leaves it at the version of the
    create answer plus 1; and the versions held after the successful
    saves increase strictly, so none is used twice. *)
Theorem saves_version_increases (sockets : list Socket) (k : Keg.t D) :
  Forall allocates sockets ->
  Forall bumps (saves sockets k) /\
  StronglySorted Z.lt (saved_versions (saves sockets k)).
Proof.
  intros Hall. split.
  - clear Hall. revert k. induction sockets as [|s rest IH]; intros k.
    + constructor.
    + rewrite saves_cons. constructor; [apply saveToServer_bumps | apply IH].
  - revert k. induction Hall as [|s rest Hs Hrest IH]; intros k.
    + constructor.
    + destruct (JS.truthy (id k)) eqn:Hid.
      { by apply saves_sorted_with_id. }
      rewrite saves_cons, saved_versions_cons. simpl.
      destruct (is_ok (snd (saveToServer s k))) eqn:Hok; [|apply IH].
      rewrite (saveToServer_without_id _ _ Hid) in *.
      destruct (send_create s _ _) as [r|e] eqn:Hc; [|done].
      destruct (internalSave_version s (created r k)) as (Hi & _ & _).
      destruct (saves_sorted_with_id rest (fst (_internalSave s (created r k))))
        as (Hgt & Hsort).
      { rewrite Hi. simpl. by apply (Hs _ _ _ Hc). }
      by constructor.
Qed.

End KegFacts.

Section KegExamples.
Import Keg FileStore Example.

(** A keg hydrated as keg 8 is offered the ciphertext of keg 7 under
  id 8: the hypotheses of [loadFromKeg_tampered] hold and the keg comes
  out with the record's version, owner and update id. *)
Lemma loadFromKeg_tampered_witness :
exists what inner outer,
  Keg.loadFromKeg Example.swapped Example.file8
  = (stamped Example.swapped Example.file8,
     Throw (AntiTamperError what inner outer)).
Proof.
apply loadFromKeg_tampered.
- split; [reflexivity|]. split; [reflexivity|].
  exists (Keg.WBinary "7|file|a.txt|blobkey"), "7|file|a.txt|blobkey",
    {| Keg.sys := Some {| Keg.sys_kegId := Some "7"; Keg.sys_type := "file" |};
       Keg.fields := {| FileStore.p_name := "a.txt"; FileStore.p_key := "blobkey" |} |},
    {| Keg.sys_kegId := Some "7"; Keg.sys_type := "file" |}.
  repeat split; try reflexivity. left. discriminate.
- intros _. reflexivity.
Defined.

(** C1 as stated fails: the same hydration is rejected as tampered, yet
  the keg is not left as it was (its version went from 4 to 5). *)
Lemma loadFromKeg_tampered_mutates :
tampered Example.file8 Example.swapped /\
~ rejected_untouched Example.file8 Example.swapped.
Proof.
split.
- split; [reflexivity|]. split; [reflexivity|].
  exists (Keg.WBinary "7|file|a.txt|blobkey"), "7|file|a.txt|blobkey",
    {| Keg.sys := Some {| Keg.sys_kegId := Some "7"; Keg.sys_type := "file" |};
       Keg.fields := {| FileStore.p_name := "a.txt"; FileStore.p_key := "blobkey" |} |},
    {| Keg.sys_kegId := Some "7"; Keg.sys_type := "file" |}.
  repeat split; try reflexivity. left. discriminate.
- intros (what & inner & outer & E).
  apply (f_equal (fun x => Keg.version (fst x))) in E.
  vm_compute in E. discriminate.
Qed.

Lemma friendly_allocates : allocates friendly.
Proof. intros c ty r [= <-]. reflexivity. Defined.

Lemma offline_allocates : allocates offline.
Proof. intros c ty r E. discriminate E. Defined.

(** A new file keg saved three times: created and written, then a save
    that fails on the wire, then a plain update. *)
Lemma saves_version_increases_witness :
  Forall bumps (saves [friendly; offline; friendly] (newFile selfDb)) /\
  StronglySorted Z.lt
    (saved_versions (saves [friendly; offline; friendly] (newFile selfDb))).
Proof.
  apply saves_version_increases.
  repeat constructor;
    [exact friendly_allocates | exact offline_allocates | exact friendly_allocates].
Defined.

Example saves_versions_example :
  saved_versions (saves [friendly; offline; friendly] (newFile selfDb)) = [2; 4].
Proof. vm_compute. reflexivity. Qed.

(** C2 as stated fails on the create-then-write path: a new keg is at
    version 0, the server creates it at version 1, and the successful
    first save leaves it at version 2. *)
Lemma first_save_skips_a_version :
  ~ Forall bumps_by_one (saves [friendly] (newFile selfDb)).
Proof.
  intros Hall. apply Forall_cons in Hall as [Hb _].
  unfold bumps_by_one in Hb. vm_compute in Hb.
  specialize (Hb eq_refl). discriminate Hb.
Qed.

(** Keg 8 is saved while the connection is down. *)
Lemma saveToServer_failure_version_witness :
  (forall e, serializeKegPayload file8 = Throw e -> prepare file8 = Throw e) /\
  (forall e, prepare file8 = Throw e -> saveToServer offline file8 = (file8, Throw e)) /\
  (forall payload props e,
      prepare file8 = Ok (payload, props) ->
      send_update offline (updateOf file8 payload props) = Throw e ->
      saveToServer offline file8 = (set_version (version file8 + 1) file8, Throw e)).
Proof.
  apply saveToServer_failure_version. reflexivity.
Defined.

(** A record of keg 8 that is what it says hydrates: metadata, payload
    fields and props are applied. *)
Example hydrate_genuine :
  let r := loadFromKeg (record "8" "f8" "41" 5) file8 in
  snd r = Ok tt /\ version (fst r) = 5 /\ collectionVersion (fst r) = "41" /\
  fid (fst r) = Some "f8" /\ name (data (fst r)) = "f8.txt" /\
  props (fst r) !! "fileId" = Some "f8".
Proof. vm_compute. repeat split. Qed.

(** A record of keg 9 offered to keg 8 is refused before any field is
    assigned, with the plain error and not the anti-tamper one. *)
Example rehydrate_other_keg :
  loadFromKeg (record "9" "f9" "41" 5) file8 = (file8, Throw (RehydrateError "8" "9")).
Proof. vm_compute. reflexivity. Qed.

Example offline_save_bumps_version :
  version (fst (saveToServer offline file8)) = 5 /\
  snd (saveToServer offline file8) = Throw (SocketError "disconnected").
Proof. split; vm_compute; reflexivity. Qed.

End KegExamples.

(** ** The order of update ids *)

Section UpdateIdOrder.

Lemma jlt_compare (a b : string) : JS.lt a b = true <-> String.compare a b = Lt.
Proof.
  unfold JS.lt, String.ltb. destruct (String.compare a b); split; congruence.
Qed.

Lemma jlt_irrefl (a : string) : JS.lt a a = false.
Proof.
  destruct (JS.lt a a) eqn:E; [|done].
  apply jlt_compare, String_as_OT.cmp_lt in E.
  exfalso. by apply (String_as_OT.lt_not_eq _ _ E).
Qed.

Lemma jlt_trans (a b c : string) :
  JS.lt a b = true -> JS.lt b c = true -> JS.lt a c = true.
Proof.
  rewrite !jlt_compare. intros Hab%String_as_OT.cmp_lt Hbc%String_as_OT.cmp_lt.
  apply String_as_OT.cmp_lt. by eapply String_as_OT.lt_trans.
Qed.

Lemma jlt_trichotomy (a b : string) :
  JS.lt a b = true \/ a = b \/ JS.lt b a = true.
Proof.
  destruct (String.compare a b) eqn:E.
  - right; left. by apply String.compare_eq_iff.
  - left. by apply jlt_compare.
  - right; right. apply jlt_compare.
    rewrite String.compare_antisym, E. done.
Qed.

Lemma jlt_asym (a b : string) : JS.lt a b = true -> JS.lt b a = false.
Proof.
  intros Hab. destruct (JS.lt b a) eqn:Hba; [|done].
  rewrite <- (jlt_irrefl a). symmetry. by eapply jlt_trans.
Qed.

(** As strings, ten comes before seven; with a leading zero it does not. *)
Example ten_below_seven : JS.lt "10" "7" = true /\ JS.lt "07" "10" = true.
Proof. split; reflexivity. Qed.

Lemma jle_refl (a : string) : jle a a.
Proof. apply jlt_irrefl. Qed.

Lemma jlt_jle (a b : string) : JS.lt a b = true -> jle a b.
Proof. apply jlt_asym. Qed.

Lemma jle_cases (a b : string) : jle a b <-> JS.lt a b = true \/ a = b.
Proof.
  unfold jle. split.
  - intros Hn. destruct (jlt_trichotomy a b) as [?|[?|Hba]]; [by left|by right|].
    congruence.
  - intros [Hab| ->]; [by apply jlt_asym | apply jlt_irrefl].
Qed.

Lemma jle_trans (a b c : string) : jle a b -> jle b c -> jle a c.
Proof.
  rewrite !jle_cases. intros [Hab| ->] [Hbc| ->]; auto.
  left. by eapply jlt_trans.
Qed.

Lemma jle_total (a b : string) : jle a b \/ jle b a.
Proof.
  destruct (jlt_trichotomy a b) as [?|[->|?]].
  - left. by apply jlt_jle.
  - left. apply jle_refl.
  - right. by apply jlt_jle.
Qed.

Lemma jle_antisym (a b : string) : jle a b -> jle b a -> a = b.
Proof.
  rewrite !jle_cases. intros [Hab| ->] [Hba| Heq]; auto.
  apply jlt_asym in Hab. congruence.
Qed.

Lemma not_jlt_jle (a b : string) : JS.lt a b = false -> jle b a.
Proof. done. Qed.

Lemma raise_ge_l (a c : string) : jle a (raise a c).
Proof.
  unfold raise. change (JS.gt c a) with (JS.lt a c).
  destruct (JS.lt a c) eqn:E.
  - by apply jlt_jle.
  - apply jle_refl.
Qed.

Lemma raise_ge_r (a c : string) : jle c (raise a c).
Proof.
  unfold raise. change (JS.gt c a) with (JS.lt a c).
  destruct (JS.lt a c) eqn:E.
  - apply jle_refl.
  - exact E.
Qed.

Lemma raise_least (a c m : string) : jle a m -> jle c m -> jle (raise a c) m.
Proof. unfold raise. by destruct (JS.gt c a). Qed.

Lemma raise_mono (a b c : string) : jle a b -> jle (raise a c) (raise b c).
Proof.
  intros Hab. apply raise_least.
  - eapply jle_trans; [exact Hab | apply raise_ge_l].
  - apply raise_ge_r.
Qed.

Lemma raise_choice (a c : string) : raise a c = a \/ raise a c = c.
Proof. unfold raise. destruct (JS.gt c a); auto. Qed.

End UpdateIdOrder.

(** ** The file store *)

Section FileStoreFacts.
Import Keg FileStore.
Context `{Codec FilePayload}.
Local Open Scope list_scope.

(** Closes one branch of [hydrate_fid]: the three facts hold at once or
    their premises contradict the branch. *)
Local Ltac hydrated :=
  simpl; repeat split; intros; try done;
  match goal with
  | Hd : _ \/ _ |- _ => destruct Hd; done
  end.

(** What hydration does to the logical id and the version of a file. *)
Lemma hydrate_fid (keg : Raw) (f : File) :
  (snd (File_loadFromKeg keg f) = true -> wire_truthy (r_payload keg) = true ->
   fid (fst (File_loadFromKeg keg f)) = r_props keg !! "fileId") /\
  (snd (File_loadFromKeg keg f) = false \/ wire_truthy (r_payload keg) = false ->
   fid (fst (File_loadFromKeg keg f)) = fid f) /\
  (snd (File_loadFromKeg keg f) = true ->
   Keg.version (fst (File_loadFromKeg keg f)) = r_version keg).
Proof.
  unfold File_loadFromKeg, loadFromKeg, detectTampering,
    bind, get, modify, lift, ret, throw.
  destruct (JS.truthy (id f) && negb (JS.strict_eq (id f) (Some (kegId keg))))%bool;
    simpl; [hydrated|].
  destruct (wire_truthy (r_payload keg)); simpl; [|hydrated].
  destruct (plaintext f); simpl.
  - destruct (JSON_parse _) as [payload|e]; hydrated.
  - destruct (decryptString _ _) as [text|e]; simpl; [|hydrated].
    destruct (JSON_parse _) as [payload|e]; simpl; [|hydrated].
    destruct (sys payload) as [h|]; simpl; [|hydrated].
    destruct (JS.strict_eq (sys_kegId h) (Some (kegId keg))); simpl; [|hydrated].
    destruct (String.eqb (sys_type h) (type f)); hydrated.
Qed.

Lemma requests_emit (e : Effect) (s : FileStore.t) :
  requests (emit e s) =
  requests s ++ match e with SendList rq => [rq] | _ => [] end.
Proof.
  unfold requests, emit; simpl. rewrite omap_app. simpl.
  by destruct e.
Qed.

Lemma same_control_refl (s : FileStore.t) : same_control s s.
Proof. by repeat split. Qed.

Lemma same_control_trans (s1 s2 s3 : FileStore.t) :
  same_control s1 s2 -> same_control s2 s3 -> same_control s1 s3.
Proof.
  unfold same_control. intros (?&?&?&?&?&?&?&?) (?&?&?&?&?&?&?&?).
  repeat split; congruence.
Qed.

Lemma loadPage_record_control (keg : Raw) (s : FileStore.t) :
  same_control s (loadPage_record keg s).
Proof.
  unfold loadPage_record.
  destruct (r_deleted keg || r_hidden keg)%bool; [apply same_control_refl|].
  destruct (File_loadFromKeg keg (newFile (kegDb s))) as [file ok] eqn:Eh.
  destruct (JS.gt (r_collectionVersion keg) (maxUpdateId s));
    destruct (JS.gt (r_collectionVersion keg) _);
    simpl; rewrite ?Eh; destruct ok; repeat case_match;
      unfold same_control; simpl; rewrite ?requests_emit, ?app_nil_r; done.
Qed.

Lemma loadPage_records_control (kegs : list Raw) (s : FileStore.t) :
  same_control s (fold_left (fun s keg => loadPage_record keg s) kegs s).
Proof.
  revert s. induction kegs as [|keg kegs IH]; intros s; simpl.
  - apply same_control_refl.
  - eapply same_control_trans; [apply loadPage_record_control | apply IH].
Qed.

(** *** Initial load *)

Lemma resume_nonempty (page : list Raw) (s : FileStore.t) :
  awaitingPage s = true -> page <> [] ->
  awaitingPage (loadAllFiles_resume page s) = true /\
  loading (loadAllFiles_resume page s) = loading s /\
  loaded (loadAllFiles_resume page s) = loaded s /\
  kegDb (loadAllFiles_resume page s) = kegDb s /\
  requests (loadAllFiles_resume page s)
  = requests s ++ [pageRequestOf (kegDb s) (firstKegId page)].
Proof.
  intros Haw Hne. unfold loadAllFiles_resume, loadPage_then. rewrite Haw. simpl.
  destruct page as [|k0 rest]; [done|]. cbn [length Nat.ltb Nat.leb size maxId].
  destruct (loadPage_records_control (k0 :: rest) s)
    as (Hdb & Hl & Hld & _ & _ & Ha & _ & Hrq).
  change (requests (with_pageFrom ?v ?x)) with (requests x).
  rewrite requests_emit. unfold emit; simpl in *.
  repeat split; try congruence.
  rewrite Hrq. unfold pageRequestOf, pageRequest; simpl. by rewrite Hdb.
Qed.

Lemma pages_run (pages : list (list Raw)) (s : FileStore.t) :
  awaitingPage s = true -> Forall (fun p => p <> []) pages ->
  awaitingPage (run s (map PageResponse pages)) = true /\
  loading (run s (map PageResponse pages)) = loading s /\
  loaded (run s (map PageResponse pages)) = loaded s /\
  kegDb (run s (map PageResponse pages)) = kegDb s /\
  requests (run s (map PageResponse pages))
  = requests s ++ map (fun p => pageRequestOf (kegDb s) (firstKegId p)) pages.
Proof.
  intros Haw Hall. revert s Haw.
  induction Hall as [|page pages Hne Hall IH]; intros s Haw; simpl.
  - by rewrite app_nil_r.
  - destruct (resume_nonempty page s Haw Hne) as (Ha & Hl & Hld & Hdb & Hrq).
    destruct (IH _ Ha) as (Ha' & Hl' & Hld' & Hdb' & Hrq').
    unfold run in *. repeat split; try congruence.
    rewrite Hrq', Hrq, Hdb, <- app_assoc. done.
Qed.

Lemma finishLoading_spec (s : FileStore.t) :
  loaded (_finishLoading s) = true /\ loading (_finishLoading s) = false /\
  requests (_finishLoading s) = requests s /\
  SubscribeDigest ∈ effects (_finishLoading s).
Proof.
  unfold _finishLoading. repeat split; simpl.
  - unfold requests; simpl. rewrite !omap_app. simpl. by rewrite !app_nil_r.
  - rewrite !elem_of_app, !list_elem_of_singleton. auto.
Qed.

(** What the initial load asks for when every request is answered.
    Loading a new store sends page requests for type 'file' with count
    50, reverse false and the filter deleted = false, hidden = false; the
    first starts from '999' and each next one from the keg id of the
    first record of the page before (what the code calls maxId). As long
    as the pages carry records the store stays loading; the first page
    without records ends the loop with no further request: the store is
    then loaded and has subscribed to digest updates. *)
Theorem loadAllFiles_pages (d : KegDb) (pages : list (list Raw)) :
  Forall (fun p => p <> []) pages ->
  let s := run (create d) (CallLoadAllFiles :: map PageResponse pages) in
  let s' := step s (PageResponse []) in
  requests s = map (pageRequestOf d) (Some "999" :: map firstKegId pages) /\
  Forall page_shaped (requests s) /\
  (loading s = true /\ loaded s = false) /\
  (loading s' = false /\ loaded s' = true /\ requests s' = requests s /\
   SubscribeDigest ∈ effects s').
Proof.
  intros Hall s s'.
  assert (Hrun : s = run (loadAllFiles (create d)) (map PageResponse pages)) by done.
  destruct (pages_run pages (loadAllFiles (create d)) eq_refl Hall)
    as (Haw & Hl & Hld & Hdb & Hrq).
  rewrite <- Hrun in *.
  assert (Hreqs : requests s = map (pageRequestOf d) (Some "999" :: map firstKegId pages)).
  { rewrite Hrq. simpl. f_equal. by rewrite map_map. }
  split; [exact Hreqs|]. split.
  { rewrite Hreqs. apply Forall_forall. intros rq Hin.
    apply list_elem_of_In, in_map_iff in Hin as (from & <- & _). by repeat split. }
  split; [by rewrite Hl, Hld|].
  subst s'. simpl. unfold loadAllFiles_resume. rewrite Haw. simpl.
  destruct (finishLoading_spec (with_awaitingPage false s)) as (? & ? & Hr & ?).
  repeat split; try done.
Qed.

(** *** Update cycles and the two update ids *)

Lemma newest_ge_start (cvs : list string) (a : string) : jle a (newest a cvs).
Proof.
  revert a. induction cvs as [|c cvs IH]; intros a; simpl.
  - apply jle_refl.
  - eapply jle_trans; [apply raise_ge_l | apply IH].
Qed.

Lemma newest_ge_each (cvs : list string) (a : string) :
  Forall (fun c => jle c (newest a cvs)) cvs.
Proof.
  revert a. induction cvs as [|c cvs IH]; intros a; simpl; constructor.
  - eapply jle_trans; [apply raise_ge_r | apply newest_ge_start].
  - apply IH.
Qed.

Lemma newest_choice (cvs : list string) (a : string) :
  newest a cvs = a \/ newest a cvs ∈ cvs.
Proof.
  revert a. induction cvs as [|c cvs IH]; intros a; simpl; [by left|].
  destruct (IH (raise a c)) as [E|Hin].
  - rewrite E. destruct (raise_choice a c) as [->| ->]; [by left|].
    right. by left.
  - right. by right.
Qed.

Lemma newest_least (cvs : list string) (a m : string) :
  jle a m -> Forall (fun c => jle c m) cvs -> jle (newest a cvs) m.
Proof.
  intros Ha Hall. revert a Ha.
  induction Hall as [|c cvs Hc Hall IH]; intros a Ha; simpl; [done|].
  apply IH. by apply raise_least.
Qed.

Lemma updateFiles_record_ids (keg : Raw) (sd : FileStore.t * bool) :
  knownUpdateId (fst (updateFiles_record keg sd))
  = raise (knownUpdateId (fst sd)) (r_collectionVersion keg) /\
  same_but_files (fst sd) (fst (updateFiles_record keg sd)).
Proof.
  destruct sd as [s dirty]. unfold updateFiles_record, raise, same_but_files.
  cbn [fst].
  destruct (JS.gt (r_collectionVersion keg) (knownUpdateId s)); simpl;
    repeat (case_match; simpl); done.
Qed.

Lemma updateFiles_records_ids (kegs : list Raw) (sd : FileStore.t * bool) :
  knownUpdateId (fst (fold_left (fun sd keg => updateFiles_record keg sd) kegs sd))
  = newest (knownUpdateId (fst sd)) (map r_collectionVersion kegs) /\
  same_but_files (fst sd)
    (fst (fold_left (fun sd keg => updateFiles_record keg sd) kegs sd)).
Proof.
  revert sd. induction kegs as [|keg kegs IH]; intros sd; simpl.
  - by repeat split.
  - destruct (IH (updateFiles_record keg sd)) as (Hk & Hs).
    destruct (updateFiles_record_ids keg sd) as (Hk1 & Hs1).
    rewrite Hk, Hk1. split; [done|].
    unfold same_but_files in *.
    destruct Hs as (?&?&?&?&?&?&?&?&?), Hs1 as (?&?&?&?&?&?&?&?&?).
    repeat split; congruence.
Qed.

(** [knownUpdateId] when an update cycle has dealt with its records. *)
Lemma updateFiles_then_ids (kegs : list Raw) (s : FileStore.t) :
  updating s = true ->
  let k := newest (knownUpdateId s) (map r_collectionVersion kegs) in
  knownUpdateId (updateFiles_then kegs s)
  = (if JS.lt k (cycleMaxId s) then cycleMaxId s else k) /\
  maxUpdateId (updateFiles_then kegs s) = maxUpdateId s /\
  updating (updateFiles_then kegs s) = false.
Proof.
  intros Hup k. unfold updateFiles_then. rewrite Hup. simpl.
  destruct (updateFiles_records_ids kegs (s, false)) as (Hk & Hs).
  destruct (fold_left _ kegs (s, false)) as [s1 dirty]. simpl in *.
  destruct Hs as (_&_&_&_&_&_&Hc&Hm&_).
  rewrite Hk, Hc. fold k. destruct (JS.lt k (cycleMaxId s)); simpl; done.
Qed.

Lemma jlt_neq (a b : string) : JS.lt a b = true -> a <> b.
Proof. intros Hlt ->. rewrite jlt_irrefl in Hlt. done. Qed.

(** The digest reports [m], news to a loaded and idle store, and the
    fetch answers [kegs]: where [knownUpdateId] ends. *)
Lemma update_cycle_known (s : FileStore.t) (m : string) (kegs : list Raw) :
  loaded s = true -> updating s = false -> paused s = false ->
  m <> maxUpdateId s -> JS.lt (knownUpdateId s) m = true ->
  let s' := run s [DigestUpdate m; UpdateResponse kegs] in
  jle m (knownUpdateId s') /\
  Forall (fun keg => jle (r_collectionVersion keg) (knownUpdateId s')) kegs /\
  (knownUpdateId s' = m \/ knownUpdateId s' ∈ map r_collectionVersion kegs) /\
  maxUpdateId s' = m /\ updating s' = false.
Proof.
  intros Hld Hup Hp Hnew Hlt s'. subst s'. simpl.
  unfold onFileDigestUpdate. rewrite Hp, Hld. simpl.
  destruct (String.eqb_spec m (maxUpdateId s)) as [|_]; [done|].
  unfold updateFiles. simpl. rewrite Hld, Hup. simpl.
  destruct (String.eqb_spec (knownUpdateId s) m) as [E|_].
  { by apply jlt_neq in Hlt. }
  set (s1 := emit _ _).
  destruct (updateFiles_then_ids kegs s1 eq_refl) as (Hk & Hm & Hu).
  rewrite Hk, Hm, Hu. simpl.
  set (k := newest (knownUpdateId s) (map r_collectionVersion kegs)).
  assert (Hkk : jle k (if JS.lt k m then m else k)).
  { destruct (JS.lt k m) eqn:E; [by apply jlt_jle | apply jle_refl]. }
  split; [|split; [|split]].
  - destruct (JS.lt k m) eqn:E; [apply jle_refl | exact E].
  - apply Forall_forall. intros keg Hin.
    eapply jle_trans; [|exact Hkk].
    pose proof (newest_ge_each (map r_collectionVersion kegs) (knownUpdateId s)) as Hall.
    rewrite Forall_forall in Hall. apply Hall.
    apply list_elem_of_In, in_map. by apply list_elem_of_In.
  - destruct (JS.lt k m) eqn:E; [by left|].
    destruct (newest_choice (map r_collectionVersion kegs) (knownUpdateId s))
      as [Hs|Hin]; [|by right].
    fold k in Hs. rewrite Hs in E. congruence.
  - done.
Qed.

(** *** knownUpdateId against maxUpdateId *)

Lemma loadPage_record_ids (keg : Raw) (s : FileStore.t) :
  (knownUpdateId (loadPage_record keg s) = knownUpdateId s /\
   maxUpdateId (loadPage_record keg s) = maxUpdateId s) \/
  (knownUpdateId (loadPage_record keg s)
   = raise (knownUpdateId s) (r_collectionVersion keg) /\
   maxUpdateId (loadPage_record keg s)
   = raise (maxUpdateId s) (r_collectionVersion keg)).
Proof.
  unfold loadPage_record, raise.
  destruct (r_deleted keg || r_hidden keg)%bool; [by left|]. right.
  destruct (File_loadFromKeg keg (newFile (kegDb s))) as [file ok] eqn:Eh.
  destruct (JS.gt (r_collectionVersion keg) (maxUpdateId s));
    simpl; destruct (JS.gt (r_collectionVersion keg) (knownUpdateId s));
    simpl; rewrite ?Eh; destruct ok; repeat (case_match; simpl); done.
Qed.

Lemma loadPage_records_caught (kegs : list Raw) (s : FileStore.t) :
  jle (knownUpdateId s) (maxUpdateId s) ->
  jle (knownUpdateId (fold_left (fun s keg => loadPage_record keg s) kegs s))
      (maxUpdateId (fold_left (fun s keg => loadPage_record keg s) kegs s)) /\
  jle (maxUpdateId s)
      (maxUpdateId (fold_left (fun s keg => loadPage_record keg s) kegs s)).
Proof.
  revert s. induction kegs as [|keg kegs IH]; intros s Hle; simpl.
  - split; [done | apply jle_refl].
  - destruct (loadPage_record_ids keg s) as [(Hk & Hm)|(Hk & Hm)].
    + destruct (IH (loadPage_record keg s)) as (Hc & Hmono).
      { by rewrite Hk, Hm. }
      split; [done|]. by rewrite Hm in Hmono.
    + destruct (IH (loadPage_record keg s)) as (Hc & Hmono).
      { rewrite Hk, Hm. by apply raise_mono. }
      split; [done|]. rewrite Hm in Hmono.
      eapply jle_trans; [apply raise_ge_l | exact Hmono].
Qed.

Lemma step_caught (s : FileStore.t) (e : Event) :
  caught s -> orderly_event s e -> caught (step s e).
Proof.
  intros (Hle & Hcyc) Hev. destruct e as [|kegs|m|kegs| | | |]; simpl in *.
  - unfold loadAllFiles. destruct (loading s || loaded s)%bool; by split.
  - unfold loadAllFiles_resume, loadPage_then.
    destruct (awaitingPage s); simpl; [|by split].
    destruct (loadPage_records_caught kegs s Hle) as (Hc & Hmono).
    destruct (loadPage_records_control kegs s) as (_&_&_&_&Hu&_&Hcm&_).
    set (s1 := fold_left _ kegs s) in *.
    assert (Hcaught : caught s1).
    { split; [done|]. rewrite Hu, Hcm. intros Hup.
      eapply jle_trans; [by apply Hcyc | exact Hmono]. }
    destruct (0 <? length kegs)%nat; exact Hcaught.
  - unfold onFileDigestUpdate. destruct (paused s); [by split|].
    destruct (loaded s && String.eqb m (maxUpdateId s))%bool; [by split|].
    assert (Hkm : jle (knownUpdateId s) m) by (by eapply jle_trans).
    unfold updateFiles; simpl.
    destruct (negb (loaded s) || updating s
              || String.eqb (knownUpdateId s) m)%bool eqn:Eg; simpl.
    + split; [done|]. intros Hup. eapply jle_trans; [by apply Hcyc | done].
    + split; [done|]. intros _. apply jle_refl.
  - destruct (updating s) eqn:Hup.
    + destruct (updateFiles_then_ids kegs s Hup) as (Hk & Hm & Hu).
      split; [|by rewrite Hu].
      rewrite Hk, Hm.
      destruct (JS.lt _ (cycleMaxId s)); [by apply Hcyc|].
      apply newest_least; [done|].
      apply Forall_forall. intros c Hin.
      apply list_elem_of_In, in_map_iff in Hin as (keg & <- & Hin).
      rewrite Forall_forall in Hev. by apply Hev, list_elem_of_In.
    + unfold updateFiles_then. rewrite Hup. simpl.
      split; [done | intros; congruence].
  - by split.
  - unfold resume. destruct (paused s); by split.
  - unfold loadPage_retry. destruct (awaitingPage s); by split.
  - unfold updateFiles_retry. case_eq (updating s); intros E; simpl; split; auto.
Qed.

Lemma run_caught (es : list Event) (s : FileStore.t) :
  caught s -> orderly s es -> caught (run s es).
Proof.
  revert s. induction es as [|e es IH]; intros s Hc Ho; simpl; [done|].
  destruct Ho as (He & Ho). apply IH; [by apply step_caught | done].
Qed.

(** C4 (amended). From a new store, through any sequence of calls of
    loadAllFiles, page answers, digest updates, update answers, pause and
    resume in which no digest reports a maximum below the store's
    maxUpdateId and no update answer carries a record above it,
    knownUpdateId never exceeds maxUpdateId (in the order JavaScript
    gives the two strings). *)
Theorem known_at_most_max (d : KegDb) (es : list Event) :
  orderly (create d) es ->
  jle (knownUpdateId (run (create d) es)) (maxUpdateId (run (create d) es)).
Proof.
  intros Ho. apply (run_caught es (create d)); [|done].
  split; [apply jle_refl | done].
Qed.

(** *** The files in memory and their logical ids *)

Lemma find_index_Some {A} (p : A -> bool) (l : list A) (i : nat) :
  find_index p l = Some i -> exists x, l !! i = Some x /\ p x = true.
Proof.
  revert i. induction l as [|x l IH]; intros i; simpl; [done|].
  destruct (p x) eqn:Ep.
  - intros [= <-]. by exists x.
  - destruct (find_index p l) as [j|]; simpl; [|done].
    intros [= <-]. by apply IH.
Qed.

Lemma find_index_None {A} (p : A -> bool) (l : list A) :
  find_index p l = None -> Forall (fun x => p x = false) l.
Proof.
  induction l as [|x l IH]; simpl; [constructor|].
  destruct (p x) eqn:Ep; [done|].
  destruct (find_index p l); simpl; [done|].
  intros _. constructor; [done | by apply IH].
Qed.

Lemma getById_Some (i : option string) (s : FileStore.t) (n : nat) :
  getById i s = Some n -> exists f, files s !! n = Some f /\ fid f = i.
Proof.
  unfold getById. destruct i as [x|]; [|done].
  intros (f & Hf & Hp)%find_index_Some. exists f. split; [done|].
  by apply strict_eq_true.
Qed.

Lemma getById_None (x : string) (s : FileStore.t) :
  getById (Some x) s = None -> Some x ∉ fid <$> files s.
Proof.
  unfold getById. intros Hall%find_index_None Hin.
  apply list_elem_of_fmap in Hin as (f & Hx & Hin).
  rewrite Forall_forall in Hall. specialize (Hall f Hin). simpl in Hall.
  rewrite <- Hx in Hall. simpl in Hall. by rewrite String.eqb_refl in Hall.
Qed.

Lemma getByKegId_Some (k : string) (s : FileStore.t) (n : nat) :
  getByKegId k s = Some n -> is_Some (files s !! n).
Proof.
  unfold getByKegId. intros (f & Hf & _)%find_index_Some. by exists f.
Qed.

Lemma NoDup_insert_fresh {A} (l : list A) (i : nat) (x y : A) :
  NoDup l -> l !! i = Some x -> (y = x \/ y ∉ l) -> NoDup (<[i:=y]> l).
Proof.
  intros Hnd Hi [->|Hy].
  - by rewrite list_insert_id.
  - rewrite insert_take_drop by (by eapply lookup_lt_Some).
    rewrite <- (take_drop_middle l i x Hi) in Hnd, Hy.
    apply NoDup_app in Hnd as (H1 & H2 & H3).
    apply NoDup_cons in H3 as (H3 & H4).
    apply NoDup_app. split; [done|]. split.
    + intros z Hz Hz'. apply elem_of_cons in Hz' as [->|Hz'].
      * apply Hy. apply elem_of_app. by left.
      * apply (H2 z Hz). by right.
    + apply NoDup_cons. split; [|done].
      intros Hin. apply Hy. apply elem_of_app. right. by right.
Qed.

Lemma truthy_Some (o : option string) :
  JS.truthy o = true -> exists x, o = Some x.
Proof. destruct o as [x|]; [by exists x | done]. Qed.

Lemma loadPage_record_wellkeyed (keg : Raw) (s : FileStore.t) :
  wellkeyed s -> wellkeyed (loadPage_record keg s).
Proof.
  intros (Hall & Hnd). unfold loadPage_record. cbv zeta.
  destruct (r_deleted keg || r_hidden keg)%bool; [by split|].
  destruct (File_loadFromKeg keg (newFile (kegDb s))) as [file ok] eqn:Eh.
  set (s1 := if JS.gt _ (maxUpdateId s) then _ else s).
  set (s2 := if JS.gt _ (knownUpdateId s1) then _ else s1).
  assert (Hf : files s2 = files s).
  { subst s2 s1. by repeat case_match. }
  assert (Hw : wellkeyed s2) by (unfold wellkeyed; by rewrite Hf).
  clearbody s2. clear s1 Hf Hall Hnd.
  destruct ok.
  - destruct (JS.truthy (fid file)) eqn:Et; simpl; [|done].
    case_bool_decide as Hg; [done|].
    assert (Hkeyed : wellkeyed (with_files (file :: files s2) s2)).
    { destruct Hw as (Hall2 & Hnd2). split; simpl.
      - by constructor.
      - apply NoDup_cons. split; [|done].
        destruct (truthy_Some _ Et) as (x & Hx). rewrite Hx in *.
        apply getById_None. destruct (getById (Some x) s2); [|done].
        exfalso. apply Hg. by eexists. }
    simpl. by destruct (loaded s2).
  - by destruct (_ && _ && _)%bool.
Qed.

(** The fileId of a file after hydration is the one it had or the one in
    the record's props. *)
Lemma hydrate_fid_cases (keg : Raw) (f : File) :
  fid (fst (File_loadFromKeg keg f)) = fid f \/
  fid (fst (File_loadFromKeg keg f)) = r_props keg !! "fileId".
Proof.
  destruct (hydrate_fid keg f) as (Hok & Hsame & _).
  destruct (snd (File_loadFromKeg keg f)) eqn:Eok.
  - destruct (wire_truthy (r_payload keg)) eqn:Ew.
    + right. by apply Hok.
    + left. apply Hsame. by right.
  - left. apply Hsame. by left.
Qed.

Lemma updateFiles_record_wellkeyed (keg : Raw) (sd : FileStore.t * bool) :
  populated keg -> wellkeyed (fst sd) ->
  wellkeyed (fst (updateFiles_record keg sd)).
Proof.
  intros Hpop Hw. destruct sd as [s dirty]. simpl in Hw.
  unfold updateFiles_record. cbv zeta.
  set (s1 := if JS.gt _ (knownUpdateId s) then _ else s).
  assert (Hf : files s1 = files s) by (subst s1; by case_match).
  assert (Hw1 : wellkeyed s1) by (unfold wellkeyed; by rewrite Hf).
  clearbody s1. clear Hf Hw s. destruct Hw1 as (Hall & Hnd).
  set (pf := r_props keg !! "fileId") in *.
  destruct (negb (JS.truthy pf) && negb (r_deleted keg))%bool eqn:Eg;
    [by split|].
  destruct (r_deleted keg || r_hidden keg)%bool eqn:Edel.
  { destruct (match getById pf s1 with Some i => Some i | None => _ end) as [i|];
      simpl; [|by split].
    split; simpl.
    - by apply Forall_delete.
    - rewrite list_fmap_delete. eapply sublist_NoDup; [exact Hnd|].
      apply sublist_delete. }
  assert (Hpf : JS.truthy pf = true).
  { apply orb_false_iff in Edel as (Ed & _). rewrite Ed in Eg.
    destruct (JS.truthy pf); done. }
  destruct (truthy_Some _ Hpf) as (x & Hx).
  destruct (getById pf s1) as [i|] eqn:Eby.
  - (* the record names a fileId that is in the store *)
    apply getById_Some in Eby as (file & Hi & Hfid). rewrite Hi.
    destruct (File_loadFromKeg keg file) as [file' ok] eqn:Eh. simpl.
    pose proof (hydrate_fid_cases keg file) as Hc. rewrite Eh in Hc. simpl in Hc.
    assert (Hsame : fid file' = fid file).
    { destruct Hc as [Hc|Hc]; [done|]. by rewrite Hc, Hfid. }
    split; simpl.
    + apply Forall_insert; [done|]. rewrite Hsame.
      exact (Forall_lookup_1 _ _ _ _ Hall Hi).
    + rewrite list_fmap_insert, Hsame, list_insert_id; [done|].
      by rewrite list_lookup_fmap, Hi.
  - destruct (getByKegId (kegId keg) s1) as [i|] eqn:Ebk.
    + (* the keg is in the store under another fileId *)
      destruct (getByKegId_Some _ _ _ Ebk) as (file & Hi). rewrite Hi.
      destruct (File_loadFromKeg keg file) as [file' ok] eqn:Eh. simpl.
      pose proof (hydrate_fid_cases keg file) as Hc. rewrite Eh in Hc. simpl in Hc.
      split; simpl.
      * apply Forall_insert; [done|].
        destruct Hc as [-> | ->]; [exact (Forall_lookup_1 _ _ _ _ Hall Hi) | done].
      * rewrite list_fmap_insert.
        apply (NoDup_insert_fresh _ _ (fid file)); [done| |].
        { by rewrite list_lookup_fmap, Hi. }
        destruct Hc as [-> | ->]; [by left|]. right.
        fold pf. rewrite Hx in *. by apply getById_None.
    + (* a record not seen before *)
      destruct (File_loadFromKeg keg (newFile (kegDb s1))) as [file' ok] eqn:Eh.
      destruct (negb ok || isEmpty file')%bool eqn:Eskip; simpl; [by split|].
      apply orb_false_iff in Eskip as (Eok & Eempty).
      apply negb_false_iff in Eok. subst ok.
      destruct (hydrate_fid keg (newFile (kegDb s1))) as (Hok & _ & Hver).
      rewrite Eh in Hok, Hver. simpl in Hok, Hver.
      assert (Hfid : fid file' = pf).
      { destruct (wire_truthy (r_payload keg)) eqn:Ew; [by apply Hok|].
        exfalso. unfold isEmpty in Eempty.
        rewrite (Hver eq_refl), (Hpop Ew) in Eempty. done. }
      split; simpl.
      * constructor; [by rewrite Hfid | done].
      * apply NoDup_cons. split; [|done].
        rewrite Hfid, Hx in *. by apply getById_None.
Qed.

Lemma loadPage_records_wellkeyed (kegs : list Raw) (s : FileStore.t) :
  wellkeyed s -> wellkeyed (fold_left (fun s keg => loadPage_record keg s) kegs s).
Proof.
  revert s. induction kegs as [|keg kegs IH]; intros s Hw; simpl; [done|].
  apply IH. by apply loadPage_record_wellkeyed.
Qed.

Lemma updateFiles_records_wellkeyed (kegs : list Raw) (sd : FileStore.t * bool) :
  Forall populated kegs -> wellkeyed (fst sd) ->
  wellkeyed (fst (fold_left (fun sd keg => updateFiles_record keg sd) kegs sd)).
Proof.
  intros Hall. revert sd.
  induction Hall as [|keg kegs Hp Hall IH]; intros sd Hw; simpl; [done|].
  apply IH. by apply updateFiles_record_wellkeyed.
Qed.

Lemma step_wellkeyed (s : FileStore.t) (e : Event) :
  populated_answers e -> wellkeyed s -> wellkeyed (step s e).
Proof.
  intros He Hw. destruct e as [|kegs|m|kegs| | | |]; simpl in *.
  - unfold loadAllFiles. by destruct (loading s || loaded s)%bool.
  - unfold loadAllFiles_resume, loadPage_then.
    destruct (awaitingPage s); simpl; [|done].
    pose proof (loadPage_records_wellkeyed kegs s Hw) as Hw'.
    by destruct (0 <? length kegs)%nat.
  - unfold onFileDigestUpdate, updateFiles. destruct (paused s); [done|].
    destruct (loaded s && String.eqb m (maxUpdateId s))%bool; [done|].
    simpl. by destruct (_ || _ || _)%bool.
  - unfold updateFiles_then. destruct (updating s); simpl; [|done].
    pose proof (updateFiles_records_wellkeyed kegs (s, false) He Hw) as Hw'.
    destruct (fold_left _ kegs (s, false)) as [s1 dirty]. simpl in *.
    by destruct (JS.lt (knownUpdateId s1) (cycleMaxId s1)).
  - done.
  - unfold resume. by destruct (paused s).
  - unfold loadPage_retry. by destruct (awaitingPage s).
  - unfold updateFiles_retry. by destruct (updating s).
Qed.

Lemma run_wellkeyed (es : list Event) (s : FileStore.t) :
  Forall populated_answers es -> wellkeyed s -> wellkeyed (run s es).
Proof.
  intros Hall. revert s.
  induction Hall as [|e es He Hall IH]; intros s Hw; simpl; [done|].
  apply IH. by apply step_wellkeyed.
Qed.

Lemma getById_files (i : option string) (s s' : FileStore.t) :
  files s' = files s -> getById i s' = getById i s.
Proof. intros Hf. unfold getById. by rewrite Hf. Qed.

Lemma loadPage_record_skips (keg : Raw) (s : FileStore.t) : page_skips keg s.
Proof.
  unfold page_skips, loadPage_record. cbv zeta. intros Hskip.
  destruct (r_deleted keg || r_hidden keg)%bool; [done|].
  destruct (File_loadFromKeg keg (newFile (kegDb s))) as [file ok] eqn:Eh.
  simpl in Hskip.
  set (s1 := if JS.gt _ (maxUpdateId s) then _ else s).
  set (s2 := if JS.gt _ (knownUpdateId s1) then _ else s1).
  assert (Hf : files s2 = files s).
  { subst s2 s1. by repeat case_match. }
  rewrite <- (getById_files _ s s2 Hf) in Hskip. rewrite <- Hf.
  clearbody s2. clear s1 Hf.
  destruct ok.
  - destruct (JS.truthy (fid file)) eqn:Et; simpl; [|done].
    case_bool_decide as Hg; [done|].
    destruct Hskip as [?|[?|?]]; done.
  - by destruct (_ && _ && _)%bool.
Qed.

Lemma updateFiles_record_skips (keg : Raw) (s : FileStore.t) (dirty : bool) :
  update_skips keg s dirty.
Proof.
  unfold update_skips, updateFiles_record. cbv zeta.
  set (s1 := if JS.gt _ (knownUpdateId s) then _ else s).
  assert (Hf : files s1 = files s) by (subst s1; by case_match).
  assert (Hdb : kegDb s1 = kegDb s) by (subst s1; by case_match).
  rewrite <- !(getById_files _ s s1 Hf).
  assert (Hk : getByKegId (kegId keg) s = getByKegId (kegId keg) s1).
  { unfold getByKegId. by rewrite Hf. }
  rewrite Hk, <- Hf, <- Hdb. clearbody s1. clear Hf Hdb Hk s.
  set (pf := r_props keg !! "fileId").
  split; [|split].
  - intros Hd Ht. by rewrite Ht, Hd.
  - intros Eby Ebk Hfail.
    destruct (negb (JS.truthy pf) && negb (r_deleted keg))%bool; [done|].
    rewrite Eby, Ebk. destruct (r_deleted keg || r_hidden keg)%bool; [done|].
    destruct (File_loadFromKeg keg (newFile (kegDb s1))) as [file' ok].
    simpl in Hfail. by subst ok.
  - intros (i & Eby).
    destruct (negb (JS.truthy pf) && negb (r_deleted keg))%bool; [done|].
    rewrite Eby. apply getById_Some in Eby as (file & Hi & Hfid).
    destruct (r_deleted keg || r_hidden keg)%bool; simpl.
    + split; [|done]. rewrite length_delete; [lia | by eexists].
    + rewrite Hi.
      destruct (File_loadFromKeg keg file) as [file' ok] eqn:Eh. simpl.
      split; [by rewrite length_insert|]. intros _.
      pose proof (hydrate_fid_cases keg file) as Hc. rewrite Eh in Hc. simpl in Hc.
      assert (Hsame : fid file' = fid file).
      { destruct Hc as [Hc|Hc]; [done|]. by rewrite Hc, Hfid. }
      rewrite list_fmap_insert, Hsame, list_insert_id; [done|].
      by rewrite list_lookup_fmap, Hi.
Qed.

(** The files in memory stay keyed as long as no update cycle is
    answered with a record that has no payload and is not at version 1.
    From a new store, through any sequence of such events, every file in
    memory has a non-empty fileId and no two files share one. A record
    that fails to hydrate, lacks a fileId or names a fileId already in
    the store adds no file, and the loop goes on with the records after
    it. *)
Theorem files_wellkeyed (d : KegDb) (es : list Event) :
  Forall populated_answers es ->
  wellkeyed (run (create d) es) /\
  (forall keg s, page_skips keg s) /\
  (forall keg s dirty, update_skips keg s dirty) /\
  (forall keg rest s,
      fst (loadPage_then (keg :: rest) s)
      = fst (loadPage_then rest (loadPage_record keg s))) /\
  (forall keg rest sd,
      fold_left (fun sd keg => updateFiles_record keg sd) (keg :: rest) sd
      = fold_left (fun sd keg => updateFiles_record keg sd) rest
                  (updateFiles_record keg sd)).
Proof.
  intros Hall. split; [|split; [|split; [|split]]].
  - apply run_wellkeyed; [done|]. split; simpl; constructor.
  - apply loadPage_record_skips.
  - apply updateFiles_record_skips.
  - done.
  - done.
Qed.

End FileStoreFacts.

Section FileStoreExamples.
Import Keg FileStore Example.
Local Open Scope list_scope.

(** C3 (amended). When the digest reports a maximum m above
    knownUpdateId to a loaded, idle store and the fetch answers, the
    cycle leaves in knownUpdateId the greatest, in the order JavaScript
    gives strings, of m and the collectionVersions fetched: it is at
    least m, also when nothing was fetched, and at least every fetched
    collectionVersion. With ids of equal width, from knownUpdateId "00",
    a digest maximum "10" and three records at "03", "07" and "10", the
    store ends with exactly those three files and knownUpdateId "10". *)
Theorem update_cycle_watermark :
  (forall (codec : Codec FilePayload) (s : FileStore.t) (m : string)
          (kegs : list Raw),
      loaded s = true -> updating s = false -> paused s = false ->
      m <> maxUpdateId s -> JS.lt (knownUpdateId s) m = true ->
      let s' := run s [DigestUpdate m; UpdateResponse kegs] in
      jle m (knownUpdateId s') /\
      Forall (fun keg => jle (r_collectionVersion keg) (knownUpdateId s')) kegs /\
      (knownUpdateId s' = m \/ knownUpdateId s' ∈ map r_collectionVersion kegs)) /\
  (let s' := run (ready "00")
                 [DigestUpdate "10";
                  UpdateResponse [record "1001" "f1" "03" 2;
                                  record "1002" "f2" "07" 2;
                                  record "1003" "f3" "10" 2]] in
   knownUpdateId s' = "10" /\
   fid <$> files s' = [Some "f3"; Some "f2"; Some "f1"] /\
   Keg.id <$> files s' = [Some "1003"; Some "1002"; Some "1001"]).
Proof.
  split.
  - intros codec s m kegs Hld Hup Hp Hnew Hlt s'.
    destruct (update_cycle_known s m kegs Hld Hup Hp Hnew Hlt) as (?&?&?&_).
    by repeat split.
  - vm_compute. by repeat split.
Qed.

(** An idle store at "00" hears of "10" and fetches one record at "07". *)
Lemma update_cycle_watermark_witness :
  let s' := run (ready "00")
                [DigestUpdate "10"; UpdateResponse [record "1001" "f1" "07" 2]] in
  jle "10" (knownUpdateId s') /\
  Forall (fun keg => jle (r_collectionVersion keg) (knownUpdateId s'))
         [record "1001" "f1" "07" 2] /\
  (knownUpdateId s' = "10" \/
   knownUpdateId s' ∈ map r_collectionVersion [record "1001" "f1" "07" 2]).
Proof.
  apply (proj1 update_cycle_watermark codec (ready "00") "10"
               [record "1001" "f1" "07" 2]);
    try reflexivity.
  discriminate.
Defined.

(** C3 as stated fails: with the ids "0", "3", "7" and "10" of the
    scenario, "10" is below "7" as a string, so the cycle ends with
    knownUpdateId "7". *)
Lemma update_cycle_scenario_stops_at_7 :
  knownUpdateId
    (run (ready "0")
         [DigestUpdate "10";
          UpdateResponse [record "1001" "f1" "3" 2;
                          record "1002" "f2" "7" 2;
                          record "1003" "f3" "10" 2]])
  = "7" /\
  knownUpdateId
    (run (ready "0")
         [DigestUpdate "10";
          UpdateResponse [record "1001" "f1" "3" 2;
                          record "1002" "f2" "7" 2;
                          record "1003" "f3" "10" 2]])
  <> "10".
Proof. split; vm_compute; [reflexivity | discriminate]. Qed.

(** C4 as stated fails: after these events knownUpdateId is "7" and
    maxUpdateId is "6". *)
Lemma known_overtakes_max :
  knownUpdateId (run (create selfDb) overtaken) = "7" /\
  maxUpdateId (run (create selfDb) overtaken) = "6" /\
  ~ jle (knownUpdateId (run (create selfDb) overtaken))
        (maxUpdateId (run (create selfDb) overtaken)).
Proof.
  split; [vm_compute; reflexivity|]. split; [vm_compute; reflexivity|].
  unfold jle. vm_compute. discriminate.
Qed.

Lemma in_step_orderly : orderly (create selfDb) in_step.
Proof.
  simpl. repeat split.
  constructor; [|constructor]. vm_compute. reflexivity.
Defined.

Lemma known_at_most_max_witness :
  jle (knownUpdateId (run (create selfDb) in_step))
      (maxUpdateId (run (create selfDb) in_step)).
Proof. apply known_at_most_max. exact in_step_orderly. Defined.

(** *** Initial load, examples *)

Lemma loadAllFiles_pages_witness :
  let s := run (create selfDb) (CallLoadAllFiles :: map PageResponse [page12]) in
  let s' := step s (PageResponse []) in
  requests s = map (pageRequestOf selfDb) (Some "999" :: map firstKegId [page12]) /\
  Forall page_shaped (requests s) /\
  (loading s = true /\ loaded s = false) /\
  (loading s' = false /\ loaded s' = true /\ requests s' = requests s /\
   SubscribeDigest ∈ effects s').
Proof.
  apply (loadAllFiles_pages selfDb [page12]).
  constructor; [discriminate | constructor].
Defined.

(** C5. The paging cursor is not the maximum keg id of the page.
    After a first page in ascending order of keg id, "1001" then "1002",
    the next request starts from "1001", the keg id of the page's first
    record, which [_loadPage] returns under the name [maxId], and not
    from the page's maximum, "1002". *)
Lemma next_page_starts_from_first_id :
  ascending page12 /\
  maxKegId page12 = Some "1002" /\
  lr_fromKegId <$> requests (run (create selfDb)
                                 [CallLoadAllFiles; PageResponse page12])
  = [Some "999"; Some "1001"] /\
  requests (run (create selfDb) [CallLoadAllFiles; PageResponse page12])
  <> map (pageRequestOf selfDb) [Some "999"; maxKegId page12].
Proof.
  split.
  { repeat constructor. }
  split; [vm_compute; reflexivity|].
  split; [vm_compute; reflexivity|].
  intros E. apply (f_equal (fmap lr_fromKegId)) in E.
  vm_compute in E. discriminate E.
Qed.

(** *** The files in memory, examples *)

(** C6. A file without fileId enters the store through an update
    cycle. Answered with a record that has a fileId in its props but no
    payload, at version 2, [updateFiles] puts a file without fileId into
    the store: it looks at the fileId of the record's props before
    hydration and not at the file's after it. The same record in a page
    of the initial load is skipped, since [_loadPage] looks at the
    file's fileId after hydration. *)
Lemma file_without_fileId :
  fid <$> files (run (create selfDb) with_bare) = [None] /\
  ~ wellkeyed (run (create selfDb) with_bare) /\
  files (run (create selfDb)
             [CallLoadAllFiles; PageResponse [bare]; PageResponse []]) = [].
Proof.
  split; [vm_compute; reflexivity|]. split; [|vm_compute; reflexivity].
  intros [Hall _]. vm_compute in Hall.
  apply Forall_cons in Hall as [Ht _]. discriminate Ht.
Qed.

Lemma in_step_populated : Forall populated_answers in_step.
Proof.
  repeat constructor. intros Hw. discriminate Hw.
Defined.

Lemma files_wellkeyed_witness :
  wellkeyed (run (create selfDb) in_step) /\
  (forall keg s, page_skips keg s) /\
  (forall keg s dirty, update_skips keg s dirty) /\
  (forall keg rest s,
      fst (loadPage_then (keg :: rest) s)
      = fst (loadPage_then rest (loadPage_record keg s))) /\
  (forall keg rest sd,
      fold_left (fun sd keg => updateFiles_record keg sd) (keg :: rest) sd
      = fold_left (fun sd keg => updateFiles_record keg sd) rest
                  (updateFiles_record keg sd)).
Proof. apply files_wellkeyed. exact in_step_populated. Defined.

Example in_step_files :
  fid <$> files (run (create selfDb) in_step) = [Some "f2"; Some "f1"].
Proof. vm_compute. reflexivity. Qed.

End FileStoreExamples.

(** ** Descriptor migration *)

Section MigrationFacts.
Import Keg FileStore Migration.
Variable env : Env.


Lemma classify_ok (r : result unit) :
  classify env r = Saved -> r = Ok tt.
Proof.
  destruct r as [[]|e]; simpl; [done|].
  destruct e; try done. by destruct (_ =? _).
Qed.

Lemma classify_conflict (r : result unit) :
  classify env r = Conflict -> r = Throw (ServerError (malformedRequest env)).
Proof.
  destruct r as [[]|e]; simpl; [done|].
  destruct e; try done. destruct (Z.eqb_spec code (malformedRequest env)); [|done].
  by subst.
Qed.

(** An attempt that saves, or that meets the conflict answer, resolves
    with [migrating] cleared. *)
Lemma attempt_settles (keg : Raw) (n : nat) (file : File) :
  attemptOutcome env keg n = Saved \/ attemptOutcome env keg n = Conflict ->
  migrateAttempt env keg n file = (settled file, Ok tt).
Proof.
  unfold attemptOutcome, migrateAttempt, catch, on_data, settled,
    bind, lift, ret, throw, modify.
  destruct (JS.truthy (r_props keg !! "descriptor")).
  - intros [Hs|Hc].
    + by rewrite (classify_ok _ Hs).
    + rewrite (classify_conflict _ Hc). simpl. by rewrite Z.eqb_refl.
  - destruct (createDescriptor env n) as [[]|e] eqn:Ec.
    + intros [Hs|Hc].
      * by rewrite (classify_ok _ Hs).
      * rewrite (classify_conflict _ Hc). simpl. by rewrite Z.eqb_refl.
    + intros [Hs|Hc].
      * by apply classify_ok in Hs.
      * apply classify_conflict in Hc. injection Hc as ->.
        simpl. by rewrite Z.eqb_refl.
Qed.

(** Any other attempt rejects and leaves the file as it is. *)
Lemma attempt_fails (keg : Raw) (n : nat) (file : File) :
  attemptOutcome env keg n = Failed -> exists e, migrateAttempt env keg n file = (file, Throw e).
Proof.
  unfold attemptOutcome, migrateAttempt, catch, on_data,
    bind, lift, ret, throw, modify.
  assert (Hcl : forall r, classify env r = Failed ->
                exists e, r = Throw e /\
                  match e with
                  | ServerError code => (code =? malformedRequest env) = false
                  | _ => True
                  end).
  { intros [[]|e]; simpl; [done|]. intros Hf. exists e. split; [done|].
    destruct e; try done. by destruct (_ =? _). }
  destruct (JS.truthy (r_props keg !! "descriptor")).
  - intros (e & -> & He)%Hcl. exists e. simpl.
    destruct e; try done. by rewrite He.
  - destruct (createDescriptor env n) as [[]|e'] eqn:Ec.
    + intros (e & -> & He)%Hcl. exists e. simpl.
      destruct e; try done. by rewrite He.
    + intros (e & [= <-] & He)%Hcl. exists e'. simpl.
      destruct e'; try done. by rewrite He.
Qed.

Lemma retry_settles (keg : Raw) (retries k n0 : nat) (file : File) :
  (k <= retries)%nat ->
  (forall j, (j < k)%nat -> attemptOutcome env keg (n0 + j) = Failed) ->
  attemptOutcome env keg (n0 + k) = Saved \/ attemptOutcome env keg (n0 + k) = Conflict ->
  retryUntilSuccess (migrateAttempt env keg) retries n0 file = (settled file, Ok tt).
Proof.
  revert k n0. induction retries as [|r IH]; intros k n0 Hk Hfail Hend.
  - assert (k = 0)%nat as -> by lia. rewrite Nat.add_0_r in Hend.
    simpl. by rewrite (attempt_settles keg n0 file Hend).
  - destruct k as [|k].
    + rewrite Nat.add_0_r in Hend.
      simpl. by rewrite (attempt_settles keg n0 file Hend).
    + destruct (attempt_fails keg n0 file) as (e & He).
      { rewrite <- (Nat.add_0_r n0). apply Hfail. lia. }
      simpl. rewrite He. apply (IH k (S n0)); [lia| |].
      * intros j Hj. replace (S n0 + j)%nat with (n0 + S j)%nat by lia.
        apply Hfail. lia.
      * by replace (S n0 + k)%nat with (n0 + S k)%nat by lia.
Qed.

Lemma retry_exhausted (keg : Raw) (retries n0 : nat) (file : File) :
  (forall j, (j <= retries)%nat -> attemptOutcome env keg (n0 + j) = Failed) ->
  exists e, retryUntilSuccess (migrateAttempt env keg) retries n0 file = (file, Throw e).
Proof.
  revert n0. induction retries as [|r IH]; intros n0 Hfail.
  - destruct (attempt_fails keg n0 file) as (e & He).
    { rewrite <- (Nat.add_0_r n0). apply Hfail. lia. }
    exists e. simpl. by rewrite He.
  - destruct (attempt_fails keg n0 file) as (e & He).
    { rewrite <- (Nat.add_0_r n0). apply Hfail. lia. }
    destruct (IH (S n0)) as (e' & He').
    { intros j Hj. replace (S n0 + j)%nat with (n0 + S j)%nat by lia.
      apply Hfail. lia. }
    exists e'. simpl. by rewrite He, He'.
Qed.

(** C7. The owner's migration of a legacy file (format 0) ends according
    to what its attempts meet. If, after at most 10 failed attempts, an
    attempt is answered with the malformed-request error (another client
    has migrated the file), or saves, the file ends with the latest format
    and migrating false. If the first attempt and all 10 retries fail, the
    file is back at format 0 with migrating false. *)
Theorem owner_migration (keg : Raw) (file : File) :
  format (data file) = 0 ->
  fileOwner (data file) = username env ->
  let file' := fst (onFileAdded env keg file) in
  (forall n, (n <= 10)%nat ->
             (forall j, (j < n)%nat -> attemptOutcome env keg j = Failed) ->
             attemptOutcome env keg n = Conflict ->
             format (data file') = latestFormat env /\ migrating (data file') = false) /\
  (forall n, (n <= 10)%nat ->
             (forall j, (j < n)%nat -> attemptOutcome env keg j = Failed) ->
             attemptOutcome env keg n = Saved ->
             format (data file') = latestFormat env /\ migrating (data file') = false) /\
  ((forall j, (j <= 10)%nat -> attemptOutcome env keg j = Failed) ->
   format (data file') = 0 /\ migrating (data file') = false).
Proof.
  intros Hfmt Howner file'. subst file'.
  unfold onFileAdded, migrationTask.
  set (R := retryUntilSuccess (migrateAttempt env keg) 10 0).
  unfold catch, on_data, bind, get, modify.
  rewrite Hfmt, Howner, String.eqb_refl. simpl.
  set (file1 := set_data _ _). subst R.
  assert (Hsettle : forall n, (n <= 10)%nat ->
             (forall j, (j < n)%nat -> attemptOutcome env keg j = Failed) ->
             attemptOutcome env keg n = Saved \/ attemptOutcome env keg n = Conflict ->
             retryUntilSuccess (migrateAttempt env keg) 10 0 file1 = (settled file1, Ok tt)).
  { intros n Hn Hfail Hend. by apply (retry_settles keg 10 n 0 file1). }
  split; [|split].
  - intros n Hn Hfail Hend. rewrite (Hsettle n Hn Hfail); [done | by right].
  - intros n Hn Hfail Hend. rewrite (Hsettle n Hn Hfail); [done | by left].
  - intros Hfail. destruct (retry_exhausted keg 10 0 file1 Hfail) as (e & He).
    by rewrite He.
Qed.

End MigrationFacts.

Section MigrationExamples.
Import Keg FileStore Migration Example.

(** The scenario of the spec: the save fails twice and succeeds on the
    third attempt. *)
Lemma owner_migration_witness :
  format (data (fst (onFileAdded alice (record "1001" "f1" "03" 3) legacy))) = 1 /\
  migrating (data (fst (onFileAdded alice (record "1001" "f1" "03" 3) legacy)))
  = false.
Proof.
  destruct (owner_migration alice (record "1001" "f1" "03" 3) legacy
                            eq_refl eq_refl)
    as (_ & Hsaved & _).
  apply (Hsaved 2%nat).
  - lia.
  - intros j Hj. destruct j as [|[|j]]; [reflexivity | reflexivity | lia].
  - reflexivity.
Defined.

Example migration_gives_up :
  let file' := fst (onFileAdded alice_offline (record "1001" "f1" "03" 3) legacy) in
  format (data file') = 0 /\ migrating (data file') = false.
Proof. vm_compute. split; reflexivity. Qed.

End MigrationExamples.

(** ** Folders *)

Section FolderFacts.
Import Folders.
Context `{JS.Lowering}.

Lemma findFolderByName_sibling (s : Folders.t) (tf : Folder) (nm : string) :
  (exists c f, c ∈ folders tf /\ heap s !! c = Some f /\
               normalizedName f = JS.toLowerCase nm) ->
  is_Some (findFolderByName (heap s) tf nm).
Proof.
  intros (c & f & Hin & Hc & Hname). unfold findFolderByName.
  destruct (List.find _ (folders tf)) as [r|] eqn:Efind; [by eexists|].
  exfalso. apply list_elem_of_In in Hin.
  pose proof (List.find_none _ _ Efind c Hin) as Hnone. simpl in Hnone.
  rewrite Hc, Hname, String.eqb_refl in Hnone. done.
Qed.

(** C8. When the folder that createFolder(name, parent) targets, the
    parent or the root for a null parent, has a child folder with the
    same name up to letter case, the call throws the
    folder-already-exists error, and the folders, the tree and the map
    from folder id to folder are as before: nothing is created or
    renamed. *)
Theorem createFolder_collision (s : Folders.t) (nm : string)
        (parent : option Ref) (randomId : string) (now : Z) :
  hasSibling s (default (root s) parent) nm ->
  snd (createFolder nm parent randomId now s) = Throw FolderExists /\
  heap (fst (createFolder nm parent randomId now s)) = heap s /\
  root (fst (createFolder nm parent randomId now s)) = root s /\
  folderResolveMap (fst (createFolder nm parent randomId now s))
  = folderResolveMap s.
Proof.
  intros (tf & c & f & Ht & Hin & Hc & Hname). unfold createFolder.
  rewrite Ht.
  destruct (findFolderByName_sibling s tf nm) as (r & Hr).
  { by exists c, f. }
  rewrite Hr. done.
Qed.

End FolderFacts.

Section FolderExamples.
Import Folders Example.

Lemma docs_has_sibling : hasSibling docsTree 0%nat "Docs".
Proof.
  exists {| folderId := None; name := None; createdAt := 0; isDeleted := false;
            files := []; folders := [1%nat] |},
    1%nat,
    {| folderId := Some "a1b2"; name := Some "Docs";
       createdAt := 1500000000000; isDeleted := false;
       files := []; folders := [] |}.
  split; [reflexivity|]. split; [by left|]. split; reflexivity.
Defined.

(** The scenario of the spec: "Docs" exists under the root and a folder
    "Docs" is created under the root. *)
Lemma createFolder_collision_witness :
  snd (createFolder "Docs" None "c3d4" 1500000000001 docsTree) = Throw FolderExists /\
  heap (fst (createFolder "Docs" None "c3d4" 1500000000001 docsTree))
  = heap docsTree /\
  root (fst (createFolder "Docs" None "c3d4" 1500000000001 docsTree))
  = root docsTree /\
  folderResolveMap (fst (createFolder "Docs" None "c3d4" 1500000000001 docsTree))
  = folderResolveMap docsTree.
Proof. apply createFolder_collision. exact docs_has_sibling. Defined.

Example createFolder_other_case :
  snd (createFolder "DOCS" None "c3d4" 1500000000001 docsTree) = Throw FolderExists.
Proof. vm_compute. reflexivity. Qed.

Example createFolder_new_name :
  match createFolder "Pictures" None "c3d4" 1500000000001 docsTree with
  | (s', Ok r) =>
      folderResolveMap s' !! "c3d4" = Some r /\
      (folders <$> heap s' !! 0%nat) = Some [1%nat; r] /\
      (name <$> heap s' !! r) = Some (Some "Pictures")
  | _ => False
  end.
Proof. vm_compute. repeat split. Qed.

End FolderExamples.

(** * Further properties *)

(** ** Kegs: hydration and save, case by case *)

Section MoreKegFacts.
Import Keg.
Context {D P : Type} `{Methods D P} `{Codec P}.

Lemma stamped_keeps (r : Raw) (k : Keg.t D) :
  props (stamped r k) = props k /\ data (stamped r k) = data k /\
  type (stamped r k) = type k /\ db (stamped r k) = db k /\
  plaintext (stamped r k) = plaintext k /\
  overrideKey (stamped r k) = overrideKey k /\
  id (stamped r k) = Some (kegId r).
Proof. by repeat split. Qed.

(** X1. What [loadFromKeg] does, case by case. A keg with an id that is
    offered the record of another keg throws the rehydrate error and is
    untouched. Otherwise a record without payload hydrates as an empty
    keg: id, version, owner and collectionVersion are taken from the
    record, nothing is decrypted and the record's props are not applied.
    Otherwise every failure leaves the keg with exactly that metadata
    changed, and a success is the metadata, then the payload fields of the
    parsed object, then the record's props. *)
Theorem loadFromKeg_cases (k : Keg.t D) (r : Raw) :
  (mismatch k r = true ->
   loadFromKeg r k = (k, Throw (RehydrateError (default "" (id k)) (kegId r)))) /\
  (mismatch k r = false -> wire_truthy (r_payload r) = false ->
   loadFromKeg r k = (stamped r k, Ok tt)) /\
  (mismatch k r = false ->
   forall e, snd (loadFromKeg r k) = Throw e -> fst (loadFromKeg r k) = stamped r k) /\
  (mismatch k r = false -> wire_truthy (r_payload r) = true ->
   snd (loadFromKeg r k) = Ok tt ->
   exists w payload k',
     r_payload r = Some w /\
     (if plaintext k then JSON_parse w = Ok payload
      else exists text, decryptString w (keyOf k) = Ok text /\
                        JSON_parse (WString text) = Ok payload) /\
     deserializeKegPayload (fields payload) (stamped r k) = Ok k' /\
     fst (loadFromKeg r k) = deserializeProps (r_props r) k').
Proof.
  unfold mismatch.
  unfold loadFromKeg, detectTampering, bind, get, modify, lift, ret, throw.
  destruct (JS.truthy (id k) && negb (JS.strict_eq (id k) (Some (kegId r))))%bool.
  { repeat split; intros; done. }
  split; [done|]. simpl.
  destruct (wire_truthy (r_payload r)) eqn:Et; simpl.
  2:{ repeat split; intros; done. }
  destruct (r_payload r) as [w|] eqn:Ew; [|done]. cbn [default].
  fold (stamped r k).
  change (keyOf (stamped r k)) with (keyOf k).
  destruct (plaintext k) eqn:Ep; simpl.
  - destruct (JSON_parse w) as [payload|e0] eqn:Eparse; simpl.
    2:{ repeat split; intros; done. }
    destruct (deserializeKegPayload (fields payload) (stamped r k))
      as [k'|e0] eqn:Ed; simpl.
    2:{ repeat split; intros; done. }
    split; [done|]. split; [intros; done|].
    intros _ _ _. by exists w, payload, k'.
  - destruct (decryptString w (keyOf k)) as [text|e0] eqn:Edec; simpl.
    2:{ repeat split; intros; done. }
    destruct (JSON_parse (WString text)) as [payload|e0] eqn:Eparse; simpl.
    2:{ repeat split; intros; done. }
    destruct (sys payload) as [h|]; simpl.
    2:{ repeat split; intros; done. }
    destruct (JS.strict_eq (sys_kegId h) (Some (kegId r))); simpl.
    2:{ repeat split; intros; done. }
    destruct (String.eqb (sys_type h) (type k)); simpl.
    2:{ repeat split; intros; done. }
    destruct (deserializeKegPayload (fields payload) (stamped r k))
      as [k'|e0] eqn:Ed; simpl.
    2:{ repeat split; intros; done. }
    split; [done|]. split; [intros; done|].
    intros _ _ _. exists w, payload, k'. split; [done|].
    split; [by exists text | done].
Qed.

(** X2. What an encrypted keg saves, it hydrates. If the codec gives the
    text back when it decrypts what it encrypted and the object back when
    it parses what it printed, then the payload [_internalSave] prepares
    for a keg, served back in a record under the keg's id, passes the
    anti-tamper check of any instance of the same type that has no id yet
    or has this id: hydration applies the saved fields and the record's
    props, and fails only if deserializeKegPayload does. *)
Theorem saved_payload_hydrates (k k' : Keg.t D) (r : Raw) (p : P)
        (text b : string) (sent : Props) :
  plaintext k = false -> plaintext k' = false ->
  serializeKegPayload k = Ok p ->
  JSON_stringify (sealed k p) = Ok text ->
  encryptString text (keyOf k) = Ok b ->
  serializeProps k = Ok sent ->
  decryptString (WBinary b) (keyOf k') = Ok text ->
  JSON_parse (WString text) = Ok (sealed k p) ->
  id k = Some (kegId r) -> r_payload r = Some (WBinary b) ->
  type k' = type k -> (JS.truthy (id k') = true -> id k' = id k) ->
  prepare k = Ok (WBinary b, sent) /\
  loadFromKeg r k' =
  match deserializeKegPayload p (stamped r k') with
  | Ok k'' => (deserializeProps (r_props r) k'', Ok tt)
  | Throw e => (stamped r k', Throw e)
  end.
Proof.
  intros Hpk Hpk' Hser Hstr Henc Hprops Hdec Hparse Hid Hpay Hty Hid'.
  split.
  { unfold prepare. unfold sealed in Hstr.
    rewrite Hser, Hpk. simpl. by rewrite Hstr, Henc, Hprops. }
  unfold loadFromKeg, detectTampering, bind, get, modify, lift, ret, throw.
  assert (Hguard : (JS.truthy (id k') && negb (JS.strict_eq (id k') (Some (kegId r))))%bool
                   = false).
  { destruct (JS.truthy (id k')) eqn:Et; [|done].
    rewrite (Hid' eq_refl), Hid. simpl. by rewrite String.eqb_refl. }
  rewrite Hguard, Hpay. simpl. rewrite Hpk'. simpl.
  change (keyOf _) with (keyOf k'). rewrite Hdec, Hparse. simpl.
  rewrite Hid. simpl. rewrite String.eqb_refl. simpl.
  rewrite Hty, String.eqb_refl. simpl.
  fold (stamped r k').
  by destruct (deserializeKegPayload p (stamped r k')).
Qed.

(** X3. A plaintext keg never looks at the anti-tamper header: a record
    whose payload parses hydrates whatever header the parsed object has,
    or if it has none. *)
Theorem plaintext_ignores_header (k : Keg.t D) (r : Raw) (w : Wire)
        (payload : Payload P) (k' : Keg.t D) :
  plaintext k = true -> mismatch k r = false ->
  r_payload r = Some w -> wire_truthy (Some w) = true ->
  JSON_parse w = Ok payload ->
  deserializeKegPayload (fields payload) (stamped r k) = Ok k' ->
  loadFromKeg r k = (deserializeProps (r_props r) k', Ok tt).
Proof.
  intros Hp Hm Hw Ht Hparse Hd.
  unfold loadFromKeg, detectTampering, bind, get, modify, lift, ret, throw.
  unfold mismatch in Hm. rewrite Hm, Hw, Ht. simpl. rewrite Hp. simpl.
  rewrite Hparse. simpl. fold (stamped r k). by rewrite Hd.
Qed.

(** X4. A save that succeeds was acknowledged for exactly the state the
    keg is left in: the update request the server answered carried the
    keg's id, type and version as they are after the call, and the keg
    holds the collectionVersion of that answer. *)
Theorem saveToServer_acknowledged (socket : Socket) (k : Keg.t D) :
  snd (saveToServer socket k) = Ok tt ->
  exists q resp,
    send_update socket q = Ok resp /\
    q_kegId q = id (fst (saveToServer socket k)) /\
    q_type q = type (fst (saveToServer socket k)) /\
    q_version q = version (fst (saveToServer socket k)) /\
    q_collectionId q = db_id (db (fst (saveToServer socket k))) /\
    collectionVersion (fst (saveToServer socket k)) = u_collectionVersion resp.
Proof.
  assert (Hint : forall k0 : Keg.t D,
             snd (_internalSave socket k0) = Ok tt ->
             exists q resp,
               send_update socket q = Ok resp /\
               q_kegId q = id (fst (_internalSave socket k0)) /\
               q_type q = type (fst (_internalSave socket k0)) /\
               q_version q = version (fst (_internalSave socket k0)) /\
               q_collectionId q = db_id (db (fst (_internalSave socket k0))) /\
               collectionVersion (fst (_internalSave socket k0))
               = u_collectionVersion resp).
  { intros k0. rewrite internalSave_eq.
    destruct (prepare k0) as [[payload sent]|e]; [|done].
    destruct (send_update socket (updateOf k0 payload sent)) as [resp|e] eqn:Es;
      [|done].
    intros _. by exists (updateOf k0 payload sent), resp. }
  destruct (JS.truthy (id k)) eqn:Hid.
  - rewrite (saveToServer_with_id _ _ Hid). apply Hint.
  - rewrite (saveToServer_without_id _ _ Hid).
    destruct (send_create socket _ _) as [r|e]; [apply Hint | done].
Qed.

(** X5. A save never takes the id away and never lowers the version of a
    keg that has its id; only the create response gives a keg its id. *)
Theorem saveToServer_keeps_id (socket : Socket) (k : Keg.t D) :
  JS.truthy (id k) = true ->
  id (fst (saveToServer socket k)) = id k /\
  type (fst (saveToServer socket k)) = type k /\
  props (fst (saveToServer socket k)) = props k /\
  data (fst (saveToServer socket k)) = data k /\
  version k <= version (fst (saveToServer socket k)) <= version k + 1.
Proof.
  intros Hid. rewrite (saveToServer_with_id _ _ Hid), internalSave_eq.
  destruct (prepare k) as [[payload sent]|e]; simpl.
  - destruct (send_update socket _); simpl; repeat split; lia.
  - repeat split; lia.
Qed.

End MoreKegFacts.

Section MoreKegExamples.
Import Keg FileStore Example Sample.

Lemma saved_payload_hydrates_witness :
  prepare file8 = Ok (WBinary "8|file||", ∅) /\
  loadFromKeg stored8 (newFile selfDb) =
  match deserializeKegPayload {| p_name := ""; p_key := "" |}
                              (stamped stored8 (newFile selfDb)) with
  | Ok k'' => (deserializeProps (r_props stored8) k'', Ok tt)
  | Throw e => (stamped stored8 (newFile selfDb), Throw e)
  end.
Proof.
  apply (saved_payload_hydrates file8 (newFile selfDb) stored8
           {| p_name := ""; p_key := "" |} "8|file||" "8|file||" ∅);
    try reflexivity.
  intros Ht. discriminate Ht.
Defined.

Lemma plaintext_ignores_header_witness :
  loadFromKeg plainRecord plain8
  = (deserializeProps (r_props plainRecord)
       (set_data {| fileId := None; name := "a.txt"; format := 0;
                    migrating := false; blobKey := "blobkey";
                    descriptorKey := None; fileOwner := "";
                    selected := false; show := true |}
                 (stamped plainRecord plain8)),
     Ok tt).
Proof.
  apply (plaintext_ignores_header plain8 plainRecord
           (WString "7|file|a.txt|blobkey")
           {| sys := Some {| sys_kegId := Some "7"; sys_type := "file" |};
              fields := {| p_name := "a.txt"; p_key := "blobkey" |} |});
    reflexivity.
Defined.

Lemma saveToServer_acknowledged_witness :
  exists q resp,
    send_update friendly q = Ok resp /\
    q_kegId q = id (fst (saveToServer friendly file8)) /\
    q_type q = type (fst (saveToServer friendly file8)) /\
    q_version q = version (fst (saveToServer friendly file8)) /\
    q_collectionId q = db_id (db (fst (saveToServer friendly file8))) /\
    collectionVersion (fst (saveToServer friendly file8)) = u_collectionVersion resp.
Proof. apply saveToServer_acknowledged. reflexivity. Defined.

Lemma saveToServer_keeps_id_witness :
  id (fst (saveToServer offline file8)) = id file8 /\
  type (fst (saveToServer offline file8)) = type file8 /\
  props (fst (saveToServer offline file8)) = props file8 /\
  data (fst (saveToServer offline file8)) = data file8 /\
  version file8 <= version (fst (saveToServer offline file8)) <= version file8 + 1.
Proof. apply saveToServer_keeps_id. reflexivity. Defined.

End MoreKegExamples.

(** ** The file store: watermark, cycles, lookups *)

Section MoreStoreFacts.
Import Keg FileStore.
Context `{Codec FilePayload}.
Local Open Scope list_scope.

Lemma loadPage_records_known (kegs : list Raw) (s : FileStore.t) :
  jle (knownUpdateId s)
      (knownUpdateId (fold_left (fun s keg => loadPage_record keg s) kegs s)).
Proof.
  revert s. induction kegs as [|keg kegs IH]; intros s; simpl.
  - apply jle_refl.
  - eapply jle_trans; [|apply IH].
    destruct (loadPage_record_ids keg s) as [(Hk & _)|(Hk & _)]; rewrite Hk.
    + apply jle_refl.
    + apply raise_ge_l.
Qed.

Lemma digest_known (m : string) (s : FileStore.t) :
  knownUpdateId (onFileDigestUpdate m s) = knownUpdateId s.
Proof.
  unfold onFileDigestUpdate, updateFiles.
  destruct (paused s); [done|].
  destruct (loaded s && String.eqb m (maxUpdateId s))%bool; [done|].
  simpl. by destruct (_ || _ || _)%bool.
Qed.

Lemma step_known (s : FileStore.t) (e : Event) :
  jle (knownUpdateId s) (knownUpdateId (step s e)).
Proof.
  destruct e as [|kegs|m|kegs| | | |]; simpl.
  - unfold loadAllFiles. destruct (loading s || loaded s)%bool; apply jle_refl.
  - unfold loadAllFiles_resume, loadPage_then.
    destruct (awaitingPage s); simpl; [|apply jle_refl].
    pose proof (loadPage_records_known kegs s) as Hk.
    by destruct (0 <? length kegs)%nat.
  - rewrite digest_known. apply jle_refl.
  - destruct (updating s) eqn:Hup.
    + destruct (updateFiles_then_ids kegs s Hup) as (Hk & _). rewrite Hk.
      pose proof (newest_ge_start (map r_collectionVersion kegs) (knownUpdateId s))
        as Hn.
      destruct (JS.lt _ (cycleMaxId s)) eqn:Elt; [|done].
      eapply jle_trans; [exact Hn | by apply jlt_jle].
    + unfold updateFiles_then. rewrite Hup. apply jle_refl.
  - apply jle_refl.
  - unfold resume. destruct (paused s); apply jle_refl.
  - unfold loadPage_retry. destruct (awaitingPage s); apply jle_refl.
  - unfold updateFiles_retry. destruct (updating s); apply jle_refl.
Qed.

Lemma run_known (s : FileStore.t) (es : list Event) :
  jle (knownUpdateId s) (knownUpdateId (run s es)).
Proof.
  revert s. induction es as [|e es IH]; intros s; simpl.
  - apply jle_refl.
  - eapply jle_trans; [apply step_known | apply IH].
Qed.

(** X6. knownUpdateId never goes back: whatever happens to a store, in
    whatever state, its knownUpdateId afterwards is at least what it was
    (in the order JavaScript gives strings). *)
Theorem known_never_decreases (s : FileStore.t) (es : list Event) :
  jle (knownUpdateId s) (knownUpdateId (run s es)).
Proof.
  revert s. induction es as [|e es IH]; intros s; simpl.
  - apply jle_refl.
  - eapply jle_trans; [apply step_known | apply IH].
Qed.

Lemma loadPage_record_raises (keg : Raw) (s : FileStore.t) :
  flagged keg = false ->
  knownUpdateId (loadPage_record keg s)
  = raise (knownUpdateId s) (r_collectionVersion keg) /\
  maxUpdateId (loadPage_record keg s)
  = raise (maxUpdateId s) (r_collectionVersion keg).
Proof.
  unfold flagged, loadPage_record, raise. intros ->.
  destruct (File_loadFromKeg keg (newFile (kegDb s))) as [file ok] eqn:Eh.
  destruct (JS.gt (r_collectionVersion keg) (maxUpdateId s));
    simpl; destruct (JS.gt (r_collectionVersion keg) (knownUpdateId s));
    simpl; rewrite ?Eh; destruct ok; repeat (case_match; simpl); done.
Qed.

Lemma loadPage_records_seen (kegs : list Raw) (s : FileStore.t) :
  Forall (fun keg => flagged keg = false ->
            jle (r_collectionVersion keg)
                (knownUpdateId (fold_left (fun s keg => loadPage_record keg s) kegs s)))
         kegs.
Proof.
  revert s. induction kegs as [|keg kegs IH]; intros s; simpl; constructor.
  - intros Hf. eapply jle_trans; [|apply loadPage_records_known].
    destruct (loadPage_record_raises keg s Hf) as (Hk & _).
    rewrite Hk. apply raise_ge_r.
  - apply IH.
Qed.

(** X7. What a store has seen stays known. Once a page of the initial
    load has been processed, every record of it that is not flagged
    deleted or hidden has a collectionVersion at most knownUpdateId; once
    the answer of an update cycle has been processed, every record of it
    has; and this stays so whatever happens afterwards. *)
Theorem seen_stays_known (s : FileStore.t) (kegs : list Raw) (es : list Event) :
  (awaitingPage s = true ->
   Forall (fun keg => flagged keg = false ->
             jle (r_collectionVersion keg)
                 (knownUpdateId (run s (PageResponse kegs :: es)))) kegs) /\
  (updating s = true ->
   Forall (fun keg => jle (r_collectionVersion keg)
                          (knownUpdateId (run s (UpdateResponse kegs :: es)))) kegs).
Proof.
  split.
  - intros Haw. simpl.
    pose proof (loadPage_records_seen kegs s) as Hseen.
    eapply Forall_impl; [exact Hseen|]. simpl. intros keg Hk Hf.
    eapply jle_trans; [by apply Hk|].
    eapply jle_trans; [|apply run_known].
    unfold loadAllFiles_resume, loadPage_then. rewrite Haw. simpl.
    destruct (0 <? length kegs)%nat; apply jle_refl.
  - intros Hup. simpl.
    destruct (updateFiles_then_ids kegs s Hup) as (Hk & _).
    apply Forall_forall. intros keg Hin.
    eapply jle_trans; [|apply run_known]. rewrite Hk.
    pose proof (newest_ge_each (map r_collectionVersion kegs) (knownUpdateId s))
      as Hall.
    rewrite Forall_forall in Hall.
    assert (Hc : jle (r_collectionVersion keg)
                     (newest (knownUpdateId s) (map r_collectionVersion kegs))).
    { apply Hall. apply list_elem_of_In, in_map. by apply list_elem_of_In. }
    destruct (JS.lt _ (cycleMaxId s)) eqn:Elt; [|done].
    eapply jle_trans; [exact Hc | by apply jlt_jle].
Qed.

Lemma loadPage_records_level (kegs : list Raw) (s : FileStore.t) :
  knownUpdateId s = maxUpdateId s ->
  knownUpdateId (fold_left (fun s keg => loadPage_record keg s) kegs s)
  = maxUpdateId (fold_left (fun s keg => loadPage_record keg s) kegs s).
Proof.
  revert s. induction kegs as [|keg kegs IH]; intros s Heq; simpl; [done|].
  apply IH. destruct (loadPage_record_ids keg s) as [(Hk & Hm)|(Hk & Hm)];
    rewrite Hk, Hm; by rewrite Heq.
Qed.

(** X8. The initial load keeps the two update ids level: from a new
    store, after loadAllFiles and the answers to any number of page
    requests, knownUpdateId equals maxUpdateId (both are the greatest
    collectionVersion among the records looked at, or still empty). *)
Theorem initial_load_level (d : KegDb) (pages : list (list Raw)) :
  knownUpdateId (run (create d) (CallLoadAllFiles :: map PageResponse pages))
  = maxUpdateId (run (create d) (CallLoadAllFiles :: map PageResponse pages)).
Proof.
  simpl. assert (Hstart : knownUpdateId (loadAllFiles (create d))
                          = maxUpdateId (loadAllFiles (create d))) by done.
  revert Hstart. generalize (loadAllFiles (create d)).
  induction pages as [|page pages IH]; intros s Heq; simpl; [done|].
  apply IH. unfold loadAllFiles_resume, loadPage_then.
  destruct (awaitingPage s); simpl; [|done].
  pose proof (loadPage_records_level page s Heq) as Hl.
  by destruct (0 <? length page)%nat.
Qed.

(** X9. A paused store does not react to the digest, and resuming asks
    for the check that was held back: for a store that is not paused,
    pause, then a run of the digest reaction, then resume leave the store
    as it was except that a digest check has been scheduled; resume on a
    store that is not paused does nothing. *)
Theorem pause_holds_digest (m : string) (s : FileStore.t) :
  paused s = false ->
  onFileDigestUpdate m (pause s) = pause s /\
  resume (onFileDigestUpdate m (pause s)) = emit ScheduleDigestCheck s /\
  resume s = s.
Proof.
  intros Hp. destruct s; simpl in *. subst.
  unfold onFileDigestUpdate, pause, resume, emit, with_paused, with_flags; simpl.
  done.
Qed.

End MoreStoreFacts.

Section StoreCycleFacts.
Import Keg FileStore.
Context `{Codec FilePayload}.
Local Open Scope list_scope.

Lemma cyclesDone_emit (e : Effect) (s : FileStore.t) :
  cyclesDone (emit e s)
  = (cyclesDone s + match e with AfterUpdate _ => 1 | _ => 0 end)%nat.
Proof.
  unfold cyclesDone, emit; simpl. rewrite List.filter_app, length_app.
  by destruct e.
Qed.

Lemma updateRequests_emit (e : Effect) (s : FileStore.t) :
  updateRequests (emit e s)
  = updateRequests s ++ match e with
                        | SendList rq => if is_update rq then [rq] else []
                        | _ => []
                        end.
Proof.
  unfold updateRequests. rewrite requests_emit, List.filter_app.
  destruct e; simpl; try done; by destruct (is_update rq).
Qed.

Lemma pageRequests_emit (e : Effect) (s : FileStore.t) :
  pageRequests (emit e s)
  = pageRequests s ++ match e with
                      | SendList rq => if is_update rq then [] else [rq]
                      | _ => []
                      end.
Proof.
  unfold pageRequests. rewrite requests_emit, List.filter_app.
  destruct e; simpl; try done; by destruct (is_update rq).
Qed.

Lemma loadPage_record_cycles (keg : Raw) (s : FileStore.t) :
  cyclesDone (loadPage_record keg s) = cyclesDone s.
Proof.
  unfold loadPage_record. cbv zeta.
  destruct (r_deleted keg || r_hidden keg)%bool; [done|].
  destruct (File_loadFromKeg keg (newFile (kegDb s))) as [file ok].
  set (s1 := if JS.gt _ (maxUpdateId s) then _ else s).
  set (s2 := if JS.gt _ (knownUpdateId s1) then _ else s1).
  assert (Hc : cyclesDone s2 = cyclesDone s).
  { subst s2 s1. by repeat case_match. }
  rewrite <- Hc. clearbody s2. clear s1 Hc.
  destruct ok; repeat case_match; rewrite ?cyclesDone_emit, ?Nat.add_0_r; done.
Qed.

Lemma loadPage_records_cycles (kegs : list Raw) (s : FileStore.t) :
  cyclesDone (fold_left (fun s keg => loadPage_record keg s) kegs s) = cyclesDone s.
Proof.
  revert s. induction kegs as [|keg kegs IH]; intros s; simpl; [done|].
  by rewrite IH, loadPage_record_cycles.
Qed.

Lemma pageRequest_is_page (from : option string) (s : FileStore.t) :
  is_update (pageRequest from s) = false.
Proof. done. Qed.

Lemma updateRequest_is_update (s : FileStore.t) : is_update (updateRequest s) = true.
Proof. unfold is_update, updateRequest; simpl. by destruct (negb _). Qed.

(** The count of a store: update requests sent against cycles finished. *)
Lemma step_in_flight (s : FileStore.t) (e : Event) :
  length (updateRequests s) = (cyclesDone s + if updating s then 1 else 0)%nat ->
  length (updateRequests (step s e))
  = (cyclesDone (step s e) + if updating (step s e) then 1 else 0)%nat.
Proof.
  intros Hinv. destruct e as [|kegs|m|kegs| | | |]; simpl.
  - unfold loadAllFiles. destruct (loading s || loaded s)%bool; [done|].
    unfold updateRequests, requests, cyclesDone in *. simpl.
    rewrite omap_app, !List.filter_app, !length_app. simpl. lia.
  - unfold loadAllFiles_resume, loadPage_then.
    destruct (awaitingPage s); simpl; [|done].
    destruct (loadPage_records_control kegs s) as (_&_&_&_&Hu&_&_&Hrq).
    pose proof (loadPage_records_cycles kegs s) as Hc.
    set (s1 := fold_left _ kegs s) in *.
    assert (Hinv1 : length (updateRequests s1)
                    = (cyclesDone s1 + if updating s1 then 1 else 0)%nat).
    { unfold updateRequests. by rewrite Hrq, Hc, Hu. }
    destruct (0 <? length kegs)%nat.
    + change (updateRequests (with_pageFrom ?v ?x)) with (updateRequests x).
      change (cyclesDone (with_pageFrom ?v ?x)) with (cyclesDone x).
      rewrite updateRequests_emit, cyclesDone_emit, pageRequest_is_page.
      rewrite app_nil_r. simpl. lia.
    + unfold _finishLoading.
      rewrite !updateRequests_emit, !cyclesDone_emit, !app_nil_r. simpl.
      unfold updateRequests, requests, cyclesDone in *. simpl in *. lia.
  - unfold onFileDigestUpdate. destruct (paused s); [done|].
    destruct (loaded s && String.eqb m (maxUpdateId s))%bool; [done|].
    unfold updateFiles. simpl.
    destruct (negb (loaded s) || updating s
              || String.eqb (knownUpdateId s) m)%bool eqn:Eg; [done|].
    apply orb_false_iff in Eg as (Eg & _). apply orb_false_iff in Eg as (_ & Eu).
    rewrite Eu in Hinv.
    rewrite updateRequests_emit, cyclesDone_emit, updateRequest_is_update.
    rewrite length_app. simpl.
    unfold updateRequests, requests, cyclesDone in *. simpl in *. lia.
  - unfold updateFiles_then. destruct (updating s) eqn:Hup; simpl; [|by rewrite Hup].
    destruct (updateFiles_records_ids kegs (s, false)) as (_ & Hs).
    destruct (fold_left _ kegs (s, false)) as [s1 dirty]. simpl in *.
    destruct Hs as (_&_&_&_&_&_&_&_&He).
    unfold updateRequests, requests, cyclesDone in *.
    destruct (JS.lt (knownUpdateId s1) (cycleMaxId s1)); simpl; rewrite He;
      repeat (rewrite omap_app || rewrite List.filter_app || rewrite length_app);
      simpl; lia.
  - done.
  - unfold resume. destruct (paused s); simpl; [|done].
    rewrite updateRequests_emit, cyclesDone_emit, app_nil_r. simpl.
    unfold updateRequests, requests, cyclesDone in *. simpl in *. lia.
  - unfold loadPage_retry. destruct (awaitingPage s); simpl; [|done].
    rewrite updateRequests_emit, cyclesDone_emit, app_nil_r. simpl. lia.
  - unfold updateFiles_retry. destruct (updating s) eqn:Hup; simpl; [|by rewrite Hup].
    rewrite updateRequests_emit, cyclesDone_emit, app_nil_r, Hup. simpl. lia.
Qed.

Lemma resends_emit (e : Effect) (s : FileStore.t) :
  resends (emit e s)
  = resends s ++ match e with ResendList rq => [rq] | _ => [] end.
Proof.
  unfold resends, emit; simpl. rewrite omap_app. simpl. by destruct e.
Qed.

Lemma updateResends_emit (e : Effect) (s : FileStore.t) :
  updateResends (emit e s)
  = updateResends s ++ match e with
                       | ResendList rq => if is_update rq then [rq] else []
                       | _ => []
                       end.
Proof.
  unfold updateResends. rewrite resends_emit, List.filter_app.
  destruct e; simpl; try done; by destruct (is_update rq).
Qed.

Lemma loadPage_record_effects (keg : Raw) (s : FileStore.t) :
  updateResends (loadPage_record keg s) = updateResends s /\
  updateRequests (loadPage_record keg s) = updateRequests s.
Proof.
  unfold loadPage_record. cbv zeta.
  destruct (r_deleted keg || r_hidden keg)%bool; [done|].
  destruct (File_loadFromKeg keg (newFile (kegDb s))) as [file ok].
  set (s1 := if JS.gt _ (maxUpdateId s) then _ else s).
  set (s2 := if JS.gt _ (knownUpdateId s1) then _ else s1).
  assert (Hc : updateResends s2 = updateResends s /\
               updateRequests s2 = updateRequests s).
  { subst s2 s1. by repeat case_match. }
  destruct Hc as (<- & <-). clearbody s2. clear s1.
  destruct ok; repeat case_match;
    rewrite ?updateResends_emit, ?updateRequests_emit, ?app_nil_r; done.
Qed.

Lemma loadPage_records_effects (kegs : list Raw) (s : FileStore.t) :
  updateResends (fold_left (fun s keg => loadPage_record keg s) kegs s)
  = updateResends s /\
  updateRequests (fold_left (fun s keg => loadPage_record keg s) kegs s)
  = updateRequests s.
Proof.
  revert s. induction kegs as [|keg kegs IH]; intros s; simpl; [done|].
  destruct (IH (loadPage_record keg s)) as (-> & ->).
  apply loadPage_record_effects.
Qed.

Local Ltac effects_level :=
  unfold updateRequests, updateResends, requests, resends, updateRequest in *;
  simpl in *;
  repeat (rewrite omap_app in * || rewrite List.filter_app in *);
  simpl in *; rewrite ?app_nil_r in *.

Lemma step_in_cycle (s : FileStore.t) (e : Event) :
  in_cycle s -> in_cycle (step s e).
Proof.
  intros Hin. pose proof Hin as (Hwait & Hpage & Hreq & Hre).
  destruct e as [|kegs|m|kegs| | | |]; simpl.
  - unfold loadAllFiles. destruct (loading s || loaded s)%bool eqn:E; [exact Hin|].
    apply orb_false_iff in E as (_ & Eld).
    split; [exact Hwait|]. split; [intros _; exact Eld|]. split.
    + simpl. intros Hu. rewrite (Hwait Eld) in Hu. discriminate.
    + effects_level. exact Hre.
  - unfold loadAllFiles_resume, loadPage_then.
    destruct (negb (awaitingPage s)) eqn:Haw; [exact Hin|].
    apply negb_false_iff in Haw. cbv zeta.
    pose proof (Hpage Haw) as Hld. pose proof (Hwait Hld) as Hup.
    destruct (loadPage_records_control kegs s) as (_&_&Hld1&_&Hu1&Haw1&_&_).
    destruct (loadPage_records_effects kegs s) as (Hrs & Hrq).
    set (s1 := fold_left _ kegs s) in *.
    assert (Hre1 : forall rq, rq ∈ updateResends s1 -> rq ∈ updateRequests s1).
    { intros rq. rewrite Hrs, Hrq. apply Hre. }
    clearbody s1. cbn [size maxId].
    destruct (0 <? length kegs)%nat.
    + split; [simpl; congruence|]. split; [simpl; congruence|]. split.
      * simpl. congruence.
      * effects_level. exact Hre1.
    + unfold _finishLoading.
      split; [simpl; congruence|]. split; [simpl; congruence|]. split.
      * simpl. congruence.
      * effects_level. exact Hre1.
  - unfold onFileDigestUpdate. destruct (paused s); [exact Hin|].
    destruct (loaded s && String.eqb m (maxUpdateId s))%bool; [exact Hin|].
    unfold updateFiles. simpl.
    destruct (negb (loaded s) || updating s
              || String.eqb (knownUpdateId s) m)%bool eqn:Eg; [exact Hin|].
    apply orb_false_iff in Eg as (Eg & _). apply orb_false_iff in Eg as (Eld & _).
    apply negb_false_iff in Eld.
    split; [simpl; congruence|]. split; [exact Hpage|]. split.
    + intros _. rewrite updateRequests_emit, updateRequest_is_update.
      apply elem_of_app. right. by apply list_elem_of_singleton.
    + intros rq Hq. rewrite updateRequests_emit.
      rewrite updateResends_emit, app_nil_r in Hq.
      apply elem_of_app. left. by apply Hre.
  - unfold updateFiles_then.
    destruct (negb (updating s)) eqn:Hup; [exact Hin|]. cbv zeta.
    destruct (updateFiles_records_ids kegs (s, false)) as (_ & Hs).
    destruct (fold_left _ kegs (s, false)) as [s1 dirty]. simpl in *.
    destruct Hs as (_&_&Hld1&_&_&Haw1&_&_&He).
    assert (Hre1 : forall rq, rq ∈ updateResends s1 -> rq ∈ updateRequests s1).
    { intros rq. unfold updateResends, resends, updateRequests, requests.
      rewrite He. apply Hre. }
    clear He.
    destruct (JS.lt (knownUpdateId s1) (cycleMaxId s1));
      (split; [done|]); (split; [simpl; rewrite Haw1, Hld1; exact Hpage|]);
      (split; [done|]); effects_level; exact Hre1.
  - exact Hin.
  - unfold resume. destruct (negb (paused s)); [exact Hin|].
    split; [exact Hwait|]. split; [exact Hpage|]. split.
    + effects_level. exact Hreq.
    + effects_level. exact Hre.
  - unfold loadPage_retry. destruct (negb (awaitingPage s)); [exact Hin|].
    split; [exact Hwait|]. split; [exact Hpage|]. split.
    + effects_level. exact Hreq.
    + effects_level. exact Hre.
  - unfold updateFiles_retry.
    destruct (negb (updating s)) eqn:Hup; [exact Hin|].
    apply negb_false_iff in Hup.
    split; [exact Hwait|]. split; [exact Hpage|]. split.
    + intros _. rewrite updateRequests_emit, app_nil_r. exact (Hreq Hup).
    + intros rq Hq. rewrite updateRequests_emit, app_nil_r.
      rewrite updateResends_emit, updateRequest_is_update in Hq.
      apply elem_of_app in Hq as [Hq|Hq]; [by apply Hre|].
      apply list_elem_of_singleton in Hq as ->. exact (Hreq Hup).
Qed.

(** X10. Update cycles do not overlap. From a new store, through any
    sequence of events, rejected requests among them, the update fetches
    begun so far (requests sent for the first time) are as many as the
    cycles finished, plus one exactly while a cycle is in flight: a digest
    that arrives during a cycle starts no second fetch. What
    retryUntilSuccess sends again after a rejection is a request that was
    sent before. *)
Theorem one_cycle_in_flight (d : KegDb) (es : list Event) :
  length (updateRequests (run (create d) es))
  = (cyclesDone (run (create d) es)
     + if updating (run (create d) es) then 1 else 0)%nat /\
  (forall rq, rq ∈ updateResends (run (create d) es) ->
              rq ∈ updateRequests (run (create d) es)).
Proof.
  assert (Hstart : length (updateRequests (create d))
                   = (cyclesDone (create d)
                      + if updating (create d) then 1 else 0)%nat) by done.
  assert (Hcyc : in_cycle (create d)).
  { by repeat split. }
  revert Hstart Hcyc. generalize (create d).
  induction es as [|e es IH]; intros s Hinv Hcyc; simpl.
  - split; [done|]. by destruct Hcyc as (_ & _ & _ & Hre).
  - apply IH; [by apply step_in_flight | by apply step_in_cycle].
Qed.

End StoreCycleFacts.

Section StoreLookupFacts.
Import Keg FileStore.
Context `{Codec FilePayload}.
Local Open Scope list_scope.

Lemma pageRequests_same (s s' : FileStore.t) :
  requests s' = requests s -> pageRequests s' = pageRequests s.
Proof. unfold pageRequests. by intros ->. Qed.

(** A store that awaits no page stays so, keeps [loaded] once it is set
    and sends no page request. *)
Lemma step_after_load (s : FileStore.t) (e : Event) :
  loaded s = true -> awaitingPage s = false ->
  loaded (step s e) = true /\ awaitingPage (step s e) = false /\
  pageRequests (step s e) = pageRequests s.
Proof.
  intros Hl Ha. destruct e as [|kegs|m|kegs| | | |]; simpl.
  - unfold loadAllFiles. rewrite Hl, orb_true_r. done.
  - unfold loadAllFiles_resume. rewrite Ha. done.
  - unfold onFileDigestUpdate, updateFiles. destruct (paused s); [done|].
    destruct (loaded s && String.eqb m (maxUpdateId s))%bool; [done|]. simpl.
    destruct (_ || _ || _)%bool; [done|].
    repeat split; try done.
    rewrite pageRequests_emit, updateRequest_is_update, app_nil_r.
    by apply pageRequests_same.
  - unfold updateFiles_then. destruct (updating s); simpl; [|done].
    destruct (updateFiles_records_ids kegs (s, false)) as (_ & Hs).
    destruct (fold_left _ kegs (s, false)) as [s1 dirty]. simpl in *.
    destruct Hs as (_&_&Hl1&_&_&Ha1&_&_&He).
    destruct (JS.lt (knownUpdateId s1) (cycleMaxId s1)); simpl;
      (split; [congruence|]); (split; [congruence|]);
      unfold pageRequests, requests; simpl; rewrite He;
      repeat (rewrite omap_app || rewrite List.filter_app); simpl;
      by rewrite ?app_nil_r.
  - done.
  - unfold resume. destruct (paused s); simpl; [|done].
    repeat split; try done. rewrite pageRequests_emit, app_nil_r.
    by apply pageRequests_same.
  - unfold loadPage_retry. by rewrite Ha.
  - unfold updateFiles_retry. destruct (updating s); simpl; [|done].
    repeat split; try done. by rewrite pageRequests_emit, app_nil_r.
Qed.

Lemma run_after_load (es : list Event) (s : FileStore.t) :
  loaded s = true -> awaitingPage s = false ->
  loaded (run s es) = true /\ pageRequests (run s es) = pageRequests s.
Proof.
  revert s. induction es as [|e es IH]; intros s Hl Ha; simpl; [done|].
  destruct (step_after_load s e Hl Ha) as (Hl' & Ha' & Hp).
  destruct (IH _ Hl' Ha') as (? & Hp'). split; congruence.
Qed.

(** While a new store's load is suspended on a page it is not loaded. *)
Lemma run_awaiting (es : list Event) (s : FileStore.t) :
  (awaitingPage s = true -> loaded s = false) ->
  (awaitingPage (run s es) = true -> loaded (run s es) = false).
Proof.
  revert s. induction es as [|e es IH]; intros s Hinv; simpl; [done|].
  apply IH. destruct e as [|kegs|m|kegs| | | |]; simpl.
  - unfold loadAllFiles. destruct (loading s || loaded s)%bool eqn:E; [done|].
    apply orb_false_iff in E as (_ & E). by intros _.
  - unfold loadAllFiles_resume, loadPage_then.
    destruct (awaitingPage s) eqn:Ha; simpl; [|by rewrite Ha].
    destruct (loadPage_records_control kegs s) as (_&_&Hld&_&_&Haw&_&_).
    destruct (0 <? length kegs)%nat; simpl.
    + intros _. rewrite Hld. by apply Hinv.
    + done.
  - unfold onFileDigestUpdate, updateFiles. destruct (paused s); [done|].
    destruct (loaded s && String.eqb m (maxUpdateId s))%bool; [done|]. simpl.
    by destruct (_ || _ || _)%bool.
  - unfold updateFiles_then. destruct (updating s); simpl; [|done].
    destruct (updateFiles_records_ids kegs (s, false)) as (_ & Hs).
    destruct (fold_left _ kegs (s, false)) as [s1 dirty]. simpl in *.
    destruct Hs as (_&_&Hl1&_&_&Ha1&_&_&_).
    destruct (JS.lt (knownUpdateId s1) (cycleMaxId s1)); simpl;
      rewrite Ha1, Hl1; done.
  - done.
  - unfold resume. by destruct (paused s).
  - unfold loadPage_retry. destruct (negb (awaitingPage s)); simpl; exact Hinv.
  - unfold updateFiles_retry. destruct (negb (updating s)); simpl; exact Hinv.
Qed.

(** X11. The initial load is over for good. Once a store that started
    new is loaded, it stays loaded through whatever follows and never
    sends another page request; a further loadAllFiles call and late page
    answers change nothing about that. *)
Theorem loaded_for_good (d : KegDb) (es more : list Event) :
  loaded (run (create d) es) = true ->
  loaded (run (create d) (es ++ more)) = true /\
  pageRequests (run (create d) (es ++ more)) = pageRequests (run (create d) es) /\
  loadAllFiles (run (create d) es) = run (create d) es.
Proof.
  intros Hl. unfold run. rewrite fold_left_app. fold (run (create d) es).
  set (s := run (create d) es) in *.
  assert (Ha : awaitingPage s = false).
  { destruct (awaitingPage s) eqn:Ha; [|done].
    pose proof (run_awaiting es (create d)) as Hinv.
    fold s in Hinv. rewrite Hinv in Hl; done. }
  destruct (run_after_load more s Hl Ha) as (Hl' & Hp).
  split; [done|]. split; [done|].
  unfold loadAllFiles. by rewrite Hl, orb_true_r.
Qed.

(** Hydration gives a file the keg id of the record it took. *)
Lemma hydrate_id (keg : Raw) (f : File) :
  snd (File_loadFromKeg keg f) = true ->
  Keg.id (fst (File_loadFromKeg keg f)) = Some (kegId keg).
Proof.
  unfold File_loadFromKeg, loadFromKeg, detectTampering,
    bind, get, modify, lift, ret, throw.
  destruct (JS.truthy (id f) && negb (JS.strict_eq (id f) (Some (kegId keg))))%bool;
    simpl; [done|].
  destruct (wire_truthy (r_payload keg)); simpl; [|done].
  destruct (plaintext f); simpl.
  - by destruct (JSON_parse _) as [payload|e].
  - destruct (decryptString _ _) as [text|e]; simpl; [|done].
    destruct (JSON_parse _) as [payload|e]; simpl; [|done].
    destruct (sys payload) as [h|]; simpl; [|done].
    destruct (JS.strict_eq (sys_kegId h) (Some (kegId keg))); simpl; [|done].
    by destruct (String.eqb (sys_type h) (type f)).
Qed.

(** X12. A record that is new to the store can be looked up once its
    cycle has dealt with it. If an update record is not flagged deleted or
    hidden, names a fileId and a keg id that no file in memory has,
    carries a payload, hydrates, and is not at version 1, then the file
    made from it is put in front of the others, the cycle is marked
    dirty, and getById of its fileId and getByKegId of its keg id both
    find it. *)
Theorem new_record_found (keg : Raw) (s : FileStore.t) (dirty : bool) (x : string) :
  flagged keg = false ->
  r_props keg !! "fileId" = Some x -> x <> "" ->
  getById (Some x) s = None -> getByKegId (kegId keg) s = None ->
  wire_truthy (r_payload keg) = true ->
  snd (File_loadFromKeg keg (newFile (kegDb s))) = true ->
  r_version keg <> 1 ->
  let s' := fst (updateFiles_record keg (s, dirty)) in
  files s' = fst (File_loadFromKeg keg (newFile (kegDb s))) :: files s /\
  snd (updateFiles_record keg (s, dirty)) = true /\
  getById (Some x) s' = Some 0%nat /\
  getByKegId (kegId keg) s' = Some 0%nat.
Proof.
  intros Hfl Hpf Hx Hby Hbk Hw Hok Hv.
  destruct (hydrate_fid keg (newFile (kegDb s))) as (Hfid & _ & Hver).
  pose proof (hydrate_id keg (newFile (kegDb s)) Hok) as Hid.
  specialize (Hfid Hok Hw). specialize (Hver Hok).
  unfold updateFiles_record. cbv zeta. cbn [fst snd].
  set (s1 := if JS.gt _ (knownUpdateId s) then _ else s).
  assert (Hf : files s1 = files s) by (subst s1; by case_match).
  assert (Hdb : kegDb s1 = kegDb s) by (subst s1; by case_match).
  assert (Hby1 : getById (Some x) s1 = None) by (by rewrite (getById_files _ s s1 Hf)).
  assert (Hbk1 : getByKegId (kegId keg) s1 = None).
  { unfold getByKegId. by rewrite Hf. }
  clearbody s1. unfold flagged in Hfl.
  assert (Ht : String.eqb x "" = false) by (by apply String.eqb_neq).
  assert (Htr : JS.truthy (Some x) = true) by (simpl; by rewrite Ht).
  rewrite Hpf, Htr, Hby1, Hbk1, Hfl, Hdb. cbn [negb andb].
  destruct (File_loadFromKeg keg (newFile (kegDb s))) as [file' ok] eqn:Eh.
  simpl in *. subst ok. simpl.
  assert (He : isEmpty file' = false).
  { unfold isEmpty. rewrite Hver. by apply Z.eqb_neq. }
  rewrite He. simpl. rewrite Hf.
  split; [done|]. split; [done|]. split.
  - unfold getById. simpl. unfold fid in *. rewrite Hfid, Hpf. simpl.
    by rewrite String.eqb_refl.
  - unfold getByKegId. simpl. rewrite Hid. simpl. by rewrite String.eqb_refl.
Qed.

(** X13. A record flagged deleted or hidden leaves no file under its
    fileId. In a store whose files have distinct non-empty fileIds, after
    an update record that is flagged and names a fileId no file in memory
    has this fileId, getById no longer finds it, and every file that
    remains was there before. *)
Theorem flagged_record_removes (keg : Raw) (s : FileStore.t) (dirty : bool)
        (x : string) :
  wellkeyed s -> flagged keg = true -> r_props keg !! "fileId" = Some x ->
  let s' := fst (updateFiles_record keg (s, dirty)) in
  (Some x ∉ (fid <$> files s')) /\
  getById (Some x) s' = None /\
  (forall f, f ∈ files s' -> f ∈ files s) /\
  snd (updateFiles_record keg (s, dirty)) = dirty.
Proof.
  intros (Hall & Hnd) Hfl Hpf. unfold flagged in Hfl.
  unfold updateFiles_record. cbv zeta. cbn [fst snd].
  set (s1 := if JS.gt _ (knownUpdateId s) then _ else s).
  assert (Hf : files s1 = files s) by (subst s1; by case_match).
  rewrite <- Hf in Hall, Hnd. rewrite <- Hf.
  clearbody s1. clear Hf. rewrite Hpf, Hfl.
  assert (Hgone : forall s2 : FileStore.t,
             Some x ∉ fid <$> files s2 -> getById (Some x) s2 = None).
  { intros s2 Hn. unfold getById.
    destruct (find_index _ (files s2)) as [i|] eqn:Ef; [|done].
    exfalso. apply find_index_Some in Ef as (f & Hi & Hp).
    apply strict_eq_true in Hp. apply Hn. rewrite <- Hp.
    apply list_elem_of_fmap_2. by eapply list_elem_of_lookup_2. }
  destruct (negb (JS.truthy (Some x)) && negb (r_deleted keg))%bool eqn:Eskip.
  { (* hidden, not deleted, and the fileId is the empty string *)
    simpl. apply andb_true_iff in Eskip as (Ex & _).
    assert (Hn : Some x ∉ fid <$> files s1).
    { intros Hin. apply list_elem_of_fmap in Hin as (f & Hfx & Hin).
      rewrite Forall_forall in Hall. specialize (Hall f Hin). simpl in Hall.
      rewrite <- Hfx in Hall. simpl in *. by rewrite Hall in Ex. }
    split; [done|]. split; [by apply Hgone|]. done. }
  destruct (getById (Some x) s1) as [i|] eqn:Eby.
  - apply getById_Some in Eby as (f & Hi & Hfid). simpl.
    assert (Hn : Some x ∉ fid <$> delete i (files s1)).
    { rewrite list_fmap_delete. rewrite <- Hfid.
      assert (Hlk : (fid <$> files s1) !! i = Some (fid f)).
      { by rewrite list_lookup_fmap, Hi. }
      revert Hnd Hlk. generalize (fid <$> files s1) (fid f). clear.
      intros l y Hnd. revert i.
      induction l as [|z l IH]; intros i Hi; [done|].
      apply NoDup_cons in Hnd as (Hz & Hnd).
      destruct i as [|i]; simpl in *.
      - injection Hi as ->. done.
      - intros Hin. apply elem_of_cons in Hin as [->|Hin].
        + apply Hz. by eapply list_elem_of_lookup_2.
        + by apply (IH Hnd i Hi). }
    split; [done|]. split; [by apply (Hgone (with_files _ s1))|].
    split; [|done]. intros g. apply list_elem_of_delete_inv.
  - assert (Hn : Some x ∉ fid <$> files s1) by (by apply getById_None).
    destruct (getByKegId (kegId keg) s1) as [j|]; simpl.
    + assert (Hn' : Some x ∉ fid <$> delete j (files s1)).
      { intros Hin. apply Hn. rewrite list_fmap_delete in Hin.
        by eapply list_elem_of_delete_inv. }
      split; [done|]. split; [by apply (Hgone (with_files _ s1))|].
      split; [|done]. intros g. apply list_elem_of_delete_inv.
    + split; [done|]. split; [by apply Hgone|]. done.
Qed.

(** X14. A keg that was only just created does not enter the store. An
    update record at version 1 whose fileId and keg id no file in memory
    has changes neither the files nor the dirty mark, whatever its
    payload and flags. *)
Theorem created_keg_stays_out (keg : Raw) (s : FileStore.t) (dirty : bool) :
  r_version keg = 1 ->
  getById (r_props keg !! "fileId") s = None ->
  getByKegId (kegId keg) s = None ->
  files (fst (updateFiles_record keg (s, dirty))) = files s /\
  snd (updateFiles_record keg (s, dirty)) = dirty.
Proof.
  intros Hv Hby Hbk.
  unfold updateFiles_record. cbv zeta. cbn [fst snd].
  set (s1 := if JS.gt _ (knownUpdateId s) then _ else s).
  assert (Hf : files s1 = files s) by (subst s1; by case_match).
  assert (Hdb : kegDb s1 = kegDb s) by (subst s1; by case_match).
  rewrite <- (getById_files _ s s1 Hf) in Hby.
  assert (Hbk1 : getByKegId (kegId keg) s1 = None).
  { unfold getByKegId. by rewrite Hf. }
  rewrite <- Hf. clearbody s1.
  destruct (negb (JS.truthy (r_props keg !! "fileId")) && negb (r_deleted keg))%bool;
    [done|].
  rewrite Hby, Hbk1.
  destruct (r_deleted keg || r_hidden keg)%bool; [done|].
  destruct (hydrate_fid keg (newFile (kegDb s1))) as (_ & _ & Hver).
  destruct (File_loadFromKeg keg (newFile (kegDb s1))) as [file' ok] eqn:Eh.
  simpl in Hver. destruct ok; simpl; [|done].
  unfold isEmpty. rewrite (Hver eq_refl), Hv. done.
Qed.

End StoreLookupFacts.

Section MoreStoreExamples.
Import Keg FileStore Example SampleStore.
Local Open Scope list_scope.

(** A store caught up at "03" is paused while the digest moves to "07". *)
Lemma pause_holds_digest_witness :
  onFileDigestUpdate "07" (pause (ready "03")) = pause (ready "03") /\
  resume (onFileDigestUpdate "07" (pause (ready "03")))
  = emit ScheduleDigestCheck (ready "03") /\
  resume (ready "03") = ready "03".
Proof. apply (pause_holds_digest "07" (ready "03")). reflexivity. Defined.

(** A store loaded with an empty list is told to load again and is
    sent a late page. *)
Lemma loaded_for_good_witness :
  loaded (run (create selfDb)
              ([CallLoadAllFiles; PageResponse []]
               ++ [CallLoadAllFiles; PageResponse page12])) = true /\
  pageRequests (run (create selfDb)
                    ([CallLoadAllFiles; PageResponse []]
                     ++ [CallLoadAllFiles; PageResponse page12]))
  = pageRequests (run (create selfDb) [CallLoadAllFiles; PageResponse []]) /\
  loadAllFiles (run (create selfDb) [CallLoadAllFiles; PageResponse []])
  = run (create selfDb) [CallLoadAllFiles; PageResponse []].
Proof.
  apply (loaded_for_good selfDb [CallLoadAllFiles; PageResponse []]
                         [CallLoadAllFiles; PageResponse page12]).
  vm_compute. reflexivity.
Defined.

(** The record of a file f2 arrives at a store that holds f1 only. *)
Lemma new_record_found_witness :
  files (fst (updateFiles_record (record "1002" "f2" "07" 2) (one_file, false)))
  = fst (File_loadFromKeg (record "1002" "f2" "07" 2) (newFile (kegDb one_file)))
    :: files one_file /\
  snd (updateFiles_record (record "1002" "f2" "07" 2) (one_file, false)) = true /\
  getById (Some "f2")
          (fst (updateFiles_record (record "1002" "f2" "07" 2) (one_file, false)))
  = Some 0%nat /\
  getByKegId "1002"
             (fst (updateFiles_record (record "1002" "f2" "07" 2) (one_file, false)))
  = Some 0%nat.
Proof.
  apply (new_record_found (record "1002" "f2" "07" 2) one_file false "f2");
    try (vm_compute; reflexivity); discriminate.
Defined.

Lemma one_file_wellkeyed : wellkeyed one_file.
Proof.
  split.
  - vm_compute. repeat constructor.
  - assert (E : fid <$> files one_file = [Some "f1"]) by (vm_compute; reflexivity).
    rewrite E. apply NoDup_singleton.
Defined.

(** The file f1 in memory is deleted on the server. *)
Lemma flagged_record_removes_witness :
  (Some "f1" ∉ (fid <$> files (fst (updateFiles_record removed (one_file, false))))) /\
  getById (Some "f1") (fst (updateFiles_record removed (one_file, false))) = None /\
  (forall f, f ∈ files (fst (updateFiles_record removed (one_file, false))) ->
             f ∈ files one_file) /\
  snd (updateFiles_record removed (one_file, false)) = false.
Proof.
  apply (flagged_record_removes removed one_file false "f1").
  - exact one_file_wellkeyed.
  - reflexivity.
  - vm_compute. reflexivity.
Defined.

(** The keg of a file f9 whose upload has only just begun. *)
Lemma created_keg_stays_out_witness :
  files (fst (updateFiles_record (record "1009" "f9" "07" 1) (one_file, false)))
  = files one_file /\
  snd (updateFiles_record (record "1009" "f9" "07" 1) (one_file, false)) = false.
Proof.
  apply (created_keg_stays_out (record "1009" "f9" "07" 1) one_file false);
    vm_compute; reflexivity.
Defined.

End MoreStoreExamples.

Section ViewFacts.
Import Keg FileStore FileStoreView.
Context `{Matcher}.
Local Open Scope list_scope.

Lemma prefix_ci_spec (q s : string) :
  prefix_ci q s = true <->
  exists mid post, s = (mid ++ post)%string /\
                  JS.lower_ascii_text mid = JS.lower_ascii_text q.
Proof.
  revert s. induction q as [|a q IH]; intros s; simpl.
  - split; [|done]. intros _. by exists EmptyString, s.
  - destruct s as [|b s].
    + split; [done|]. intros (mid & post & Hs & Hm).
      destruct mid; simpl in *; discriminate.
    + rewrite andb_true_iff, IH. split.
      * intros (Hab & mid & post & -> & Hm). apply Ascii.eqb_eq in Hab.
        exists (String b mid), post. simpl. by rewrite Hm, Hab.
      * intros (mid & post & Hs & Hm). destruct mid as [|c mid]; simpl in *; [done|].
        injection Hs as -> ->. injection Hm as Hc Hm.
        split; [by apply Ascii.eqb_eq|]. by exists mid, post.
Qed.

Lemma match_ascii_spec (q s : string) :
  match_ascii q s = true <-> contains_ci q s.
Proof.
  unfold contains_ci. induction s as [|b s IH].
  - simpl. rewrite orb_false_r, prefix_ci_spec. split.
    + intros (mid & post & Hs & Hm). by exists EmptyString, mid, post.
    + intros (pre & mid & post & Hs & Hm).
      destruct pre; simpl in Hs; [|discriminate]. by exists mid, post.
  - change (match_ascii q (String b s))
      with (prefix_ci q (String b s) || match_ascii q s)%bool.
    rewrite orb_true_iff, prefix_ci_spec, IH. split.
    + intros [(mid & post & Hs & Hm)|(pre & mid & post & -> & Hm)].
      * by exists EmptyString, mid, post.
      * by exists (String b pre), mid, post.
    + intros (pre & mid & post & Hs & Hm). destruct pre as [|c pre]; simpl in Hs.
      * left. by exists mid, post.
      * injection Hs as -> ->. right. by exists pre, mid, post.
Qed.

Lemma filter_file_fields (q : string) (f : File) :
  show (data (filter_file q f)) = regex_test q (name (data f)) /\
  selected (data (filter_file q f))
  = (selected (data f) && regex_test q (name (data f)))%bool /\
  name (data (filter_file q f)) = name (data f) /\
  fid (filter_file q f) = fid f /\ Keg.id (filter_file q f) = Keg.id f /\
  version (filter_file q f) = version f.
Proof.
  unfold filter_file, on_file, fid. simpl.
  destruct (regex_test q (name (data f))); simpl; by rewrite ?andb_true_r, ?andb_false_r.
Qed.

Lemma filterByName_hidden_unselected (q : string) (v : FileStoreView.t) :
  hidden_unselected (files (store (filterByName q v))).
Proof.
  unfold hidden_unselected. simpl. apply Forall_map, Forall_forall. intros f _.
  destruct (filter_file_fields q f) as (-> & -> & _).
  by intros (_ & ?)%andb_true_iff.
Qed.

(** X15. What filterByName(query) leaves, for a query of ASCII
    characters: the query is recorded, no file is added, dropped or
    moved, and the file at each position is shown exactly when its name
    contains the query, the case of the letters A to Z apart; it stays
    selected only if it was selected and is shown, and keeps its name,
    fileId, keg id and version. So every selected file is visible. *)
Theorem filterByName_shows_matches (q : string) (v : FileStoreView.t) :
  JS.ascii_only q = true ->
  currentFilter (filterByName q v) = q /\
  length (files (store (filterByName q v))) = length (files (store v)) /\
  (forall (i : nat) (f : File), files (store v) !! i = Some f ->
     exists f' : File, files (store (filterByName q v)) !! i = Some f' /\
       (show (data f') = true <-> contains_ci q (name (data f))) /\
       selected (data f') = (selected (data f) && show (data f'))%bool /\
       name (data f') = name (data f) /\ fid f' = fid f /\
       Keg.id f' = Keg.id f /\ version f' = version f) /\
  (forall f', f' ∈ selectedFiles (filterByName q v) ->
              f' ∈ visibleFiles (filterByName q v)).
Proof.
  intros Hq.
  split; [done|]. split; [simpl; by rewrite length_map|]. split.
  - intros i f Hi. exists (filter_file q f). split.
    + simpl. change (List.map (filter_file q) (files (store v)))
        with (filter_file q <$> files (store v)).
      by rewrite list_lookup_fmap, Hi.
    + destruct (filter_file_fields q f) as (Hs & Hsel & Hn & Hf & Hk & Hv).
      rewrite Hs, Hsel. repeat split; try done.
      * rewrite (regex_test_ascii q _ Hq). by apply match_ascii_spec.
      * rewrite (regex_test_ascii q _ Hq). by apply match_ascii_spec.
  - intros f'. unfold selectedFiles, visibleFiles.
    rewrite !list_elem_of_In, !List.filter_In. intros (Hin & Hsel).
    split; [done|].
    pose proof (filterByName_hidden_unselected q v) as Hall.
    unfold hidden_unselected in Hall. rewrite Forall_forall in Hall.
    apply Hall; [|done]. by apply list_elem_of_In.
Qed.

Lemma regex_test_empty (s : string) : regex_test "" s = true.
Proof. rewrite regex_test_ascii; [by destruct s | done]. Qed.

(** X16. Filtering by the empty query is clearing the filter: every file
    is shown, the selection is kept, and the recorded filter is empty. *)
Theorem filter_empty_is_clearFilter (v : FileStoreView.t) :
  filterByName "" v = clearFilter v /\
  Forall (fun f => show (data f) = true) (files (store (clearFilter v))) /\
  (selected ∘ data <$> files (store (clearFilter v)))
  = (selected ∘ data <$> files (store v)).
Proof.
  split; [|split].
  - unfold filterByName, clearFilter. f_equal. f_equal.
    apply List.map_ext. intros f. unfold filter_file.
    rewrite regex_test_empty. done.
  - simpl. apply Forall_map, Forall_forall. by intros f _.
  - simpl. change (List.map ?g ?l) with (g <$> l).
    rewrite <- list_fmap_compose. by apply list_fmap_ext.
Qed.

Lemma filter_file_twice (q1 q2 : string) (f : File) :
  show (data (filter_file q2 (filter_file q1 f))) = regex_test q2 (name (data f)) /\
  selected (data (filter_file q2 (filter_file q1 f)))
  = (selected (data f) && regex_test q1 (name (data f))
     && regex_test q2 (name (data f)))%bool /\
  fid (filter_file q2 (filter_file q1 f)) = fid f.
Proof.
  destruct (filter_file_fields q1 f) as (Hs1 & Hsel1 & Hn1 & Hf1 & _).
  destruct (filter_file_fields q2 (filter_file q1 f)) as (Hs2 & Hsel2 & Hn2 & Hf2 & _).
  rewrite Hs2, Hsel2, Hn1, Hsel1, Hf2, Hf1. done.
Qed.

(** X17. A filter narrows the selection for good. After filterByName(q1)
    and filterByName(q2) a file is shown if its name matches q2, whatever
    q1 was, but it is selected only if it was selected at the start and its
    name matches both q1 and q2; clearFilter() then shows every file again
    and restores nothing of the selection. The files and their order are
    as at the start. *)
Theorem filters_narrow_selection (q1 q2 : string) (v : FileStoreView.t) :
  let matches q (f : File) := regex_test q (name (data f)) in
  let kept (f : File) := (selected (data f) && matches q1 f && matches q2 f)%bool in
  let v2 := filterByName q2 (filterByName q1 v) in
  ((fun f => show (data f)) <$> files (store v2)) = (matches q2 <$> files (store v)) /\
  ((fun f => selected (data f)) <$> files (store v2)) = (kept <$> files (store v)) /\
  Forall (fun f => show (data f) = true) (files (store (clearFilter v2))) /\
  ((fun f => selected (data f)) <$> files (store (clearFilter v2)))
  = (kept <$> files (store v)) /\
  (fid <$> files (store (clearFilter v2))) = (fid <$> files (store v)).
Proof.
  intros matches kept v2. subst matches kept v2. simpl.
  repeat split;
    induction (files (store v)) as [|f l IH]; simpl; try done;
    destruct (filter_file_twice q1 q2 f) as (Hs & Hsel & Hf);
    try (constructor; done);
    f_equal; done.
Qed.

Lemma filter_selected_shorter (l : list File) :
  hidden_unselected l ->
  (length (List.filter (fun f => selected (data f)) l)
   <= length (List.filter (fun f => show (data f)) l))%nat.
Proof.
  induction 1 as [|f l Hf Hl IH]; simpl; [done|].
  destruct (selected (data f)) eqn:Es.
  - rewrite (Hf eq_refl). simpl. lia.
  - destruct (show (data f)); simpl; lia.
Qed.

Lemma allVisibleSelected_from_spec (l : list File) :
  hidden_unselected l ->
  (allVisibleSelected_from l = true <->
   List.filter (fun f => selected (data f)) l
   = List.filter (fun f => show (data f)) l).
Proof.
  induction 1 as [|f l Hf Hl IH]; simpl; [done|].
  destruct (show (data f)) eqn:Esh; simpl.
  - destruct (selected (data f)) eqn:Es; simpl.
    + rewrite IH. split; [by intros ->|]. by intros [= ->].
    + split; [done|]. intros Heq.
      pose proof (filter_selected_shorter l Hl) as Hle.
      rewrite Heq in Hle. simpl in Hle. lia.
  - destruct (selected (data f)) eqn:Es; [by specialize (Hf eq_refl)|]. done.
Qed.

(** X18. How the getters of the selection agree. hasSelectedFiles holds
    exactly when selectedCount is not 0; allVisibleSelected holds exactly
    when every visible file is selected, and so when no file is visible;
    and after filterByName, allVisibleSelected holds exactly when the
    selected files are the visible ones. *)
Theorem selection_getters_agree (q : string) (v : FileStoreView.t) :
  hasSelectedFiles v = negb (selectedCount v =? 0)%nat /\
  allVisibleSelected v = forallb (fun f => selected (data f)) (visibleFiles v) /\
  (visibleFiles v = [] -> allVisibleSelected v = true) /\
  (allVisibleSelected (filterByName q v) = true <->
   selectedFiles (filterByName q v) = visibleFiles (filterByName q v)).
Proof.
  assert (Hall : allVisibleSelected v
                 = forallb (fun f => selected (data f)) (visibleFiles v)).
  { unfold allVisibleSelected, visibleFiles.
    induction (files (store v)) as [|f l IH]; simpl; [done|].
    destruct (show (data f)); simpl; [|done].
    by destruct (selected (data f)). }
  split; [|split; [done|split]].
  - unfold hasSelectedFiles, selectedCount, selectedFiles.
    induction (files (store v)) as [|f l IH]; simpl; [done|].
    by destruct (selected (data f)).
  - intros Hv. by rewrite Hall, Hv.
  - apply allVisibleSelected_from_spec, filterByName_hidden_unselected.
Qed.

End ViewFacts.

Section MoreMigrationFacts.
Import Keg FileStore Migration.
Variable env : Env.

Lemma outcome_cases (keg : Raw) (n : nat) :
  (attemptOutcome env keg n = Saved \/ attemptOutcome env keg n = Conflict) \/
  attemptOutcome env keg n = Failed.
Proof. destruct (attemptOutcome env keg n); tauto. Qed.

(** The retried attempts either settle the file or leave it as it is
    and reject. *)
Lemma retry_ends (keg : Raw) (retries n0 : nat) (file : File) :
  retryUntilSuccess (migrateAttempt env keg) retries n0 file = (settled file, Ok tt) \/
  exists e, retryUntilSuccess (migrateAttempt env keg) retries n0 file
            = (file, Throw e).
Proof.
  revert n0. induction retries as [|r IH]; intros n0; simpl;
    destruct (outcome_cases keg n0) as [Hend|Hfail].
  - left. by rewrite (attempt_settles env keg n0 file Hend).
  - right. destruct (attempt_fails env keg n0 file Hfail) as (e & ->). by exists e.
  - left. by rewrite (attempt_settles env keg n0 file Hend).
  - destruct (attempt_fails env keg n0 file Hfail) as (e & ->). apply IH.
Qed.

(** X19. The owner's migration always comes to an end and never rejects.
    Whatever the requests answer, onFileAdded on a legacy file of the
    current user resolves, leaves migrating false and the descriptor key
    equal to the blob key, and the format is the latest one or 0 again;
    fileId, name, blob key and owner are as before. (Of the keg's id,
    version and collectionVersion, which every save that reaches the
    server changes, nothing is said.) *)
Theorem owner_migration_ends (keg : Raw) (file : File) :
  format (data file) = 0 ->
  fileOwner (data file) = username env ->
  let file' := fst (onFileAdded env keg file) in
  snd (onFileAdded env keg file) = Ok tt /\
  migrating (data file') = false /\
  descriptorKey (data file') = Some (blobKey (data file)) /\
  (format (data file') = latestFormat env \/ format (data file') = 0) /\
  fid file' = fid file /\ name (data file') = name (data file) /\
  blobKey (data file') = blobKey (data file) /\
  fileOwner (data file') = fileOwner (data file).
Proof.
  intros Hfmt Howner file'. subst file'.
  unfold onFileAdded, migrationTask.
  set (R := retryUntilSuccess (migrateAttempt env keg) 10 0).
  unfold catch, on_data, bind, get, modify.
  rewrite Hfmt, Howner, String.eqb_refl. simpl.
  set (file1 := set_data _ _). subst R.
  destruct (retry_ends keg 10 0 file1) as [->|(e & ->)]; simpl; tauto.
Qed.

(** X20. Files that onFileAdded leaves alone. A file whose format is not
    0, and a legacy file of another user whose record names no descriptor,
    are left exactly as they are, and the call resolves. *)
Theorem onFileAdded_leaves_alone (keg : Raw) (file : File) :
  format (data file) <> 0 \/
  (fileOwner (data file) <> username env /\
   JS.truthy (r_props keg !! "descriptor") = false) ->
  onFileAdded env keg file = (file, Ok tt).
Proof.
  intros Hc. unfold onFileAdded, bind, get, ret.
  destruct (Z.eqb_spec (format (data file)) 0) as [Hz|Hz]; [|done].
  destruct Hc as [Hc|(Ho & Hd)]; [done|].
  destruct (String.eqb_spec (fileOwner (data file)) (username env)); [done|].
  by rewrite Hd.
Qed.

Lemma retry_keeps_file (fn : nat -> result unit) (retries n0 : nat) (file : File) :
  fst (retryUntilSuccess (fun n => lift (fn n)) retries n0 file) = file /\
  (snd (retryUntilSuccess (fun n => lift (fn n)) retries n0 file) = Ok tt <->
   exists j, (j <= retries)%nat /\ fn (n0 + j)%nat = Ok tt).
Proof.
  revert n0. induction retries as [|r IH]; intros n0; simpl; unfold lift.
  - destruct (fn n0) as [[]|e] eqn:E; simpl; (split; [done|]).
    + split; [|done]. intros _. exists 0%nat. by rewrite Nat.add_0_r.
    + split; [done|]. intros (j & Hj & Hok).
      assert (j = 0)%nat as -> by lia. rewrite Nat.add_0_r in Hok. congruence.
  - destruct (fn n0) as [[]|e] eqn:E; simpl.
    + split; [done|]. split; [|done]. intros _. exists 0%nat.
      rewrite Nat.add_0_r. split; [lia|done].
    + destruct (IH (S n0)) as (Hf & Hr). split; [done|].
      fold (@lift File unit) in Hr.
      etransitivity; [exact Hr|]. split.
      * intros (j & Hj & Hok). exists (S j). split; [lia|].
        by replace (n0 + S j)%nat with (S n0 + j)%nat by lia.
      * intros (j & Hj & Hok). destruct j as [|j].
        { rewrite Nat.add_0_r in Hok. congruence. }
        exists j. split; [lia|].
        by replace (S n0 + j)%nat with (n0 + S j)%nat by lia.
Qed.

(** X21. A recipient's copy is moved to the latest format without a way
    back. For a legacy file of another user whose record names a
    descriptor, onFileAdded sets the latest format and the descriptor key
    and leaves migrating as it was, whether the save succeeds or not; the
    call resolves exactly when one of the first three save attempts
    does. *)
Theorem recipient_migration (keg : Raw) (file : File) :
  format (data file) = 0 ->
  fileOwner (data file) <> username env ->
  JS.truthy (r_props keg !! "descriptor") = true ->
  let file' := fst (onFileAdded env keg file) in
  format (data file') = latestFormat env /\
  descriptorKey (data file') = Some (blobKey (data file)) /\
  migrating (data file') = migrating (data file) /\
  fid file' = fid file /\
  (snd (onFileAdded env keg file) = Ok tt <->
   exists j, (j <= 2)%nat /\ saveToServer env j = Ok tt).
Proof.
  intros Hfmt Howner Hd file'. subst file'.
  unfold onFileAdded.
  set (R := retryUntilSuccess (fun n => lift (saveToServer env n)) 2 0).
  unfold on_data, bind, get, modify.
  rewrite Hfmt, Hd. simpl.
  destruct (String.eqb_spec (fileOwner (data file)) (username env)); [done|].
  set (file1 := set_data _ _). subst R.
  destruct (retry_keeps_file (saveToServer env) 2 0 file1) as (Hf & Hr).
  destruct (retryUntilSuccess (fun n => lift (saveToServer env n)) 2 0 file1)
    as [file2 r].
  cbn [fst snd] in *. rewrite Hf. subst file1. simpl.
  repeat split; try done; apply Hr.
Qed.

End MoreMigrationFacts.

Section MoreMigrationExamples.
Import Keg FileStore Migration Example SampleMigration.

(** Alice's legacy file while the server cannot be reached. *)
Lemma owner_migration_ends_witness :
  snd (onFileAdded alice_offline (record "1001" "f1" "03" 2) legacy) = Ok tt /\
  migrating (data (fst (onFileAdded alice_offline (record "1001" "f1" "03" 2) legacy)))
  = false.
Proof.
  destruct (owner_migration_ends alice_offline (record "1001" "f1" "03" 2) legacy)
    as (Hr & Hm & _); [reflexivity | reflexivity |].
  split; [exact Hr | exact Hm].
Defined.

(** A file already at format 1. *)
Lemma onFileAdded_leaves_alone_witness :
  onFileAdded alice (record "1001" "f1" "03" 2) current = (current, Ok tt).
Proof.
  apply (onFileAdded_leaves_alone alice (record "1001" "f1" "03" 2) current).
  left. discriminate.
Defined.

(** Bob's legacy file reaches alice with a descriptor in its record while
    the server cannot be reached. *)
Lemma recipient_migration_witness :
  format (data (fst (onFileAdded alice_offline described bobs)))
  = latestFormat alice_offline /\
  descriptorKey (data (fst (onFileAdded alice_offline described bobs)))
  = Some (blobKey (data bobs)) /\
  migrating (data (fst (onFileAdded alice_offline described bobs)))
  = migrating (data bobs) /\
  fid (fst (onFileAdded alice_offline described bobs)) = fid bobs /\
  (snd (onFileAdded alice_offline described bobs) = Ok tt <->
   exists j, (j <= 2)%nat /\ saveToServer alice_offline j = Ok tt).
Proof.
  apply (recipient_migration alice_offline described bobs).
  - reflexivity.
  - discriminate.
  - vm_compute. reflexivity.
Defined.

End MoreMigrationExamples.

Section MoreFolderFacts.
Import Folders.
Context `{JS.Lowering}.

Lemma fresh_is_new (h : gmap Ref Folder) : h !! fresh h = None.
Proof.
  assert (Hle : forall r, is_Some (h !! r) ->
                (r <= map_fold (fun r _ acc => Nat.max r acc) 0 h)%nat).
  { apply (map_fold_weak_ind
             (fun acc (m : gmap Ref Folder) =>
                forall r, is_Some (m !! r) -> (r <= acc)%nat)).
    - intros r (x & Hx). by rewrite lookup_empty in Hx.
    - intros i x m acc Hnone IH r Hr.
      apply lookup_insert_is_Some in Hr as [->|(Hne & Hr)]; [lia|].
      specialize (IH r Hr). lia. }
  unfold fresh.
  destruct (h !! S (map_fold (fun r _ acc => Nat.max r acc) 0%nat h)) eqn:E; [|done].
  specialize (Hle _ (mk_is_Some _ _ E)). lia.
Qed.

Lemma normalizedName_named (f : Folder) (nm : string) :
  name f = Some nm -> normalizedName f = JS.toLowerCase nm.
Proof.
  unfold normalizedName. intros ->. destruct nm as [|c nm]; [|done].
  simpl. by rewrite (JS.toLowerCase_ascii "").
Qed.

Lemma findFolderByName_none (s : Folders.t) (target : Ref) (tf : Folder)
      (nm : string) :
  heap s !! target = Some tf -> ~ hasSibling s target nm ->
  findFolderByName (heap s) tf nm = None.
Proof.
  intros Ht Hno. unfold findFolderByName.
  destruct (List.find _ (folders tf)) as [c|] eqn:Efind; [|done].
  exfalso. apply List.find_some in Efind as (Hin & Hc).
  destruct (heap s !! c) as [f|] eqn:Ec; [|done].
  apply String.eqb_eq in Hc. apply Hno.
  exists tf, c, f. split; [done|]. split; [by apply list_elem_of_In|]. done.
Qed.

Lemma createFolder_taken (s : Folders.t) (nm : string) (target : Ref)
      (randomId : string) (now : Z) (tf : Folder) :
  heap s !! target = Some tf ->
  (exists c f, c ∈ folders tf /\ heap s !! c = Some f /\
               normalizedName f = JS.toLowerCase nm) ->
  snd (createFolder nm (Some target) randomId now s) = Throw FolderExists.
Proof.
  intros Ht Hsib. unfold createFolder. simpl. rewrite Ht.
  destruct (findFolderByName_sibling s tf nm Hsib) as (c & ->). done.
Qed.

(** X22. What createFolder makes when nothing stands in its way. If the
    target (the parent, or the root for a null parent) is a folder of the
    tree and has no child with this name, letter case apart, the call
    returns a folder that was not there before, with the given name, the
    random id, the time of the call, not deleted and empty; the id map
    resolves the random id to it, whatever it resolved to before, and is
    otherwise as it was; the folder is the last child of the target, every
    other folder is as it was, and no warning is raised. From then on the
    name is taken: creating it again in the same target, in any letter
    case, throws the folder-already-exists error. *)
Theorem createFolder_creates (s : Folders.t) (nm : string) (parent : option Ref)
        (randomId : string) (now : Z) (tf : Folder) :
  heap s !! default (root s) parent = Some tf ->
  ~ hasSibling s (default (root s) parent) nm ->
  let target := default (root s) parent in
  let s' := fst (createFolder nm parent randomId now s) in
  exists r,
    snd (createFolder nm parent randomId now s) = Ok r /\
    heap s !! r = None /\
    heap s' !! r = Some {| folderId := Some randomId; name := Some nm;
                           createdAt := now; isDeleted := false;
                           files := []; folders := [] |} /\
    folderResolveMap s' !! randomId = Some r /\
    (forall i, i <> randomId -> folderResolveMap s' !! i = folderResolveMap s !! i) /\
    (folders <$> heap s' !! target) = Some (folders tf ++ [r])%list /\
    (forall r', r' <> target -> r' <> r -> heap s' !! r' = heap s !! r') /\
    root s' = root s /\ warnings s' = warnings s /\
    (forall nm2 id2 now2,
        JS.toLowerCase nm2 = JS.toLowerCase nm ->
        snd (createFolder nm2 (Some target) id2 now2 s') = Throw FolderExists).
Proof.
  intros Ht Hno target s'. subst s'. fold target in Ht, Hno.
  pose proof (fresh_is_new (heap s)) as Hfresh.
  assert (Hne : target <> fresh (heap s)) by (intros E; congruence).
  set (r := fresh (heap s)) in *.
  set (folder := {| folderId := Some randomId; name := Some nm; createdAt := now;
                    isDeleted := false; files := []; folders := [] |}).
  set (tf' := {| folderId := folderId tf; name := name tf;
                 createdAt := createdAt tf; isDeleted := isDeleted tf;
                 files := files tf; folders := (folders tf ++ [r])%list |}).
  assert (Hcf : createFolder nm parent randomId now s
                = ({| heap := <[target := tf']> (<[r := folder]> (heap s));
                      root := root s;
                      folderResolveMap := <[randomId := r]> (folderResolveMap s);
                      warnings := warnings s |}, Ok r)).
  { unfold createFolder. fold target.
    rewrite Ht, (findFolderByName_none s target tf nm Ht Hno).
    fold r folder. unfold addFolder. by rewrite lookup_insert_ne, Ht. }
  rewrite Hcf. cbn [fst snd heap root folderResolveMap warnings].
  exists r.
  split; [done|]. split; [done|].
  split; [by rewrite lookup_insert_ne, lookup_insert_eq|].
  split; [by rewrite lookup_insert_eq|].
  split; [intros i Hi; by rewrite lookup_insert_ne|].
  split; [by rewrite lookup_insert_eq|].
  split; [intros r' H1 H2; by rewrite !lookup_insert_ne|].
  split; [done|]. split; [done|].
  intros nm2 id2 now2 Hnm.
  apply (createFolder_taken _ nm2 target id2 now2 tf').
  - simpl. by rewrite lookup_insert_eq.
  - exists r, folder. split; [simpl; set_solver|]. split.
    + simpl. by rewrite lookup_insert_ne, lookup_insert_eq.
    + rewrite Hnm. by apply normalizedName_named.
Qed.

End MoreFolderFacts.

Section MoreMyChatsFacts.
Import MyChats.
Local Open Scope list_scope.

Lemma indexOf_app_new (a : list string) (v : string) :
  v ∉ a -> indexOf (a ++ [v]) v = Some (length a).
Proof.
  induction a as [|x a IH]; intros Hn; simpl.
  - by rewrite String.eqb_refl.
  - apply not_elem_of_cons in Hn as (Hne & Hn).
    destruct (String.eqb_spec x v) as [->|_]; [done|].
    by rewrite (IH Hn).
Qed.

Lemma delete_last (a : list string) (v : string) :
  delete (length a) (a ++ [v]) = a.
Proof. induction a as [|x a IH]; simpl; [done|]. by rewrite IH. Qed.

Lemma delete_keeps_others (a : list string) (i : nat) (v x : string) :
  a !! i = Some v -> x <> v -> x ∈ a -> x ∈ delete i a.
Proof.
  revert i. induction a as [|y a IH]; intros i Hi Hne Hin; [done|].
  destruct i as [|i]; simpl in *.
  - injection Hi as ->. by apply elem_of_cons in Hin as [->|Hin].
  - apply elem_of_cons in Hin as [->|Hin]; [left|right]. by apply (IH i).
Qed.

Lemma remove_others (a : list string) (v x : string) :
  x <> v -> (x ∈ fst (_remove a v) <-> x ∈ a).
Proof.
  intros Hne. unfold _remove.
  destruct (indexOf a v) as [i|] eqn:E; simpl; [|done]. split.
  - apply list_elem_of_delete_inv.
  - apply (delete_keeps_others a i v x); [by apply indexOf_Some | done].
Qed.

Lemma add_then_remove (a : list string) (v : string) :
  v ∉ a -> _add a v = (a ++ [v], true) /\ _remove (a ++ [v]) v = (a, true).
Proof.
  intros Hn. unfold _add, _remove.
  rewrite (proj2 (indexOf_None a v) Hn), (indexOf_app_new a v Hn), delete_last.
  done.
Qed.

Lemma addFavorite_new (i : string) (s : MyChats.t) :
  i ∉ favorites s ->
  addFavorite i s
  = ({| favorites := favorites s ++ [i];
        hiddenChats := fst (_remove (hiddenChats s) i) |}, true).
Proof.
  intros Hn. destruct (add_then_remove (favorites s) i Hn) as (Ha & _).
  unfold addFavorite. rewrite Ha. unfold removeHidden. simpl.
  by destruct (_remove (hiddenChats s) i).
Qed.

Lemma addHidden_new (i : string) (s : MyChats.t) :
  i ∉ hiddenChats s ->
  addHidden i s
  = ({| favorites := fst (_remove (favorites s) i);
        hiddenChats := hiddenChats s ++ [i] |}, true).
Proof.
  intros Hn. destruct (add_then_remove (hiddenChats s) i Hn) as (Ha & _).
  unfold addHidden. rewrite Ha. unfold removeFavorite. simpl.
  by destruct (_remove (favorites s) i).
Qed.

(** X23. Adding and removing again is a round trip on the list added
    to, not on the other list. For a chat that is not a favorite,
    addFavorite and then removeFavorite both answer true and leave the
    favorites as they were; of the hidden chats the first entry of this
    chat is gone, so that the chat is no longer hidden if it was hidden
    once, and every other chat is hidden as before. The same holds for
    addHidden and removeHidden with the lists exchanged. *)
Theorem add_remove_round_trip (i : string) (s : MyChats.t) :
  (i ∉ favorites s ->
   let s1 := fst (addFavorite i s) in
   snd (addFavorite i s) = true /\ snd (removeFavorite i s1) = true /\
   favorites s1 = favorites s ++ [i] /\
   favorites (fst (removeFavorite i s1)) = favorites s /\
   hiddenChats (fst (removeFavorite i s1)) = hiddenChats s1 /\
   (NoDup (hiddenChats s) -> i ∉ hiddenChats s1) /\
   (forall x, x <> i -> x ∈ hiddenChats s1 <-> x ∈ hiddenChats s)) /\
  (i ∉ hiddenChats s ->
   let s1 := fst (addHidden i s) in
   snd (addHidden i s) = true /\ snd (removeHidden i s1) = true /\
   hiddenChats s1 = hiddenChats s ++ [i] /\
   hiddenChats (fst (removeHidden i s1)) = hiddenChats s /\
   favorites (fst (removeHidden i s1)) = favorites s1 /\
   (NoDup (favorites s) -> i ∉ favorites s1) /\
   (forall x, x <> i -> x ∈ favorites s1 <-> x ∈ favorites s)).
Proof.
  split; intros Hn s1; subst s1.
  - destruct (add_then_remove (favorites s) i Hn) as (Ha & Hr).
    rewrite (addFavorite_new i s Hn). cbn [fst snd].
    unfold removeFavorite. cbn [favorites hiddenChats]. rewrite Hr. cbn [fst snd].
    cbn [favorites hiddenChats].
    split; [done|]. split; [done|]. split; [done|]. split; [done|].
    split; [done|]. split.
    + intros Hnd. by destruct (remove_spec (hiddenChats s) i Hnd) as (_ & Hgone & _).
    + intros x Hx. by apply remove_others.
  - destruct (add_then_remove (hiddenChats s) i Hn) as (Ha & Hr).
    rewrite (addHidden_new i s Hn). cbn [fst snd].
    unfold removeHidden. cbn [favorites hiddenChats]. rewrite Hr. cbn [fst snd].
    cbn [favorites hiddenChats].
    split; [done|]. split; [done|]. split; [done|]. split; [done|].
    split; [done|]. split.
    + intros Hnd. by destruct (remove_spec (favorites s) i Hnd) as (_ & Hgone & _).
    + intros x Hx. by apply remove_others.
Qed.

Lemma add_present (a : list string) (v : string) : v ∈ fst (_add a v).
Proof.
  unfold _add. destruct (indexOf a v) as [n|] eqn:E; simpl.
  - destruct (decide (v ∈ a)) as [|Hn]; [done|].
    apply indexOf_None in Hn. congruence.
  - set_solver.
Qed.

Lemma add_again (a : list string) (v : string) :
  v ∈ a -> _add a v = (a, false).
Proof.
  intros Hin. unfold _add. destruct (indexOf a v) as [n|] eqn:E; [done|].
  by apply indexOf_None in E.
Qed.

(** X24. An add that answers false touches nothing, not even the other
    list. Whatever the two lists hold, addFavorite (addHidden) of a chat
    leaves it a favorite (hidden); a call that answers false leaves both
    lists as they were, so that a chat found in both lists stays in both;
    and a second call for the same chat always answers false and changes
    nothing. *)
Theorem add_twice (i : string) (s : MyChats.t) :
  (i ∈ favorites (fst (addFavorite i s)) /\
   (snd (addFavorite i s) = false -> fst (addFavorite i s) = s) /\
   (i ∈ favorites s -> addFavorite i s = (s, false)) /\
   addFavorite i (fst (addFavorite i s)) = (fst (addFavorite i s), false)) /\
  (i ∈ hiddenChats (fst (addHidden i s)) /\
   (snd (addHidden i s) = false -> fst (addHidden i s) = s) /\
   (i ∈ hiddenChats s -> addHidden i s = (s, false)) /\
   addHidden i (fst (addHidden i s)) = (fst (addHidden i s), false)).
Proof.
  assert (Hfav : forall s, i ∈ favorites s -> addFavorite i s = (s, false)).
  { intros [fav hid] Hin. unfold addFavorite. simpl in *.
    by rewrite (add_again fav i Hin). }
  assert (Hhid : forall s, i ∈ hiddenChats s -> addHidden i s = (s, false)).
  { intros [fav hid] Hin. unfold addHidden. simpl in *.
    by rewrite (add_again hid i Hin). }
  assert (Hf1 : i ∈ favorites (fst (addFavorite i s))).
  { unfold addFavorite. pose proof (add_present (favorites s) i) as Hp.
    destruct (_add (favorites s) i) as [a r]. simpl in Hp.
    destruct r; simpl; [|done]. unfold removeHidden. simpl.
    by destruct (_remove (hiddenChats s) i). }
  assert (Hh1 : i ∈ hiddenChats (fst (addHidden i s))).
  { unfold addHidden. pose proof (add_present (hiddenChats s) i) as Hp.
    destruct (_add (hiddenChats s) i) as [a r]. simpl in Hp.
    destruct r; simpl; [|done]. unfold removeFavorite. simpl.
    by destruct (_remove (favorites s) i). }
  split.
  - split; [done|]. split; [|split; [apply Hfav | by apply Hfav]].
    unfold addFavorite, _add. destruct s as [fav hid]. simpl.
    destruct (indexOf fav i); simpl; [done|discriminate].
  - split; [done|]. split; [|split; [apply Hhid | by apply Hhid]].
    unfold addHidden, _add. destruct s as [fav hid]. simpl.
    destruct (indexOf hid i); simpl; [done|discriminate].
Qed.

End MoreMyChatsFacts.

Section ChatFilesFacts.
Import Keg FileStore ChatFiles.

(** X25. The cache of a chat's files never moves a fileId to a higher
    version. After setChatFile the chat has an entry for the file's
    fileId: the file given, unless a file of a strictly lower version was
    cached under it, which then stays. So the cached version of a fileId
    that was cached before is at most what it was. Every other entry, of
    this chat and of the others, is as before. *)
Theorem setChatFile_keeps_lower (k : string) (file : File) (m : ChatFiles.t) :
  cached k (fid file) (setChatFile k file m)
  = Some match cached k (fid file) m with
         | Some existing =>
             if version existing <? version file then existing else file
         | None => file
         end /\
  (forall existing g,
      cached k (fid file) m = Some existing ->
      cached k (fid file) (setChatFile k file m) = Some g ->
      version g <= version existing) /\
  (forall k' i', k' <> k \/ i' <> fid file ->
                 cached k' i' (setChatFile k file m) = cached k' i' m).
Proof.
  assert (Hc : cached k (fid file) (setChatFile k file m)
               = Some match cached k (fid file) m with
                      | Some existing =>
                          if version existing <? version file then existing else file
                      | None => file
                      end).
  { unfold cached, setChatFile. unfold ChatFiles.t in *.
    destruct (m !! k) as [fileMap|] eqn:Em.
    - destruct (fileMap !! fid file) as [existing|] eqn:Ee.
      + destruct (version existing <? version file) eqn:Ev.
        * rewrite Em. simpl. exact Ee.
        * rewrite lookup_insert_eq. simpl. by rewrite lookup_insert_eq.
      + rewrite lookup_insert_eq. simpl. by rewrite lookup_insert_eq.
    - rewrite lookup_insert_eq. simpl. by rewrite lookup_singleton_eq. }
  split; [exact Hc|]. split.
  - intros existing g He Hg. rewrite Hc, He in Hg. injection Hg as <-.
    destruct (Z.ltb_spec (version existing) (version file)); lia.
  - intros k' i' Hne. unfold cached, setChatFile. unfold ChatFiles.t in *.
    destruct (m !! k) as [fileMap|] eqn:Em.
    + destruct (fileMap !! fid file) as [existing|] eqn:Ee.
      * destruct (version existing <? version file); [done|].
        destruct (decide (k' = k)) as [->|Hk].
        -- rewrite lookup_insert_eq, Em. destruct Hne as [|Hi]; [done|].
           by rewrite lookup_insert_ne.
        -- by rewrite lookup_insert_ne.
      * destruct (decide (k' = k)) as [->|Hk].
        -- rewrite lookup_insert_eq, Em. destruct Hne as [|Hi]; [done|].
           by rewrite lookup_insert_ne.
        -- by rewrite lookup_insert_ne.
    + destruct (decide (k' = k)) as [->|Hk].
      * rewrite lookup_insert_eq, Em. destruct Hne as [|Hi]; [done|].
        by rewrite lookup_singleton_ne.
      * by rewrite lookup_insert_ne.
Qed.

(** X26. updateCachedChatKeg works on known chats only. It never makes
    an entry for a chat: the chats of the cache are the same after the
    call, and for a chat without entry the cache is as it was, where
    setChatFile would have made the entry; for a chat with an entry it
    does what setChatFile does. *)
Theorem updateCachedChatKeg_known_chats (chatId : string) (keg : File)
        (m : ChatFiles.t) :
  (forall k', is_Some (updateCachedChatKeg chatId keg m !! k') <-> is_Some (m !! k')) /\
  (m !! chatId = None ->
   updateCachedChatKeg chatId keg m = m /\
   is_Some (setChatFile chatId keg m !! chatId)) /\
  (is_Some (m !! chatId) ->
   updateCachedChatKeg chatId keg m = setChatFile chatId keg m).
Proof.
  unfold updateCachedChatKeg, setChatFile. unfold ChatFiles.t in *.
  destruct (m !! chatId) as [fileMap|] eqn:Em.
  - split; [|split; [done|done]]. intros k'.
    destruct (fileMap !! fid keg) as [existing|].
    + destruct (version existing <? version keg); [done|].
      rewrite lookup_insert_is_Some. split.
      * intros [<-|[_ ?]]; [by rewrite Em | done].
      * destruct (decide (chatId = k')); tauto.
    + rewrite lookup_insert_is_Some. split.
      * intros [<-|[_ ?]]; [by rewrite Em | done].
      * destruct (decide (chatId = k')); tauto.
  - split; [done|]. split; [|by intros [? ?]].
    intros _. split; [done|]. by rewrite lookup_insert_eq.
Qed.

End ChatFilesFacts.

Section ReadReceiptFacts.
Import ReadReceipt.

Lemma endsWith_app (pre suffix : string) :
  endsWith (pre ++ suffix) suffix = true.
Proof.
  induction pre as [|c pre IH].
  - destruct suffix; simpl; [done|]. by rewrite Ascii.eqb_refl, String.eqb_refl.
  - change (endsWith (String c pre ++ suffix) suffix)
      with (String.eqb (String c (pre ++ suffix)) suffix
            || endsWith (pre ++ suffix) suffix)%bool.
    by rewrite IH, orb_true_r.
Qed.

Lemma endsWith_inv (s suffix : string) :
  endsWith s suffix = true -> exists pre, s = (pre ++ suffix)%string.
Proof.
  induction s as [|c s IH].
  - simpl. rewrite orb_false_r. destruct suffix; [|done].
    intros _. by exists EmptyString.
  - change (endsWith (String c s) suffix)
      with (String.eqb (String c s) suffix || endsWith s suffix)%bool.
    intros [->%String.eqb_eq|(pre & ->)%IH]%orb_true_iff.
    + by exists EmptyString.
    + by exists (String c pre).
Qed.

Lemma dashfree_app (a b : string) :
  dashfree (a ++ String "-" b) = false.
Proof.
  induction a as [|c a IH]; simpl; [done|]. by rewrite IH, andb_false_r.
Qed.

Lemma dash_split (a pre u o : string) :
  dashfree u = true -> dashfree o = true ->
  (a ++ String "-" u)%string = (pre ++ String "-" o)%string -> u = o.
Proof.
  intros Hu Ho. revert pre. induction a as [|c a IH]; intros pre Heq.
  - destruct pre as [|c' pre]; simpl in Heq.
    + by injection Heq.
    + injection Heq as _ ->. by rewrite dashfree_app in Hu.
  - destruct pre as [|c' pre]; simpl in Heq.
    + injection Heq as _ <-. by rewrite dashfree_app in Ho.
    + injection Heq as _ Heq. by apply (IH pre).
Qed.

(** X27. What afterLoad finds out about a receipt. For a receipt made for
    the user u and owned by o, afterLoad sets receiptError to false when o
    is u; when neither name holds a dash, receiptError is false only then.
    On a receipt made without a user name, which has no keg id, afterLoad
    throws. *)
Theorem afterLoad_receiptError (u o : string) (k : Keg.t bool) :
  u <> "" ->
  Keg.id k = receiptId (Some u) ->
  Keg.owner k = Some o ->
  (exists k', afterLoad k = Ok k' /\
     Keg.id k' = Keg.id k /\ Keg.owner k' = Keg.owner k /\
     (o = u -> Keg.data k' = false) /\
     (dashfree u = true -> dashfree o = true -> Keg.data k' = false -> o = u)) /\
  (forall d, afterLoad (new None d) = Throw TypeError).
Proof.
  intros Hu Hid Ho. split; [|done].
  unfold afterLoad. unfold receiptId in Hid.
  apply String.eqb_neq in Hu. rewrite Hu in Hid. cbn [negb] in Hid.
  rewrite Hid, Ho. cbv beta iota.
  eexists. split; [reflexivity|].
  cbn [Keg.data Keg.set_data Keg.id Keg.owner default].
  split; [done|]. split; [done|]. split.
  - intros ->.
    change ("read_receipt-" ++ u)%string with ("read_receipt" ++ ("-" ++ u))%string.
    by rewrite endsWith_app.
  - intros Hdu Hdo Hd. apply negb_false_iff in Hd.
    apply endsWith_inv in Hd as (pre & Hpre). symmetry.
    apply (dash_split "read_receipt" pre u o Hdu Hdo). exact Hpre.
Qed.

End ReadReceiptFacts.

Section ReadReceiptExamples.
Import ReadReceipt Example.

(** The receipt of bob in a chat, owned by bob. *)
Lemma afterLoad_receiptError_witness :
  exists k', afterLoad (Keg.set_owner (Some "bob") (new (Some "bob") selfDb)) = Ok k' /\
             Keg.data k' = false.
Proof.
  destruct (afterLoad_receiptError "bob" "bob"
              (Keg.set_owner (Some "bob") (new (Some "bob") selfDb)))
    as ((k' & Hk & _ & _ & Hd & _) & _);
    [discriminate | reflexivity | reflexivity |].
  exists k'. split; [exact Hk | by apply Hd].
Defined.

End ReadReceiptExamples.

Section RandomDataFacts.
Import RandomData.

Lemma charAt_in_range (i : nat) :
  (i < 36)%nat ->
  exists c, charAt i = String c EmptyString /\
            In c (list_ascii_of_string usernameChars).
Proof.
  intros Hi.
  do 36 (destruct i as [|i];
         [eexists; split; [reflexivity | simpl; tauto]|]).
  lia.
Qed.

Lemma length_app_string (a b : string) :
  String.length (a ++ b) = (String.length a + String.length b)%nat.
Proof. induction a as [|c a IH]; simpl; [done|]. by rewrite IH. Qed.

Lemma chars_app_string (a b : string) :
  list_ascii_of_string (a ++ b)
  = (list_ascii_of_string a ++ list_ascii_of_string b)%list.
Proof. induction a as [|c a IH]; simpl; [done|]. by rewrite IH. Qed.

Lemma draw_spec (rnd : nat -> nat) (n i : nat) (username : string) :
  (forall j, (rnd j < 36)%nat) ->
  String.length (draw rnd i n username) = (String.length username + n)%nat /\
  (forall c, In c (list_ascii_of_string (draw rnd i n username)) ->
             In c (list_ascii_of_string username) \/
             In c (list_ascii_of_string usernameChars)).
Proof.
  intros Hr. revert i username. induction n as [|n IH]; intros i username; simpl.
  - split; [lia | tauto].
  - destruct (IH (S i) (username ++ charAt (rnd i))%string) as (Hl & Hc).
    destruct (charAt_in_range (rnd i) (Hr i)) as (c0 & Hc0 & Hin0).
    rewrite Hc0 in Hl, Hc |- *. split.
    + rewrite Hl, length_app_string. simpl. lia.
    + intros c Hin. apply Hc in Hin as [Hin|Hin]; [|by right].
      rewrite chars_app_string in Hin. apply in_app_or in Hin as [Hin|Hin];
        [by left|]. simpl in Hin. destruct Hin as [<-|[]]. by right.
Qed.

(** X28. getRandomUsername gives 30 characters, each one of
    usernameChars, whatever the random draws are, as long as each draw is
    an index into usernameChars. *)
Theorem getRandomUsername_shape (rnd : nat -> nat) :
  (forall j, (rnd j < String.length usernameChars)%nat) ->
  String.length (getRandomUsername rnd) = 30%nat /\
  (forall c, In c (list_ascii_of_string (getRandomUsername rnd)) ->
             In c (list_ascii_of_string usernameChars)).
Proof.
  intros Hr. destruct (draw_spec rnd 30 0 "" Hr) as (Hl & Hc).
  split; [exact Hl|]. intros c Hin. by destruct (Hc c Hin) as [[]|].
Qed.

(** Every draw gives the index 7. *)
Lemma getRandomUsername_shape_witness :
  String.length (getRandomUsername (fun _ => 7%nat)) = 30%nat /\
  (forall c, In c (list_ascii_of_string (getRandomUsername (fun _ => 7%nat))) ->
             In c (list_ascii_of_string usernameChars)).
Proof.
  apply (getRandomUsername_shape (fun _ => 7%nat)). intros _. simpl. lia.
Defined.

End RandomDataFacts.

Section MoreFolderExamples.
Import Folders Example.

Lemma docs_has_no_pictures : ~ hasSibling docsTree 0%nat "Pictures".
Proof.
  intros (tf & c & f & Ht & Hin & Hc & Hn).
  vm_compute in Ht. injection Ht as <-. simpl in Hin.
  apply list_elem_of_singleton in Hin as ->.
  vm_compute in Hc. injection Hc as <-. vm_compute in Hn. discriminate.
Defined.

(** A folder "Pictures" is created under the root, beside "Docs". *)
Lemma createFolder_creates_witness :
  exists r,
    snd (createFolder "Pictures" None "c3d4" 1500000000001 docsTree) = Ok r /\
    folderResolveMap (fst (createFolder "Pictures" None "c3d4" 1500000000001 docsTree))
      !! "c3d4" = Some r /\
    (forall nm2 id2 now2,
        JS.toLowerCase nm2 = JS.toLowerCase "Pictures" ->
        snd (createFolder nm2 (Some 0%nat) id2 now2
               (fst (createFolder "Pictures" None "c3d4" 1500000000001 docsTree)))
        = Throw FolderExists).
Proof.
  destruct (createFolder_creates docsTree "Pictures" None "c3d4" 1500000000001
              {| folderId := None; name := None; createdAt := 0;
                 isDeleted := false; files := []; folders := [1%nat] |}
              eq_refl docs_has_no_pictures)
    as (r & Hr & _ & _ & Hm & _ & _ & _ & _ & _ & Hagain).
  exists r. split; [exact Hr|]. split; [exact Hm|]. exact Hagain.
Defined.

End MoreFolderExamples.

Section TextExamples.
Import Keg FileStore FileStoreView Example SampleStore SampleView.
Local Open Scope list_scope.

(** The file f1.txt under the query "F1.T". *)
Lemma filterByName_shows_matches_witness :
  currentFilter (filterByName "F1.T" listed) = "F1.T" /\
  length (files (store (filterByName "F1.T" listed))) = length (files (store listed)) /\
  (forall (i : nat) (f : File), files (store listed) !! i = Some f ->
     exists f' : File, files (store (filterByName "F1.T" listed)) !! i = Some f' /\
       (show (data f') = true <-> contains_ci "F1.T" (name (data f))) /\
       selected (data f') = (selected (data f) && show (data f'))%bool /\
       name (data f') = name (data f) /\ fid f' = fid f /\
       Keg.id f' = Keg.id f /\ version f' = version f) /\
  (forall f', f' ∈ selectedFiles (filterByName "F1.T" listed) ->
              f' ∈ visibleFiles (filterByName "F1.T" listed)).
Proof. apply (filterByName_shows_matches "F1.T" listed). reflexivity. Defined.

Example filterByName_f1 :
  (fun f => show (data f)) <$> files (store (filterByName "F1.T" listed)) = [true] /\
  (fun f => show (data f)) <$> files (store (filterByName "f2" listed)) = [false].
Proof. split; vm_compute; reflexivity. Qed.

(** With the engine of the examples, letters outside ASCII are folded
    too: the query école shows ÉCOLE.txt, and a folder ÉCOLE cannot be
    made beside école. *)
Example filterByName_accented :
  (fun f => show (data f)) <$> files (store (filterByName "école" accented)) = [true].
Proof. vm_compute. reflexivity. Qed.

Example createFolder_accented :
  snd (Folders.createFolder "ÉCOLE" None "c3d4" 1500000000001 ecoleTree)
  = Throw FolderExists.
Proof. vm_compute. reflexivity. Qed.

(** A page request that is rejected is sent again as it was, and the
    load goes on with the answer. *)
Example rejected_page_is_sent_again :
  let s := run (create selfDb)
               [CallLoadAllFiles; PageRejected; PageResponse page12;
                PageRejected; PageResponse []] in
  requests s = map (pageRequestOf selfDb) [Some "999"; Some "1001"] /\
  resends s = map (pageRequestOf selfDb) [Some "999"; Some "1001"] /\
  loaded s = true.
Proof. vm_compute. by repeat split. Qed.

(** So is the request of an update cycle. *)
Example rejected_update_is_sent_again :
  let s := run (ready "00")
               [DigestUpdate "10"; UpdateRejected;
                UpdateResponse [record "1001" "f1" "07" 2]] in
  updateResends s = updateRequests s /\ length (updateRequests s) = 1%nat /\
  cyclesDone s = 1%nat /\ knownUpdateId s = "10".
Proof. vm_compute. by repeat split. Qed.

End TextExamples.
